(** * Algotext, lab07: regular expressions compiled to an NFA and simulated

    A shallow embedding of [lab07/automaton]: [valid_characters.py],
    [regex_iterator.py], [state.py] and [automaton.py].

    Python objects with identity ([State]) live in an explicit store and are
    named by their position in it; every operation that may touch a [State]
    threads the store, so that reads through the [defaultdict] (which insert
    the default on a missing key) are visible.  Python [dict]s whose iteration
    order is observable are association lists kept in insertion order.  Sets
    of integers are [gset Z].  Loops that the source does not bound take fuel
    and report [OutOfFuel] when it is exhausted. *)

From Stdlib Require Import String Ascii ZArith List Bool Lia DecimalString.
From stdpp Require Import gmap strings list sorting.

Set Warnings "-clear-no-such-hyp".

Open Scope string_scope.
Open Scope list_scope.
Open Scope Z_scope.

(** ** Python values: strings, indices, slices *)

Module Py.

Definition chr (c : ascii) : string := String c EmptyString.

Definition len (s : string) : Z := Z.of_nat (String.length s).

(** [str(i)] for an integer. *)
Definition str_of_int (i : Z) : string := NilZero.string_of_int (Z.to_int i).

(** [s[i]]: negative indices count from the end; [None] is [IndexError]. *)
Definition index (s : string) (i : Z) : option ascii :=
  let i' := if i <? 0 then i + len s else i in
  if i' <? 0 then None else String.get (Z.to_nat i') s.

Definition clamp (s : string) (i : Z) : nat :=
  let n := len s in
  Z.to_nat (if i <? 0 then Z.max (i + n) 0 else Z.min i n).

(** [s[lo:hi]], [s[lo:]] and [s[:hi]]. *)
Definition slice (s : string) (lo hi : Z) : string :=
  let l := clamp s lo in
  let h := clamp s hi in
  String.substring l (h - l)%nat s.

Definition slice_from (s : string) (lo : Z) : string :=
  let l := clamp s lo in
  String.substring l (String.length s - l)%nat s.

Definition slice_to (s : string) (hi : Z) : string :=
  String.substring 0 (clamp s hi) s.

(** [list(s)] *)
Fixpoint chars (s : string) : list ascii :=
  match s with
  | EmptyString => []
  | String c r => c :: chars r
  end.

(** [sep.join(list(s))] for a list of one-character strings. *)
Fixpoint join (sep : string) (l : list ascii) : string :=
  match l with
  | [] => EmptyString
  | [c] => chr c
  | c :: r => String c (sep +:+ join sep r)
  end.

(** [needle in hay] on strings: substring test. *)
Fixpoint str_contains (hay needle : string) : bool :=
  String.prefix needle hay ||
  match hay with
  | EmptyString => false
  | String _ r => str_contains r needle
  end.

(** [enumerate(s)] *)
Fixpoint enumerate_from (i : Z) (s : string) : list (Z * ascii) :=
  match s with
  | EmptyString => []
  | String c r => (i, c) :: enumerate_from (i + 1) r
  end.

Definition enumerate (s : string) : list (Z * ascii) := enumerate_from 0 s.

End Py.

(** ** valid_characters.py *)

Module ValidCharacters.

Definition SPACE : ascii := " "%char.
Definition ANY_SYMBOL : ascii := "."%char.

Definition between (lo hi : nat) (c : ascii) : bool :=
  let n := nat_of_ascii c in ((lo <=? n) && (n <=? hi))%nat.

(** [set(string.digits)] *)
Definition DIGITS_SET (c : ascii) : bool := between 48 57 c.

(** [set(string.ascii_letters)] *)
Definition ASCII_SET (c : ascii) : bool := between 97 122 c || between 65 90 c.

Definition VALID_SYMBOLS (c : ascii) : bool :=
  ASCII_SET c || DIGITS_SET c || Ascii.eqb c SPACE || Ascii.eqb c ANY_SYMBOL.

Definition PARENTHESES (c : ascii) : bool :=
  Ascii.eqb c "("%char || Ascii.eqb c ")"%char ||
  Ascii.eqb c "["%char || Ascii.eqb c "]"%char.

Definition KLEENE_CLOSURE : ascii := "*"%char.
Definition ONE_OR_NONE : ascii := "?"%char.
Definition ONE_CLOSURE : ascii := "+"%char.

Definition META_SYMBOLS (c : ascii) : bool :=
  Ascii.eqb c KLEENE_CLOSURE || Ascii.eqb c ONE_OR_NONE || Ascii.eqb c ONE_CLOSURE.

Definition BACK_SLASH : ascii := "\"%char.
Definition DIGITS : ascii := "d"%char.
Definition DIGITS_CLASS : string := "\d".
Definition WORD : ascii := "w"%char.
Definition WORD_CLASS : string := "\w".
Definition ALPHA : ascii := "a"%char.
Definition ALPHA_CLASS : string := "\a".

Definition CLASS_SYMBOLS (c : ascii) : bool :=
  Ascii.eqb c DIGITS || Ascii.eqb c WORD || Ascii.eqb c ALPHA.

Definition ALL_SYMBOLS (c : ascii) : bool :=
  VALID_SYMBOLS c || PARENTHESES c || META_SYMBOLS c || CLASS_SYMBOLS c ||
  Ascii.eqb c BACK_SLASH || Ascii.eqb c ANY_SYMBOL.

Definition STD_EPSILON : ascii := "?"%char.
Definition STD_SUM : ascii := "+"%char.
Definition STD_KLEENE : ascii := "*"%char.

(** [x in S] where [S] is a set of one-character strings and [x] a string. *)
Definition str_in (S : ascii -> bool) (x : string) : bool :=
  match x with
  | String c EmptyString => S c
  | _ => false
  end.

End ValidCharacters.

(** ** Exceptions and results *)

Inductive exn : Type :=
| ValueError (msg : string)
| IndexError
| KeyError
| Exception (msg : string).

Inductive res (A : Type) : Type :=
| Ok (a : A)
| Raise (e : exn)
| OutOfFuel.

Arguments Ok {A} a.
Arguments Raise {A} e.
Arguments OutOfFuel {A}.

Definition res_bind {A B} (r : res A) (k : A -> res B) : res B :=
  match r with
  | Ok a => k a
  | Raise e => Raise e
  | OutOfFuel => OutOfFuel
  end.

Definition res_map {A B} (f : A -> B) (r : res A) : res B :=
  res_bind r (fun a => Ok (f a)).

Definition of_option {A} (e : exn) (o : option A) : res A :=
  match o with
  | Some a => Ok a
  | None => Raise e
  end.

(** ** Python [dict] with observable insertion order *)

Section Dict.
Context {K V : Type} `{EqDecision K}.

(** [d.get(k)] / [k in d] / [d[k]] *)
Fixpoint dict_get (d : list (K * V)) (k : K) : option V :=
  match d with
  | [] => None
  | (k', v) :: r => if decide (k' = k) then Some v else dict_get r k
  end.

Definition dict_mem (d : list (K * V)) (k : K) : bool :=
  match dict_get d k with Some _ => true | None => false end.

(** [d[k] = v]: an existing key keeps its place, a new key goes last. *)
Fixpoint dict_set (d : list (K * V)) (k : K) (v : V) : list (K * V) :=
  match d with
  | [] => [(k, v)]
  | (k', v') :: r =>
      if decide (k' = k) then (k, v) :: r else (k', v') :: dict_set r k v
  end.

(** [d.keys()] *)
Definition dict_keys (d : list (K * V)) : list K := map fst d.

End Dict.

(** ** regex_iterator.py *)

Module RegexIterator.
Import ValidCharacters.

Definition END_OF_STRING : ascii := ascii_of_nat 0.

(** The local variables of [__regex_correct]. *)
Record scan := mkScan {
  parentheses_round : Z;
  parentheses_square : Z;
  in_square : bool;
  round_empty : bool;
  square_empty : bool
}.

Definition scan0 : scan := mkScan 0 0 false false false.

Definition pos_msg (what : string) (i : Z) : string :=
  what +:+ " at pos " +:+ Py.str_of_int i.

Definition char_is (c : ascii) (o : option ascii) : bool :=
  match o with Some d => Ascii.eqb d c | None => false end.

Definition char_in (S : ascii -> bool) (o : option ascii) : bool :=
  match o with Some d => S d | None => false end.

(** One iteration of the [for i, letter in enumerate(regex)] loop:
    [inl] is an early [return], [inr] the locals after the iteration. *)
Definition regex_correct_step (regex : string) (i : Z) (letter : ascii)
    (st : scan) : (bool * string) + scan :=
  let at_ c := Ascii.eqb letter c in
  let re := if round_empty st && negb (at_ ")"%char) then false else round_empty st in
  let se := if square_empty st && negb (at_ "]"%char) then false else square_empty st in
  if in_square st && negb (VALID_SYMBOLS letter) && negb (at_ "]"%char) then
    inl (false, pos_msg "Invalid symbol in parentheses []" i)
  else if negb (ALL_SYMBOLS letter) then
    inl (false, pos_msg "Invalid symbol" i)
  else
    let '(re, pr) :=
      if at_ "("%char then (true, parentheses_round st + 1)
      else (re, parentheses_round st) in
    if at_ ")"%char && re then
      inl (false, pos_msg "Empty parentheses ()" (i - 1))
    else
      let pr := if at_ ")"%char then pr - 1 else pr in
      let '(se, isq, ps) :=
        if at_ "["%char then (true, true, parentheses_square st + 1)
        else (se, in_square st, parentheses_square st) in
      if at_ "]"%char && se then
        inl (false, pos_msg "Empty parentheses []" (i - 1))
      else
        let '(isq, ps) := if at_ "]"%char then (false, ps - 1) else (isq, ps) in
        let next := if Py.len regex =? i + 1 then None else Py.index regex (i + 1) in
        if at_ BACK_SLASH && ((Py.len regex =? i + 1) || negb (char_in CLASS_SYMBOLS next)) then
          inl (false,
               pos_msg ("Character " +:+ Py.chr BACK_SLASH +:+
                        " not followed by valid class symbol") i)
        else if negb (at_ BACK_SLASH) && META_SYMBOLS letter &&
                ((negb (Py.len regex =? i + 1) && char_in META_SYMBOLS next)
                 || (i =? 0)) then
          inl (false, pos_msg "Repetition meta symbols in a row" i)
        else
          let prev := Py.index regex (i - 1) in
          if META_SYMBOLS letter && (0 <? i) &&
             (negb (char_in VALID_SYMBOLS prev) &&
              negb (char_is ")"%char prev) && negb (char_is "]"%char prev)) then
            inl (false, pos_msg "Invalid use of symbol" i)
          else
            inr (mkScan pr ps isq re se).

Fixpoint regex_correct_loop (regex : string) (todo : list (Z * ascii))
    (st : scan) : bool * string :=
  match todo with
  | [] =>
      ((parentheses_square st =? parentheses_round st) &&
       (parentheses_round st =? 0),
       "Some parentheses are not enclosed")
  | (i, letter) :: rest =>
      match regex_correct_step regex i letter st with
      | inl r => r
      | inr st' => regex_correct_loop regex rest st'
      end
  end.

(** [RegexIterator.__regex_correct] *)
Definition regex_correct (regex : string) : bool * string :=
  regex_correct_loop regex (Py.enumerate regex) scan0.

(** [while (text[j] != ']'): j += 1] *)
Fixpoint find_square_end (fuel : nat) (text : string) (j : Z) : res Z :=
  match fuel with
  | O => OutOfFuel
  | S f =>
      match Py.index text j with
      | None => Raise IndexError
      | Some c =>
          if Ascii.eqb c "]"%char then Ok j else find_square_end f text (j + 1)
      end
  end.

(** [while (num_of_parentheses): ...; j += 1] *)
Fixpoint find_round_end (fuel : nat) (text : string) (j num : Z) : res Z :=
  match fuel with
  | O => OutOfFuel
  | S f =>
      if num =? 0 then Ok j
      else
        match Py.index text j with
        | None => Raise IndexError
        | Some c =>
            let num := if Ascii.eqb c "("%char then num + 1 else num in
            let num := if Ascii.eqb c ")"%char then num - 1 else num in
            find_round_end f text (j + 1) num
        end
  end.

(** [parenthesis_begin.get(k, k)] *)
Definition get_or (d : list (Z * Z)) (k : Z) : Z :=
  match dict_get d k with Some v => v | None => k end.

(** [RegexIterator.__convert_to_standard_re_helper]: the [while] loop,
    with the current [text], [parenthesis_begin] and [i]. *)
Fixpoint convert_loop (fuel : nat) (text : string)
    (parenthesis_begin : list (Z * Z)) (i : Z) : res (string * list (Z * Z)) :=
  match fuel with
  | O => OutOfFuel
  | S f =>
      if negb (i <? Py.len text) then Ok (text, parenthesis_begin)
      else
        match Py.index text i with
        | None => Raise IndexError
        | Some c =>
            if Ascii.eqb c "["%char then
              res_bind (find_square_end f text (i + 1)) (fun j =>
              let pattern :=
                "(" +:+ Py.join "+" (Py.chars (Py.slice text (i + 1) j)) +:+ ")" in
              let text := Py.slice_to text i +:+ pattern +:+ Py.slice_from text (j + 1) in
              let pb := dict_set parenthesis_begin (i - 1 + Py.len pattern) i in
              convert_loop f text pb (i - 1 + Py.len pattern + 1))
            else if Ascii.eqb c "("%char then
              res_bind (find_round_end f text (i + 1) 1) (fun j =>
              res_bind (convert_loop f (Py.slice text (i + 1) (j - 1)) [] 0)
                (fun '(pattern, par_begs) =>
              let pb :=
                fold_left
                  (fun pb '(e, b) => dict_set pb (e + i + 1) (b + i + 1))
                  par_begs parenthesis_begin in
              let text :=
                Py.slice_to text (i + 1) +:+ pattern +:+ Py.slice_from text (j - 1) in
              let pb := dict_set pb (i + 1 + Py.len pattern) i in
              convert_loop f text pb (i + 1 + Py.len pattern + 1)))
            else if Ascii.eqb c ValidCharacters.ONE_CLOSURE then
              let beg_idx := get_or parenthesis_begin (i - 1) in
              let beg_idx :=
                if (0 <? i - 1) && char_is "\"%char (Py.index text (i - 2))
                then beg_idx - 1 else beg_idx in
              let pattern := Py.slice text beg_idx i in
              let text :=
                Py.slice_to text beg_idx +:+ pattern +:+ pattern +:+
                Py.chr ValidCharacters.STD_KLEENE +:+ Py.slice_from text (i + 1) in
              convert_loop f text parenthesis_begin (i + Py.len pattern + 1)
            else if Ascii.eqb c ValidCharacters.ONE_OR_NONE then
              let beg_idx := get_or parenthesis_begin (i - 1) in
              let pattern := Py.slice text beg_idx i in
              let text :=
                Py.slice_to text beg_idx +:+ "(" +:+ pattern +:+
                Py.chr ValidCharacters.STD_SUM +:+
                Py.chr ValidCharacters.STD_EPSILON +:+ ")" +:+
                Py.slice_from text (i + 1) in
              convert_loop f text parenthesis_begin (beg_idx + Py.len pattern + 3 + 1)
            else
              convert_loop f text parenthesis_begin (i + 1)
        end
  end.

Definition convert_to_standard_re_helper (fuel : nat) (text : string)
    : res (string * list (Z * Z)) :=
  convert_loop fuel text [] 0.

(** The iterator object: the canonical pattern, the read position and the
    lookahead ([None] before the first [next_char]). *)
Record t := mkIter {
  regex : string;
  idx : Z;
  char : option ascii
}.

(** [RegexIterator.__init__] followed by [iter(regex)]. *)
Definition init (fuel : nat) (raw : string) : res t :=
  if String.eqb raw "" then Raise (ValueError "Empty regex.")
  else
    let '(correct, error_str) := regex_correct raw in
    if negb correct then
      Raise (ValueError ("Regular expression invalid: " +:+ error_str))
    else
      res_bind (convert_to_standard_re_helper fuel raw) (fun '(std, _) =>
      Ok (mkIter std 0 None)).

(** [__next__] and [next_char] *)
Definition next_char (r : t) : t :=
  if idx r =? Py.len (regex r) then
    mkIter (regex r) (idx r) (Some END_OF_STRING)
  else
    mkIter (regex r) (idx r + 1) (Py.index (regex r) (idx r)).

Definition ended (r : t) : bool := char_is END_OF_STRING (char r).

End RegexIterator.

(** ** state.py *)

(** A reference to a [State] object: its position in the store. *)
Definition ref := nat.

Module State.

Definition EPSILON : string := "".

(** The attributes of a [State]: [trans], a [defaultdict] from labels to
    lists of states, and [idx]. *)
Record t := mk {
  trans : list (string * list ref);
  idx : option Z
}.

Definition empty : t := mk [] None.

#[global] Instance eq_dec : EqDecision t.
Proof. solve_decision. Defined.

End State.

(** The store of [State] objects.  A reference outside the store (which no
    Python program can hold) reads as a state without transitions and
    ignores writes. *)
Abbreviation store := (list State.t).

Definition state_at (h : store) (s : ref) : State.t :=
  match h !! s with
  | Some st => st
  | None => State.empty
  end.

(** Computations over the store that may raise or run out of fuel. *)
Definition M (A : Type) : Type := store -> res (A * store).

Definition ret {A} (a : A) : M A := fun h => Ok (a, h).

Definition bind {A B} (m : M A) (k : A -> M B) : M B :=
  fun h =>
    match m h with
    | Ok (a, h') => k a h'
    | Raise e => Raise e
    | OutOfFuel => OutOfFuel
    end.

Definition raise {A} (e : exn) : M A := fun _ => Raise e.

Definition out_of_fuel {A} : M A := fun _ => OutOfFuel.

Definition lift {A} (r : res A) : M A :=
  fun h => res_map (fun a => (a, h)) r.

(** A computation that returns its store unchanged whenever it returns. *)
Definition reads_only {A} (m : M A) : Prop :=
  forall h a h', m h = Ok (a, h') -> h' = h.

Notation "'let*' x ':=' m 'in' k" := (bind m (fun x => k))
  (at level 10, x pattern, m at level 100, k at level 200).

Module StateOps.
Import State.

(** [State()] *)
Definition new : M ref := fun h => Ok (length h, h ++ [State.empty]).

(** [key in state] *)
Definition contains (s : ref) (key : string) : M bool :=
  fun h => Ok (dict_mem (trans (state_at h s)) key, h).

(** [state[key]]: the [defaultdict] inserts an empty list for a missing
    key before returning it. *)
Definition getitem (s : ref) (key : string) : M (list ref) :=
  fun h =>
    let st := state_at h s in
    match dict_get (trans st) key with
    | Some l => Ok (l, h)
    | None => Ok ([], <[s := mk (dict_set (trans st) key []) (idx st)]> h)
    end.

(** [state[key] = value], that is [self.trans[key] += [value]]. *)
Definition setitem (s : ref) (key : string) (value : ref) : M unit :=
  fun h =>
    let st := state_at h s in
    let old := match dict_get (trans st) key with Some l => l | None => [] end in
    Ok (tt, <[s := mk (dict_set (trans st) key (old ++ [value])) (idx st)]> h).

(** [state.get(key, default)] *)
Definition get (s : ref) (key : string) (default : list ref) : M (list ref) :=
  fun h =>
    match dict_get (trans (state_at h s)) key with
    | Some l => Ok (l, h)
    | None => Ok (default, h)
    end.

(** [state.keys()] *)
Definition keys (s : ref) : M (list string) :=
  fun h => Ok (dict_keys (trans (state_at h s)), h).

End StateOps.

(** ** automaton.py: construction *)

Module Automaton.
Import ValidCharacters.

(** The attributes of an [Automaton]. *)
Record t := mk {
  initial : ref;
  final : ref;
  enumeration_proper : bool
}.

(** [Automaton.__init__] *)
Definition init (letter : string) : M t :=
  let* i := StateOps.new in
  let* f := StateOps.new in
  let* _ := StateOps.setitem i letter f in
  ret (mk i f false).

(** *** [copy.deepcopy] of an automaton

    The copy duplicates every [State] reachable from [initial] and [final]
    once; the duplicates are appended to the store in the order the
    traversal meets them.  The library function recurses over the object
    graph and raises [RecursionError] on a long chain of states; the model
    has no such limit, so it describes the runs that return, and nothing
    below states that a copy returns. *)

Definition targets (st : State.t) : list ref := concat (map snd (State.trans st)).

Fixpoint reach_loop (fuel : nat) (h : store) (todo seen : list ref) : list ref :=
  match fuel with
  | O => seen
  | S f =>
      match todo with
      | [] => seen
      | s :: todo' =>
          if decide (s ∈ seen) then reach_loop f h todo' seen
          else reach_loop f h (targets (state_at h s) ++ todo') (seen ++ [s])
      end
  end.

(** Every reference enters the work list once as a root or once per
    transition pointing at it. *)
Definition reach (h : store) (roots : list ref) : list ref :=
  reach_loop (S (length roots + length (concat (map targets h)))) h roots [].

Fixpoint position (r : ref) (l : list ref) : option nat :=
  match l with
  | [] => None
  | x :: l' => if decide (x = r) then Some O else S <$> position r l'
  end.

Definition rename (base : nat) (seen : list ref) (r : ref) : ref :=
  match position r seen with
  | Some k => (base + k)%nat
  | None => r
  end.

Definition copy_state (base : nat) (seen : list ref) (st : State.t) : State.t :=
  State.mk
    (map (fun '(k, l) => (k, map (rename base seen) l)) (State.trans st))
    (State.idx st).

Definition deepcopy (a : t) : M t :=
  fun h =>
    let seen := reach h [initial a; final a] in
    let base := length h in
    Ok (mk (rename base seen (initial a)) (rename base seen (final a))
           (enumeration_proper a),
        h ++ map (fun r => copy_state base seen (state_at h r)) seen).

(** [deepcopy(automaton) if (copy) else automaton] *)
Definition operand (copy : bool) (automaton : t) : M t :=
  if copy then deepcopy automaton else ret automaton.

(** [Automaton.__perform_star] *)
Definition perform_star (automaton : t) (copy : bool) : M t :=
  let* automaton := operand copy automaton in
  let old_initial := initial automaton in
  let old_final := final automaton in
  let* new_initial := StateOps.new in
  let* new_final := StateOps.new in
  let* _ := StateOps.setitem new_initial State.EPSILON old_initial in
  let* _ := StateOps.setitem new_initial State.EPSILON new_final in
  let* _ := StateOps.setitem old_final State.EPSILON new_initial in
  let* _ := StateOps.setitem old_final State.EPSILON new_final in
  ret (mk new_initial new_final false).

(** [Automaton.__perform_concatenation] *)
Definition perform_concatenation (aut1 aut2 : t) (copy_fst copy_snd : bool) : M t :=
  let* automaton1 := operand copy_fst aut1 in
  let* automaton2 := operand copy_snd aut2 in
  let* _ := StateOps.setitem (final automaton1) State.EPSILON (initial automaton2) in
  ret (mk (initial automaton1) (final automaton2) false).

(** [Automaton.__perform_alternative] *)
Definition perform_alternative (aut1 aut2 : t) (copy_fst copy_snd : bool) : M t :=
  let* automaton1 := operand copy_fst aut1 in
  let* automaton2 := operand copy_snd aut2 in
  let old_initial := initial automaton1 in
  let old_final := final automaton1 in
  let* new_initial := StateOps.new in
  let* new_final := StateOps.new in
  let* _ := StateOps.setitem new_initial State.EPSILON old_initial in
  let* _ := StateOps.setitem new_initial State.EPSILON (initial automaton2) in
  let* _ := StateOps.setitem old_final State.EPSILON new_final in
  let* _ := StateOps.setitem (final automaton2) State.EPSILON new_final in
  ret (mk new_initial new_final false).

Definition imul (a b : t) : M t := perform_concatenation a b false true.
Definition iadd (a b : t) : M t := perform_alternative a b false true.

(** *** The recursive-descent parser: [__expr], [__term], [__factor].
    The two [while] loops are [expr_while] and [term_while]. *)

Definition char_str (r : RegexIterator.t) : string :=
  match RegexIterator.char r with
  | Some c => Py.chr c
  | None => ""
  end.

Definition at_char (c : ascii) (r : RegexIterator.t) : bool :=
  RegexIterator.char_is c (RegexIterator.char r).

Definition at_valid_symbol (r : RegexIterator.t) : bool :=
  RegexIterator.char_in VALID_SYMBOLS (RegexIterator.char r).

Fixpoint expr (fuel : nat) (regex : RegexIterator.t) : M (t * RegexIterator.t) :=
  match fuel with
  | O => out_of_fuel
  | S f =>
      let* (automaton, regex) := term f regex in
      expr_while f automaton regex
  end
with expr_while (fuel : nat) (automaton : t) (regex : RegexIterator.t)
    : M (t * RegexIterator.t) :=
  match fuel with
  | O => out_of_fuel
  | S f =>
      if at_char STD_SUM regex then
        let regex := RegexIterator.next_char regex in
        let* (other, regex) := term f regex in
        let* automaton := perform_alternative automaton other false false in
        expr_while f automaton regex
      else ret (automaton, regex)
  end
with term (fuel : nat) (regex : RegexIterator.t) : M (t * RegexIterator.t) :=
  match fuel with
  | O => out_of_fuel
  | S f =>
      let* (automaton, regex) := factor f regex in
      term_while f automaton regex
  end
with term_while (fuel : nat) (automaton : t) (regex : RegexIterator.t)
    : M (t * RegexIterator.t) :=
  match fuel with
  | O => out_of_fuel
  | S f =>
      if at_valid_symbol regex || at_char "("%char regex || at_char "\"%char regex then
        let* (other, regex) := factor f regex in
        let* automaton := perform_concatenation automaton other false false in
        term_while f automaton regex
      else ret (automaton, regex)
  end
with factor (fuel : nat) (regex : RegexIterator.t) : M (t * RegexIterator.t) :=
  match fuel with
  | O => out_of_fuel
  | S f =>
      let* (automaton, regex) :=
        (if at_char BACK_SLASH regex then
           let letter := char_str regex in
           let regex := RegexIterator.next_char regex in
           let letter := letter +:+ char_str regex in
           let* automaton := init letter in
           ret (automaton, RegexIterator.next_char regex)
         else if at_char STD_EPSILON regex then
           let* automaton := init State.EPSILON in
           ret (automaton, RegexIterator.next_char regex)
         else if at_valid_symbol regex then
           let* automaton := init (char_str regex) in
           ret (automaton, RegexIterator.next_char regex)
         else if at_char "("%char regex then
           let regex := RegexIterator.next_char regex in
           let* (automaton, regex) := expr f regex in
           if at_char ")"%char regex
           then ret (automaton, RegexIterator.next_char regex)
           else ret (automaton, regex)
         else raise (Exception "")) in
      if at_char STD_KLEENE regex then
        let* automaton := perform_star automaton false in
        ret (automaton, RegexIterator.next_char regex)
      else ret (automaton, regex)
  end.

(** *** Epsilon-cycle detection: [__bfs_generator], [__has_epsilon_cycle],
    [__is_acyclic] *)

(** [for nbh in trans_list: if (not visited[nbh]): queue.put(nbh); ...] *)
Fixpoint bfs_visit (trans_list : list ref) (queue : list ref) (visited : gset ref)
    : list ref * gset ref :=
  match trans_list with
  | [] => (queue, visited)
  | nbh :: rest =>
      if decide (nbh ∈ visited) then bfs_visit rest queue visited
      else bfs_visit rest (queue ++ [nbh]) ({[nbh]} ∪ visited)
  end.

(** [for label in node.keys(): trans_list = node[label]; ...] *)
Fixpoint bfs_labels (node : ref) (labels : list string) (queue : list ref)
    (visited : gset ref) : M (list ref * gset ref) :=
  match labels with
  | [] => ret (queue, visited)
  | label :: rest =>
      let* trans_list := StateOps.getitem node label in
      let (queue, visited) := bfs_visit trans_list queue visited in
      bfs_labels node rest queue visited
  end.

(** The states in the order [__bfs_generator] yields them.  The generator
    only reads the states, so running it to the end before its consumer
    yields the same sequence. *)
Fixpoint bfs_loop (fuel : nat) (queue : list ref) (visited : gset ref)
    (yielded : list ref) : M (list ref) :=
  match fuel with
  | O => out_of_fuel
  | S f =>
      match queue with
      | [] => ret yielded
      | node :: queue =>
          let* labels := StateOps.keys node in
          let* (queue, visited) := bfs_labels node labels queue visited in
          bfs_loop f queue visited (yielded ++ [node])
      end
  end.

Definition bfs_generator (fuel : nat) (self : t) : M (list ref) :=
  bfs_loop fuel [initial self] {[initial self]} [].

(** [__has_epsilon_cycle]: the result and the sets [visited] and
    [processed] after the call. *)
Fixpoint has_epsilon_cycle (fuel : nat) (node : ref) (visited processed : gset ref)
    : M (bool * gset ref * gset ref) :=
  match fuel with
  | O => out_of_fuel
  | S f =>
      let* neighbours := StateOps.get node State.EPSILON [] in
      let visited := {[node]} ∪ visited in
      (fix each (nbhs : list ref) (visited processed : gset ref)
          : M (bool * gset ref * gset ref) :=
         match nbhs with
         | [] => ret (false, visited, {[node]} ∪ processed)
         | nbh :: rest =>
             if decide (nbh ∈ processed) then each rest visited processed
             else if decide (nbh ∈ visited) then ret (true, visited, processed)
             else
               let* (found, visited, processed) :=
                 has_epsilon_cycle f nbh visited processed in
               if found then ret (true, visited, processed)
               else each rest ({[nbh]} ∪ visited) processed
         end) neighbours visited processed
  end.

Fixpoint is_acyclic_loop (fuel : nat) (nodes : list ref) (visited processed : gset ref)
    : M bool :=
  match nodes with
  | [] => ret true
  | node :: rest =>
      if decide (node ∈ processed) then is_acyclic_loop fuel rest visited processed
      else
        let* (found, visited, processed) :=
          has_epsilon_cycle fuel node visited processed in
        if found then ret false
        else is_acyclic_loop fuel rest visited processed
  end.

Definition is_acyclic (fuel : nat) (self : t) : M bool :=
  let* nodes := bfs_generator fuel self in
  is_acyclic_loop fuel nodes ∅ ∅.

(** [Automaton.build_from_regex] *)
Definition build_from_regex (fuel : nat) (regex : string) (check_correctness : bool)
    : M t :=
  let* regex := lift (RegexIterator.init fuel regex) in
  let regex := RegexIterator.next_char regex in
  let* (automaton, _) := expr fuel regex in
  let* ok := (if check_correctness then is_acyclic fuel automaton else ret true) in
  if negb ok then
    raise (Exception
      "Automaton has an epsilon cycle. That makes it impossible to simulate with this particular implementation.")
  else ret automaton.

(** *** Simulation: [__closure], [__trans], [test_word], [__matching] *)

(** A frontier: the [dict] from states to sets of indexes. *)
Definition state_dict := list (ref * gset Z).

(** The [for next_state in state[State.EPSILON]] loop of [__closure]. *)
Fixpoint closure_targets (indexes_set : gset Z) (next_states : list ref)
    (sd : state_dict) (queue : list ref) : state_dict * list ref :=
  match next_states with
  | [] => (sd, queue)
  | next_state :: rest =>
      match dict_get sd next_state with
      | None =>
          closure_targets indexes_set rest
            (dict_set sd next_state indexes_set) (queue ++ [next_state])
      | Some old =>
          closure_targets indexes_set rest
            (dict_set sd next_state (old ∪ indexes_set)) (queue ++ [next_state])
      end
  end.

(** The [while (not queue.empty())] loop of [__closure]. *)
Fixpoint closure_loop (fuel : nat) (queue : list ref) (sd : state_dict)
    : M state_dict :=
  match fuel with
  | O => out_of_fuel
  | S f =>
      match queue with
      | [] => ret sd
      | state :: queue =>
          let* indexes_set := lift (of_option KeyError (dict_get sd state)) in
          let* has_eps := StateOps.contains state State.EPSILON in
          if has_eps then
            let* next_states := StateOps.getitem state State.EPSILON in
            let (sd, queue) := closure_targets indexes_set next_states sd queue in
            closure_loop f queue sd
          else closure_loop f queue sd
      end
  end.

(** [Automaton.__closure] *)
Definition closure (fuel : nat) (sd : state_dict) : M state_dict :=
  closure_loop fuel (dict_keys sd) sd.

(** The [for new_state in state[alternative_letter]] loop of [__trans]. *)
Fixpoint trans_targets (indexes_set : gset Z) (new_states : list ref)
    (result_dict : state_dict) : state_dict :=
  match new_states with
  | [] => result_dict
  | new_state :: rest =>
      match dict_get result_dict new_state with
      | Some old =>
          trans_targets indexes_set rest
            (dict_set result_dict new_state (old ∪ indexes_set))
      | None =>
          trans_targets indexes_set rest
            (dict_set result_dict new_state indexes_set)
      end
  end.

(** The body of the [for state in state_dict.keys()] loop of [__trans] up to
    the choice of [alternative_letter]: the label looked up in [state] and
    the value of [letter] after the iteration. *)
Definition trans_label (state : ref) (letter : string) : M (string * string) :=
  let alternative_letter := letter in
  let* has_any := StateOps.contains state (Py.chr ANY_SYMBOL) in
  let letter := if has_any then Py.chr ANY_SYMBOL else letter in
  let* has_digits := StateOps.contains state DIGITS_CLASS in
  let alternative_letter :=
    if has_digits && str_in DIGITS_SET letter
    then DIGITS_CLASS else alternative_letter in
  let* has_word := StateOps.contains state WORD_CLASS in
  let alternative_letter :=
    if has_word && (Py.str_contains DIGITS_CLASS letter || str_in ASCII_SET letter)
    then WORD_CLASS else alternative_letter in
  let* has_alpha := StateOps.contains state ALPHA_CLASS in
  let alternative_letter :=
    if has_alpha && str_in ASCII_SET letter
    then ALPHA_CLASS else alternative_letter in
  ret (alternative_letter, letter).

Fixpoint trans_loop (states : list ref) (sd : state_dict) (letter : string)
    (result_dict : state_dict) : M state_dict :=
  match states with
  | [] => ret result_dict
  | state :: rest =>
      let* indexes_set := lift (of_option KeyError (dict_get sd state)) in
      let* (alternative_letter, letter) := trans_label state letter in
      let* present := StateOps.contains state alternative_letter in
      if present then
        let* new_states := StateOps.getitem state alternative_letter in
        trans_loop rest sd letter (trans_targets indexes_set new_states result_dict)
      else trans_loop rest sd letter result_dict
  end.

(** [Automaton.__trans] *)
Definition trans (sd : state_dict) (letter : string) : M state_dict :=
  trans_loop (dict_keys sd) sd letter [].

Fixpoint test_word_loop (fuel : nat) (word : list ascii) (sd : state_dict)
    : M state_dict :=
  match word with
  | [] => ret sd
  | letter :: rest =>
      let* trans_dict := trans sd (Py.chr letter) in
      let* sd := closure fuel trans_dict in
      test_word_loop fuel rest sd
  end.

(** [Automaton.test_word] *)
Definition test_word (fuel : nat) (self : t) (word : string) : M bool :=
  let* sd := closure fuel [(initial self, {[0]})] in
  let* sd := test_word_loop fuel (Py.chars word) sd in
  ret (dict_mem sd (final self)).

(** [min(s)] for a set of integers *)
Definition set_min (s : gset Z) : res Z :=
  match elements s with
  | [] => Raise (ValueError "min() arg is an empty sequence")
  | x :: l => Ok (foldr Z.min x l)
  end.

(** The [for i, letter in enumerate(text)] loop of [__matching]. *)
Fixpoint matching_loop (fuel : nat) (self : t) (text : string)
    (todo : list (Z * ascii)) (sd : state_dict) (occurrences : list (Z * Z))
    : M (list (Z * Z)) :=
  match todo with
  | [] => ret occurrences
  | (i, letter) :: rest =>
      let* trans_dict := trans sd (Py.chr letter) in
      let trans_dict :=
        match dict_get trans_dict (initial self) with
        | Some old => dict_set trans_dict (initial self) (old ∪ {[i]})
        | None => dict_set trans_dict (initial self) {[i]}
        end in
      let* sd := closure fuel trans_dict in
      match dict_get sd (final self) with
      | Some at_final =>
          let* start_idx := lift (set_min at_final) in
          let word_to_test := Py.slice text (start_idx + 1) (i + 1) in
          if negb (String.eqb word_to_test "") then
            let* matched := test_word fuel self word_to_test in
            if matched then
              matching_loop fuel self text rest sd
                (dict_set occurrences (start_idx + 1) (i + 1))
            else matching_loop fuel self text rest sd occurrences
          else matching_loop fuel self text rest sd occurrences
      | None => matching_loop fuel self text rest sd occurrences
      end
  end.

(** [Automaton.__matching]: the [dict] from start to end indices. *)
Definition matching_dict (fuel : nat) (self : t) (text : string) : M (list (Z * Z)) :=
  let* sd := closure fuel [(initial self, {[-1]})] in
  matching_loop fuel self text (Py.enumerate text) sd [].

(** [Automaton.matching]: the list of [(start, occurrences[start])] in the
    order of [occurrences.keys()].  The highlighted text it prints when
    [verbose] is set is not part of the result. *)
Definition matching (fuel : nat) (self : t) (text : string) : M (list (Z * Z)) :=
  let* occurrences := matching_dict fuel self text in
  ret (map (fun start =>
              (start, match dict_get occurrences start with
                      | Some e => e
                      | None => 0
                      end))
           (dict_keys occurrences)).

(** What both [for] loops over targets do to one target: a new key gets
    the incoming set, a present key the union with it. *)
Definition merge (sd : state_dict) (s : ref) (indexes_set : gset Z) : state_dict :=
  match dict_get sd s with
  | Some old => dict_set sd s (old ∪ indexes_set)
  | None => dict_set sd s indexes_set
  end.

End Automaton.

(** ** The interface of the specification, run on concrete inputs *)

(** The targets of the epsilon edges leaving a state. *)
Definition eps_targets (h : store) (s : ref) : list ref :=
  match dict_get (State.trans (state_at h s)) State.EPSILON with
  | Some l => l
  | None => []
  end.

(** Fuel for the concrete runs below. *)
Definition gas : nat := 200%nat.

(** [validate] *)
Definition validate (pattern : string) : bool * string :=
  RegexIterator.regex_correct pattern.

(** [canonicalize] *)
Definition canonicalize (pattern : string) : res string :=
  res_map fst (RegexIterator.convert_to_standard_re_helper gas pattern).

(** [build_from_pattern] in an empty store. *)
Definition compile (pattern : string) : res (Automaton.t * store) :=
  Automaton.build_from_regex gas pattern true [].

(** [full_match(compile(pattern), word)] *)
Definition full_match (pattern word : string) : res bool :=
  res_bind (compile pattern) (fun '(a, h) =>
  res_map fst (Automaton.test_word gas a word h)).

(** [find_occurrences(compile(pattern), text)] *)
Definition find_occurrences (pattern text : string) : res (list (Z * Z)) :=
  res_bind (compile pattern) (fun '(a, h) =>
  res_map fst (Automaton.matching gas a text h)).

(** The fragment of ["ab*a"] and its store, as [compile] builds them. *)
Definition abstara : Automaton.t := Automaton.mk 0%nat 7%nat false.

Definition abstara_store : store :=
  [State.mk [("a", [1%nat])] None;
   State.mk [("", [4%nat])] None;
   State.mk [("b", [3%nat])] None;
   State.mk [("", [4%nat; 5%nat])] None;
   State.mk [("", [2%nat; 5%nat])] None;
   State.mk [("", [6%nat])] None;
   State.mk [("a", [7%nat])] None;
   State.empty].

(** An error message carries position [p] when it ends in [" at pos p"]. *)
Definition carries_position (msg : string) (p : Z) : Prop :=
  exists what, msg = RegexIterator.pos_msg what p.

(** ** The epsilon subgraph *)

Definition eps_edge (h : store) (s t : ref) : Prop := t ∈ eps_targets h s.

(** [t] is reachable from [s] through epsilon edges only. *)
Definition eps_reach (h : store) : relation ref := rtc (eps_edge h).

(** No state reaches itself through one or more epsilon edges. *)
Definition eps_acyclic (h : store) : Prop := forall s, ~ tc (eps_edge h) s s.

(** The number of epsilon paths of at most [n] edges that leave [s]. *)
Fixpoint paths (h : store) (n : nat) (s : ref) : nat :=
  match n with
  | O => 1%nat
  | S n' => S (sum_list_with (paths h n') (eps_targets h s))
  end.

(** From [n] on, more edges give no more paths from [s]. *)
Definition paths_stable (h : store) (n : nat) (s : ref) : Prop :=
  forall m, (n <= m)%nat -> paths h m s = paths h n s.

(** With enough fuel, [m] returns [a] and the store as it was. *)
Definition returns {A} (m : nat -> M A) (h : store) (a : A) : Prop :=
  exists fuel, forall fuel', (fuel <= fuel')%nat -> m fuel' h = Ok (a, h).

(** Every set of indexes in the frontier has an element. *)
Definition nonempty_sets (sd : Automaton.state_dict) : Prop :=
  forall s ms, dict_get sd s = Some ms -> ms ≠ ∅.

(** ** The assignments made by the scan

    [recordings_loop] is [Automaton.matching_loop] with the [dict]
    [occurrences] replaced by the list of the assignments
    [occurrences[start_idx + 1] = i + 1], in the order the scan makes them. *)

Fixpoint recordings_loop (fuel : nat) (self : Automaton.t) (text : string)
    (todo : list (Z * ascii)) (sd : Automaton.state_dict) (made : list (Z * Z))
    : M (list (Z * Z)) :=
  match todo with
  | [] => ret made
  | (i, letter) :: rest =>
      let* trans_dict := Automaton.trans sd (Py.chr letter) in
      let trans_dict :=
        match dict_get trans_dict (Automaton.initial self) with
        | Some old => dict_set trans_dict (Automaton.initial self) (old ∪ {[i]})
        | None => dict_set trans_dict (Automaton.initial self) {[i]}
        end in
      let* sd := Automaton.closure fuel trans_dict in
      match dict_get sd (Automaton.final self) with
      | Some at_final =>
          let* start_idx := lift (Automaton.set_min at_final) in
          let word_to_test := Py.slice text (start_idx + 1) (i + 1) in
          if negb (String.eqb word_to_test "") then
            let* matched := Automaton.test_word fuel self word_to_test in
            if matched then
              recordings_loop fuel self text rest sd (made ++ [(start_idx + 1, i + 1)])
            else recordings_loop fuel self text rest sd made
          else recordings_loop fuel self text rest sd made
      | None => recordings_loop fuel self text rest sd made
      end
  end.

Definition recordings (fuel : nat) (self : Automaton.t) (text : string)
    : M (list (Z * Z)) :=
  let* sd := Automaton.closure fuel [(Automaton.initial self, {[-1]})] in
  recordings_loop fuel self text (Py.enumerate text) sd [].

(** [occurrences] after the assignments [made], starting from [d]. *)
Definition record_all (d : list (Z * Z)) (made : list (Z * Z)) : list (Z * Z) :=
  fold_left (fun d '(start, e) => dict_set d start e) made d.

(** The start indices in the order of their first assignment. *)
Fixpoint first_seen (starts : list Z) : list Z :=
  match starts with
  | [] => []
  | x :: rest => x :: filter (fun y => y ≠ x) (first_seen rest)
  end.

(** ** What the closure computes *)

(** [result] holds exactly the states epsilon-reachable from a key of
    [frontier], each with the union of the sets of the keys that reach it. *)
Definition closure_of (h : store) (frontier result : Automaton.state_dict) : Prop :=
  forall t,
    (is_Some (dict_get result t) <->
     exists f, is_Some (dict_get frontier f) /\ eps_reach h f t) /\
    (forall m,
       (exists ms, dict_get result t = Some ms /\ m ∈ ms) <->
       (exists f fs, dict_get frontier f = Some fs /\ m ∈ fs /\ eps_reach h f t)).

(** The loop invariant of [__closure]: the queued states are keys; keys and
    indexes come from the frontier along epsilon paths; the frontier keeps
    its indexes; a key that is not queued has passed its set on. *)
Record closure_inv (h : store) (frontier : Automaton.state_dict)
    (queue : list ref) (sd : Automaton.state_dict) : Prop := {
  inv_queue : forall s, s ∈ queue -> is_Some (dict_get sd s);
  inv_keys : forall t, is_Some (dict_get sd t) ->
    exists f, is_Some (dict_get frontier f) /\ eps_reach h f t;
  inv_sound : forall t ms m, dict_get sd t = Some ms -> m ∈ ms ->
    exists f fs, dict_get frontier f = Some fs /\ m ∈ fs /\ eps_reach h f t;
  inv_frontier : forall f fs, dict_get frontier f = Some fs ->
    exists ms, dict_get sd f = Some ms /\ fs ⊆ ms;
  inv_closed : forall s ms, dict_get sd s = Some ms -> s ∉ queue ->
    forall t, eps_edge h s t -> exists mt, dict_get sd t = Some mt /\ ms ⊆ mt
}.

(** A checked ranking of the states: every epsilon edge goes down. *)
Definition eps_ranked (h : store) (rank : list nat) : bool :=
  forallb
    (fun s =>
       forallb (fun t => (rank !!! t <? rank !!! s)%nat) (eps_targets h s))
    (seq 0 (length h)).

(** Every index carried by the frontier is at least [lo]. *)
Definition indexes_from (lo : Z) (sd : Automaton.state_dict) : Prop :=
  forall t ms m, dict_get sd t = Some ms -> m ∈ ms -> lo <= m.

(** A span that lies in the text, is not empty, and whose substring
    [test_word] accepts. *)
Definition verified_span (fuel : nat) (self : Automaton.t) (text : string)
    (h : store) (span : Z * Z) : Prop :=
  0 <= fst span < snd span /\ snd span <= Py.len text /\
  Automaton.test_word fuel self (Py.slice text (fst span) (snd span)) h = Ok (true, h).

(** A character that [__convert_to_standard_re_helper] copies as it is. *)
Definition plain (c : ascii) : Prop :=
  c ≠ "["%char /\ c ≠ "("%char /\ c ≠ ValidCharacters.ONE_CLOSURE /\
  c ≠ ValidCharacters.ONE_OR_NONE.



(** [t] is a target of a transition of [s], whatever its label: the edges
    that [__bfs_generator] follows. *)
Definition trans_edge (h : store) (s t : ref) : Prop :=
  exists label l, dict_get (State.trans (state_at h s)) label = Some l /\ t ∈ l.

(** The [for nbh in neighbours] loop of [__has_epsilon_cycle] at [node],
    with [call] for the recursive call. *)
Section EachNeighbour.
Variable call : ref -> gset ref -> gset ref -> M (bool * gset ref * gset ref).
Variable node : ref.

Fixpoint each_neighbour (nbhs : list ref) (visited processed : gset ref)
    : M (bool * gset ref * gset ref) :=
  match nbhs with
  | [] => ret (false, visited, {[node]} ∪ processed)
  | nbh :: rest =>
      if decide (nbh ∈ processed) then each_neighbour rest visited processed
      else if decide (nbh ∈ visited) then ret (true, visited, processed)
      else
        let* (found, visited, processed) := call nbh visited processed in
        if found then ret (true, visited, processed)
        else each_neighbour rest ({[nbh]} ∪ visited) processed
  end.

End EachNeighbour.

(** The states that a traversal from [init] can meet: [init] and every
    target of a transition of the store. *)
Definition universe (h : store) (init : ref) : gset ref :=
  {[init]} ∪ list_to_set (concat (map Automaton.targets h)).

(** The end of the last assignment that the scan made to [start]: the first
    match when the assignments are read from the end. *)
Definition last_end (made : list (Z * Z)) (start : Z) : option Z :=
  dict_get (rev made) start.


(** * Properties *)

(** ** Validation *)

Lemma str_contains_prefix (a b : string) :
  String.prefix a (a +:+ b) = true.
Proof.
  induction a as [|c a IH]; simpl.
  - now destruct b.
  - destruct (Ascii.ascii_dec c c); [exact IH | congruence].
Qed.

Lemma str_contains_at (a r b : string) :
  String.prefix b r = true -> Py.str_contains (a +:+ r) b = true.
Proof.
  intros Hp. induction a as [|x a IH]; simpl.
  - destruct r; simpl in *; rewrite Hp; reflexivity.
  - rewrite IH. apply orb_true_r.
Qed.

Lemma str_contains_infix (a b c : string) :
  Py.str_contains (a +:+ b +:+ c) b = true.
Proof. apply str_contains_at, str_contains_prefix. Qed.

Lemma carries_position_contains (msg : string) (p : Z) :
  carries_position msg p -> Py.str_contains msg " at pos " = true.
Proof.
  intros [what ->]. unfold RegexIterator.pos_msg. apply str_contains_infix.
Qed.

(** C6, as stated: all four rejections would carry a position.  The
    unbalanced pattern ["(a"] is rejected after the scan, with a message that
    names none. *)
Lemma validate_unbalanced_has_no_position :
  ~ (forall raw, In raw ["(a"; "a**"; "[]"; "\x"] ->
       exists p, fst (validate raw) = false /\ carries_position (snd (validate raw)) p).
Proof.
  intros H. destruct (H "(a") as [p [_ Hp]]; [now left |].
  apply carries_position_contains in Hp. vm_compute in Hp. discriminate.
Qed.

(** C6, amended: the four patterns are rejected, and the constructor raises
    [ValueError]; ["a**"] is reported at position 1, ["[]"] and ["\x"] at
    position 0, and ["(a"] with the message that some parentheses are not
    enclosed. *)
Theorem validate_rejections :
  validate "(a" = (false, "Some parentheses are not enclosed") /\
  validate "a**" = (false, RegexIterator.pos_msg "Repetition meta symbols in a row" 1) /\
  validate "[]" = (false, RegexIterator.pos_msg "Empty parentheses []" 0) /\
  validate "\x" =
    (false, RegexIterator.pos_msg "Character \ not followed by valid class symbol" 0) /\
  Forall (fun raw => exists msg, RegexIterator.init gas raw = Raise (ValueError msg))
    ["(a"; "a**"; "[]"; "\x"].
Proof.
  split; [vm_compute; reflexivity |].
  split; [vm_compute; reflexivity |].
  split; [vm_compute; reflexivity |].
  split; [vm_compute; reflexivity |].
  repeat (constructor; [eexists; vm_compute; reflexivity |]). constructor.
Qed.

(** ** Canonicalization *)

(** C4: the zero-or-one branch takes the single character before [?] as the
    atom, also after a backslash, so the group opens inside the escape. *)
Theorem canonicalize_escaped_optional :
  validate "\d?" = (true, "Some parentheses are not enclosed") /\
  canonicalize "\d?" = Ok "\(d+?)" /\
  canonicalize "\w?" = Ok "\(w+?)" /\
  canonicalize "\a?" = Ok "\(a+?)" /\
  canonicalize "\d+" = Ok "\d\d*".
Proof.
  split; [vm_compute; reflexivity |].
  split; [vm_compute; reflexivity |].
  split; [vm_compute; reflexivity |].
  split; vm_compute; reflexivity.
Qed.

(** ** Concrete runs of the matcher *)

(** C1, as stated: the search would return the single span (1, 5). *)
Lemma find_occurrences_abstara_not_single_span :
  find_occurrences "ab*a" "xaabay" <> Ok [(1, 5)].
Proof. vm_compute. discriminate. Qed.

(** C1, amended: on ["xaabay"] the fragment of ["ab*a"] yields the spans
    (1, 3) and (2, 5), one per end position at which the final state is
    reached: ["aa"] ending at 3 and ["aba"] ending at 5. *)
Theorem find_occurrences_abstara :
  find_occurrences "ab*a" "xaabay" = Ok [(1, 3); (2, 5)] /\
  full_match "ab*a" (Py.slice "xaabay" 1 3) = Ok true /\
  full_match "ab*a" (Py.slice "xaabay" 2 5) = Ok true.
Proof.
  split; [vm_compute; reflexivity |].
  split; vm_compute; reflexivity.
Qed.

(** C2: the word-class test of [__trans] looks the symbol up in the string
    ["\d"] instead of the set of digits, so the fragment of ["\w"] accepts
    every letter and rejects every digit. *)
Theorem word_class_rejects_digits :
  Forall (fun c => full_match "\w" (Py.chr c) = Ok false) (Py.chars "0123456789") /\
  Forall (fun c => full_match "\w" (Py.chr c) = Ok true)
    (Py.chars "abcdefghijklmnopqrstuvwxyzABCDEFGHIJKLMNOPQRSTUVWXYZ") /\
  res_map fst (Automaton.trans_label 0%nat "5" [State.mk [("\w", [1%nat])] None; State.empty])
    = Ok ("5", "5").
Proof.
  split; [| split].
  - repeat (constructor; [vm_compute; reflexivity |]). constructor.
  - repeat (constructor; [vm_compute; reflexivity |]). constructor.
  - vm_compute. reflexivity.
Qed.

(** C3: a state with a wildcard transition overwrites [letter], which the
    loop shares between the states of the frontier, and keeps the symbol as
    its own label.  The fragment of ["."] rejects ["x"]; the fragments of
    ["[a.]"] and ["[.a]"] differ on ["a"], by the order in which the two
    branches are visited. *)
Theorem wildcard_label_leaks :
  full_match "." "x" = Ok false /\
  full_match "." "." = Ok true /\
  full_match "[a.]" "a" = Ok true /\
  full_match "[.a]" "a" = Ok false /\
  (let h := [State.mk [(".", [2%nat])] None; State.mk [("a", [2%nat])] None; State.empty] in
   res_map fst (Automaton.trans [(0%nat, {[0]}); (1%nat, {[0]})] "a" h) = Ok [] /\
   res_map fst (Automaton.trans [(1%nat, {[0]}); (0%nat, {[0]})] "a" h) = Ok [(2%nat, {[0]})]).
Proof.
  split; [vm_compute; reflexivity |].
  split; [vm_compute; reflexivity |].
  split; [vm_compute; reflexivity |].
  split; [vm_compute; reflexivity |].
  split; vm_compute; reflexivity.
Qed.

(** ** The store and insertion-ordered dictionaries *)

Section DictFacts.
Context {K V : Type} `{EqDecision K}.
Implicit Types (d : list (K * V)) (k : K) (v : V).

Lemma dict_get_set_eq d k v : dict_get (dict_set d k v) k = Some v.
Proof.
  induction d as [|[k' v'] d IH]; simpl.
  - now rewrite decide_True.
  - destruct (decide (k' = k)) as [->|Hne]; simpl.
    + now rewrite decide_True.
    + now rewrite decide_False.
Qed.

Lemma dict_get_set_ne d k k' v : k ≠ k' -> dict_get (dict_set d k v) k' = dict_get d k'.
Proof.
  intros Hne. induction d as [|[k0 v0] d IH]; simpl.
  - now rewrite decide_False.
  - destruct (decide (k0 = k)) as [->|Hne0]; simpl.
    + now rewrite !decide_False.
    + destruct (decide (k0 = k')); [reflexivity | exact IH].
Qed.

Lemma dict_set_set d k v v' : dict_set (dict_set d k v) k v' = dict_set d k v'.
Proof.
  induction d as [|[k0 v0] d IH]; simpl.
  - now rewrite decide_True.
  - destruct (decide (k0 = k)) as [->|Hne]; simpl.
    + now rewrite decide_True.
    + rewrite decide_False by assumption. now rewrite IH.
Qed.

Lemma dict_mem_get d k : dict_mem d k = true <-> is_Some (dict_get d k).
Proof.
  unfold dict_mem. destruct (dict_get d k); split; intros H0; eauto.
  - discriminate.
  - destruct H0; discriminate.
Qed.

Lemma dict_get_keys d k : is_Some (dict_get d k) <-> In k (dict_keys d).
Proof.
  induction d as [|[k0 v0] d IH]; simpl.
  - split; [intros [? ?]; discriminate | tauto].
  - destruct (decide (k0 = k)) as [->|Hne].
    + split; eauto.
    + rewrite IH. split; [tauto | intros [?|?]; [congruence | assumption]].
Qed.

(** Keys after [d[k] = v]: unchanged when [k] is present, [k] appended
    otherwise. *)
Lemma dict_keys_set d k v :
  dict_keys (dict_set d k v) =
  if dict_mem d k then dict_keys d else dict_keys d ++ [k].
Proof.
  unfold dict_mem. induction d as [|[k0 v0] d IH]; simpl; [reflexivity |].
  destruct (decide (k0 = k)) as [->|Hne]; simpl; [reflexivity |].
  rewrite IH. now destruct (dict_get d k).
Qed.

End DictFacts.

Section StoreFacts.
Implicit Types (h : list State.t) (s : ref) (st : State.t).

Lemma state_at_insert_eq h s st :
  (s < length h)%nat -> state_at (<[s := st]> h) s = st.
Proof. intros Hlt. unfold state_at. now rewrite list_lookup_insert_eq. Qed.

Lemma state_at_insert_ne h s s' st :
  s ≠ s' -> state_at (<[s := st]> h) s' = state_at h s'.
Proof. intros Hne. unfold state_at. now rewrite list_lookup_insert_ne. Qed.

Lemma state_at_app_l h h2 s :
  (s < length h)%nat -> state_at (h ++ h2) s = state_at h s.
Proof. intros Hlt. unfold state_at. now rewrite lookup_app_l. Qed.

Lemma state_at_app_new h st : state_at (h ++ [st]) (length h) = st.
Proof. unfold state_at. now rewrite list_lookup_middle. Qed.

Lemma state_at_dangling h s : (length h <= s)%nat -> state_at h s = State.empty.
Proof. intros Hge. unfold state_at. now rewrite lookup_ge_None_2. Qed.

End StoreFacts.

(** ** The star combinator *)

(** C5, as stated: the third edge would lead from the old final state to the
    old initial state.  In the star of the literal fragment for ["a"] (states
    0 and 1) the old final state 1 has epsilon edges to the new states 2 and
    3 only. *)
Lemma star_old_final_skips_old_initial :
  ~ (forall a h a' h',
       Automaton.init "a" [] = Ok (a, h) ->
       Automaton.perform_star a false h = Ok (a', h') ->
       In (Automaton.initial a) (eps_targets h' (Automaton.final a))).
Proof.
  intros H.
  specialize (H _ _ _ _ eq_refl eq_refl). vm_compute in H.
  intuition discriminate.
Qed.

(** C5, amended: the star combinator appends two new states to the store,
    the new initial and the new final state of the result, and adds exactly
    four epsilon edges: new-initial to old-initial, new-initial to new-final,
    old-final to new-initial and old-final to new-final.  Every other state
    and every other label is as before. *)
Theorem perform_star_edges (automaton : Automaton.t) (copy : bool) (h : store)
    (a1 : Automaton.t) (h1 : store) :
  Automaton.operand copy automaton h = Ok (a1, h1) ->
  (Automaton.final a1 < length h1)%nat ->
  let new_initial := length h1 in
  let new_final := S (length h1) in
  let old_final := state_at h1 (Automaton.final a1) in
  exists h',
    Automaton.perform_star automaton copy h =
      Ok (Automaton.mk new_initial new_final false, h') /\
    length h' = S (S (length h1)) /\
    state_at h' new_initial =
      State.mk [(State.EPSILON, [Automaton.initial a1; new_final])] None /\
    state_at h' new_final = State.empty /\
    state_at h' (Automaton.final a1) =
      State.mk
        (dict_set (State.trans old_final) State.EPSILON
           (eps_targets h1 (Automaton.final a1) ++ [new_initial; new_final]))
        (State.idx old_final) /\
    (forall s, (s < length h1)%nat -> s ≠ Automaton.final a1 ->
               state_at h' s = state_at h1 s).
Proof.
  intros Hop Hfin new_initial new_final old_final.
  unfold Automaton.perform_star, bind. rewrite Hop.
  unfold StateOps.new, StateOps.setitem, ret. cbn beta iota.
  rewrite !length_app. cbn [length].
  replace (length h1 + 1)%nat with (S (length h1)) by lia.
  set (h2 := (h1 ++ [State.empty]) ++ [State.empty]).
  assert (Hlen2 : length h2 = S (S (length h1))).
  { unfold h2. rewrite !length_app. simpl. lia. }
  assert (Hni : state_at h2 (length h1) = State.mk [] None).
  { unfold h2. rewrite state_at_app_l by (rewrite length_app; simpl; lia).
    apply state_at_app_new. }
  assert (Hnf : state_at h2 (S (length h1)) = State.empty).
  { unfold h2.
    replace (S (length h1)) with (length (h1 ++ [State.empty]))
      by (rewrite length_app; simpl; lia).
    apply state_at_app_new. }
  assert (Hold : forall s, (s < length h1)%nat -> state_at h2 s = state_at h1 s).
  { intros s Hs. unfold h2. rewrite <- app_assoc. now apply state_at_app_l. }
  rewrite Hni. cbn [State.trans State.idx dict_get dict_set app].
  rewrite (state_at_insert_eq h2 (length h1)
             (State.mk [(State.EPSILON, [Automaton.initial a1])] None)) by lia.
  cbn [State.trans State.idx dict_get dict_set app].
  rewrite !decide_True by reflexivity. cbn [app].
  rewrite !list_insert_insert_eq.
  match goal with
  | |- context [<[length h1 := ?st]> h2] => set (h3 := <[length h1 := st]> h2)
  end.
  assert (Hlen3 : length h3 = S (S (length h1))).
  { unfold h3. now rewrite length_insert. }
  assert (Hof : state_at h3 (Automaton.final a1) = old_final).
  { unfold h3. rewrite state_at_insert_ne by lia. now apply Hold. }
  rewrite Hof.
  rewrite (state_at_insert_eq h3 (Automaton.final a1)) by lia.
  cbn [State.trans State.idx].
  rewrite dict_get_set_eq, dict_set_set.
  eexists. split; [reflexivity |].
  split; [now rewrite length_insert |].
  split.
  { rewrite state_at_insert_ne by lia. unfold h3.
    apply state_at_insert_eq. lia. }
  split.
  { rewrite state_at_insert_ne by lia. unfold h3.
    rewrite state_at_insert_ne by lia. exact Hnf. }
  split.
  { rewrite state_at_insert_eq by lia. f_equal.
    unfold eps_targets. fold old_final.
    destruct (dict_get (State.trans old_final) State.EPSILON);
      now rewrite <- app_assoc. }
  intros s Hs Hne.
  rewrite state_at_insert_ne by congruence. unfold h3.
  rewrite state_at_insert_ne by lia. now apply Hold.
Qed.

Lemma perform_star_edges_witness :
  exists h',
    Automaton.perform_star (Automaton.mk 0%nat 1%nat false) true
      [State.mk [("a", [1%nat])] None; State.empty] =
      Ok (Automaton.mk 4%nat 5%nat false, h') /\
    eps_targets h' 4%nat = [2%nat; 5%nat] /\
    eps_targets h' 3%nat = [4%nat; 5%nat].
Proof.
  destruct (perform_star_edges (Automaton.mk 0%nat 1%nat false) true
              [State.mk [("a", [1%nat])] None; State.empty]
              (Automaton.mk 2%nat 3%nat false)
              [State.mk [("a", [1%nat])] None; State.empty;
               State.mk [("a", [3%nat])] None; State.empty])
    as [h' (Hrun & _ & Hi & _ & Hf & _)].
  - vm_compute. reflexivity.
  - simpl. lia.
  - exists h'. split; [exact Hrun |].
    simpl in Hi, Hf. unfold eps_targets. rewrite Hi, Hf. split; reflexivity.
Defined.

(** ** Simulation only reads the store *)

Section Frame.
Import Automaton.

Lemma reads_only_ret {A} (a : A) : reads_only (ret a).
Proof. intros h a' h' [= _ <-]. reflexivity. Qed.

Lemma reads_only_lift {A} (r : res A) : reads_only (lift r).
Proof.
  intros h a h'. unfold lift, res_map, res_bind.
  destruct r; intros [= _ <-] || discriminate. reflexivity.
Qed.

Lemma reads_only_bind {A B} (m : M A) (k : A -> M B) :
  reads_only m -> (forall a, reads_only (k a)) -> reads_only (bind m k).
Proof.
  intros Hm Hk h b h'. unfold bind.
  destruct (m h) as [[a h1]| |] eqn:E; try discriminate.
  intros Hk'. apply Hm in E. subst h1. exact (Hk a h b h' Hk').
Qed.

Lemma reads_only_contains s key : reads_only (StateOps.contains s key).
Proof. intros h a h' [= _ <-]. reflexivity. Qed.

(** The guarded lookup [if key in state: ... state[key] ...]: the key is
    present, so the [defaultdict] inserts nothing. *)
Lemma getitem_present s key h :
  dict_mem (State.trans (state_at h s)) key = true ->
  StateOps.getitem s key h =
    Ok (match dict_get (State.trans (state_at h s)) key with
        | Some l => l
        | None => []
        end, h).
Proof.
  unfold StateOps.getitem, dict_mem.
  destruct (dict_get _ key); [reflexivity | discriminate].
Qed.

Lemma contains_eq s key h :
  StateOps.contains s key h = Ok (dict_mem (State.trans (state_at h s)) key, h).
Proof. reflexivity. Qed.

(** One iteration of the loop of [__closure], with the store passed on as
    it is. *)
Lemma closure_loop_step fuel state queue sd h :
  closure_loop (S fuel) (state :: queue) sd h =
  match dict_get sd state with
  | None => Raise KeyError
  | Some indexes_set =>
      let (sd', queue') :=
        closure_targets indexes_set (eps_targets h state) sd queue in
      closure_loop fuel queue' sd' h
  end.
Proof.
  cbn [closure_loop]. unfold bind at 1. unfold lift, of_option.
  destruct (dict_get sd state) as [ms|]; [| reflexivity].
  cbn [res_map res_bind]. unfold bind at 1. rewrite contains_eq.
  unfold eps_targets.
  destruct (dict_mem _ State.EPSILON) eqn:Emem.
  - unfold bind at 1. rewrite getitem_present by exact Emem.
    destruct (closure_targets _ _ _ _). reflexivity.
  - unfold dict_mem in Emem.
    destruct (dict_get _ State.EPSILON); [discriminate | reflexivity].
Qed.

Lemma reads_only_closure_loop fuel : forall queue sd,
  reads_only (closure_loop fuel queue sd).
Proof.
  induction fuel as [|fuel IH]; intros queue sd h a h'.
  - discriminate.
  - destruct queue as [|state queue].
    + intros [= _ <-]. reflexivity.
    + rewrite closure_loop_step.
      destruct (dict_get sd state); [| discriminate].
      destruct (closure_targets _ _ _ _). apply IH.
Qed.

Lemma reads_only_closure fuel sd : reads_only (closure fuel sd).
Proof. apply reads_only_closure_loop. Qed.

Lemma reads_only_trans_label state letter : reads_only (trans_label state letter).
Proof.
  unfold trans_label.
  repeat (apply reads_only_bind; [apply reads_only_contains | intros ?]).
  apply reads_only_ret.
Qed.

Lemma reads_only_guarded_getitem {A} s key (k : list ref -> M A) :
  (forall l, reads_only (k l)) ->
  forall h a h',
    dict_mem (State.trans (state_at h s)) key = true ->
    bind (StateOps.getitem s key) k h = Ok (a, h') -> h' = h.
Proof.
  intros Hk h a h' Hmem. unfold bind. rewrite getitem_present by exact Hmem.
  apply Hk.
Qed.

Lemma reads_only_trans_loop : forall states sd letter result_dict,
  reads_only (trans_loop states sd letter result_dict).
Proof.
  induction states as [|state rest IH]; intros sd letter result_dict.
  - apply reads_only_ret.
  - cbn [trans_loop].
    apply reads_only_bind; [apply reads_only_lift | intros indexes_set].
    apply reads_only_bind; [apply reads_only_trans_label | intros [alt letter']].
    intros h a h'. unfold bind at 1. rewrite contains_eq.
    destruct (dict_mem _ alt) eqn:Emem.
    + apply reads_only_guarded_getitem; [intros l; apply IH | exact Emem].
    + apply IH.
Qed.

Lemma reads_only_trans sd letter : reads_only (trans sd letter).
Proof. apply reads_only_trans_loop. Qed.

Lemma reads_only_test_word_loop fuel : forall word sd,
  reads_only (test_word_loop fuel word sd).
Proof.
  induction word as [|letter rest IH]; intros sd.
  - apply reads_only_ret.
  - cbn [test_word_loop].
    apply reads_only_bind; [apply reads_only_trans | intros td].
    apply reads_only_bind; [apply reads_only_closure | intros sd'].
    apply IH.
Qed.

Lemma reads_only_test_word fuel self word : reads_only (test_word fuel self word).
Proof.
  unfold test_word.
  apply reads_only_bind; [apply reads_only_closure | intros sd].
  apply reads_only_bind; [apply reads_only_test_word_loop | intros sd'].
  apply reads_only_ret.
Qed.

Lemma reads_only_matching_loop fuel self text : forall todo sd occurrences,
  reads_only (matching_loop fuel self text todo sd occurrences).
Proof.
  induction todo as [|[i letter] rest IH]; intros sd occurrences.
  - apply reads_only_ret.
  - cbn [matching_loop].
    apply reads_only_bind; [apply reads_only_trans | intros td].
    apply reads_only_bind; [apply reads_only_closure | intros sd'].
    destruct (dict_get sd' (final self)); [| apply IH].
    apply reads_only_bind; [apply reads_only_lift | intros start_idx].
    destruct (negb _); [| apply IH].
    apply reads_only_bind; [apply reads_only_test_word | intros matched].
    destruct matched; apply IH.
Qed.

Lemma reads_only_matching fuel self text : reads_only (matching fuel self text).
Proof.
  unfold matching, matching_dict.
  apply reads_only_bind; [| intros occ; apply reads_only_ret].
  apply reads_only_bind; [apply reads_only_closure | intros sd].
  apply reads_only_matching_loop.
Qed.

End Frame.

(** ** The epsilon closure *)

Section ClosureTargets.
Import Automaton.
Implicit Types (sd : state_dict) (ms : gset Z) (ts queue : list ref).

Lemma merge_get_eq sd t ms :
  dict_get (merge sd t ms) t =
  Some (match dict_get sd t with Some old => old ∪ ms | None => ms end).
Proof. unfold merge. destruct (dict_get sd t); apply dict_get_set_eq. Qed.

Lemma merge_get_ne sd t u ms : t ≠ u -> dict_get (merge sd t ms) u = dict_get sd u.
Proof.
  intros Hne. unfold merge. destruct (dict_get sd t); now apply dict_get_set_ne.
Qed.

Lemma closure_targets_cons ms t ts sd queue :
  closure_targets ms (t :: ts) sd queue =
  closure_targets ms ts (merge sd t ms) (queue ++ [t]).
Proof. unfold merge. simpl. now destruct (dict_get sd t). Qed.

Lemma trans_targets_cons ms t ts sd :
  trans_targets ms (t :: ts) sd = trans_targets ms ts (merge sd t ms).
Proof. unfold merge. simpl. now destruct (dict_get sd t). Qed.

Lemma merge_mono sd t ms u m0 :
  dict_get sd u = Some m0 ->
  exists m1, dict_get (merge sd t ms) u = Some m1 /\ m0 ⊆ m1.
Proof.
  intros Hu. destruct (decide (t = u)) as [->|Hne].
  - rewrite merge_get_eq, Hu. eexists; split; [reflexivity | set_solver].
  - rewrite merge_get_ne by assumption. eauto.
Qed.

Lemma merge_covered sd t ms :
  exists mt, dict_get (merge sd t ms) t = Some mt /\ ms ⊆ mt.
Proof.
  rewrite merge_get_eq. eexists; split; [reflexivity |].
  destruct (dict_get sd t); set_solver.
Qed.

Lemma merge_sound sd t ms u m1 x :
  dict_get (merge sd t ms) u = Some m1 -> x ∈ m1 ->
  (exists m0, dict_get sd u = Some m0 /\ x ∈ m0) \/ (u = t /\ x ∈ ms).
Proof.
  destruct (decide (t = u)) as [->|Hne].
  - rewrite merge_get_eq. intros [= <-] Hx.
    destruct (dict_get sd u) as [old|]; [| now right].
    apply elem_of_union in Hx as [Hx|Hx]; [left; eauto | now right].
  - rewrite merge_get_ne by assumption. eauto.
Qed.

Lemma merge_keys sd t ms u :
  is_Some (dict_get (merge sd t ms) u) -> is_Some (dict_get sd u) \/ u = t.
Proof.
  destruct (decide (t = u)) as [->|Hne]; [now right |].
  rewrite merge_get_ne by assumption. now left.
Qed.

Lemma closure_targets_queue ms ts : forall sd queue,
  snd (closure_targets ms ts sd queue) = queue ++ ts.
Proof.
  induction ts as [|t ts IH]; intros sd queue.
  - simpl. now rewrite app_nil_r.
  - rewrite closure_targets_cons, IH, <- app_assoc. reflexivity.
Qed.

Lemma closure_targets_other ms ts u : forall sd queue,
  u ∉ ts -> dict_get (fst (closure_targets ms ts sd queue)) u = dict_get sd u.
Proof.
  induction ts as [|t ts IH]; intros sd queue Hu; [reflexivity |].
  rewrite closure_targets_cons, IH by set_solver.
  apply merge_get_ne. set_solver.
Qed.

Lemma closure_targets_mono ms ts u : forall sd queue m0,
  dict_get sd u = Some m0 ->
  exists m1, dict_get (fst (closure_targets ms ts sd queue)) u = Some m1 /\ m0 ⊆ m1.
Proof.
  induction ts as [|t ts IH]; intros sd queue m0 Hu.
  - simpl. eexists; split; [exact Hu | set_solver].
  - rewrite closure_targets_cons.
    destruct (merge_mono sd t ms u m0 Hu) as (m1 & H1 & Hsub).
    destruct (IH _ (queue ++ [t]) _ H1) as (m2 & H2 & Hsub2).
    exists m2. split; [exact H2 | set_solver].
Qed.

Lemma closure_targets_covered ms ts t : forall sd queue,
  t ∈ ts ->
  exists mt, dict_get (fst (closure_targets ms ts sd queue)) t = Some mt /\ ms ⊆ mt.
Proof.
  induction ts as [|t0 ts IH]; intros sd queue Ht; [set_solver |].
  rewrite closure_targets_cons.
  destruct (decide (t = t0)) as [->|Hne].
  - destruct (merge_covered sd t0 ms) as (m1 & H1 & Hsub).
    destruct (closure_targets_mono ms ts t0 _ (queue ++ [t0]) _ H1) as (m2 & H2 & Hsub2).
    exists m2. split; [exact H2 | set_solver].
  - apply IH. set_solver.
Qed.

Lemma closure_targets_sound ms ts u : forall sd queue m1 x,
  dict_get (fst (closure_targets ms ts sd queue)) u = Some m1 -> x ∈ m1 ->
  (exists m0, dict_get sd u = Some m0 /\ x ∈ m0) \/ (u ∈ ts /\ x ∈ ms).
Proof.
  induction ts as [|t ts IH]; intros sd queue m1 x Hu Hx.
  - left. simpl in Hu. eauto.
  - rewrite closure_targets_cons in Hu.
    destruct (IH _ _ _ _ Hu Hx) as [(m0 & H0 & Hx0)|[Hin Hms]].
    + destruct (merge_sound _ _ _ _ _ _ H0 Hx0) as [?|[-> ?]]; [now left |].
      right. set_solver.
    + right. set_solver.
Qed.

Lemma closure_targets_keys ms ts u : forall sd queue,
  is_Some (dict_get (fst (closure_targets ms ts sd queue)) u) ->
  is_Some (dict_get sd u) \/ u ∈ ts.
Proof.
  induction ts as [|t ts IH]; intros sd queue Hu; [now left |].
  rewrite closure_targets_cons in Hu.
  destruct (IH _ _ Hu) as [H1|H1]; [| right; set_solver].
  destruct (merge_keys _ _ _ _ H1) as [? | ->]; [now left | right; set_solver].
Qed.

End ClosureTargets.

Section ClosureInvariant.
Import Automaton.
Variable h : store.
Variable frontier : state_dict.

Lemma dict_get_keys_elem (sd : state_dict) (s : ref) :
  is_Some (dict_get sd s) <-> s ∈ dict_keys sd.
Proof. rewrite list_elem_of_In. apply dict_get_keys. Qed.

Lemma closure_inv_start : closure_inv h frontier (dict_keys frontier) frontier.
Proof.
  split.
  - intros s Hs. now apply dict_get_keys_elem.
  - intros t Ht. exists t. split; [exact Ht | apply rtc_refl].
  - intros t ms m Ht Hm. exists t, ms. repeat split; try assumption. apply rtc_refl.
  - intros f fs Hf. exists fs. split; [exact Hf | set_solver].
  - intros s ms Hs Hq. exfalso. apply Hq, dict_get_keys_elem. eauto.
Qed.

(** One state is taken off the queue and its set handed to its targets. *)
Lemma closure_inv_step state queue sd indexes_set :
  closure_inv h frontier (state :: queue) sd ->
  dict_get sd state = Some indexes_set ->
  closure_inv h frontier
    (snd (closure_targets indexes_set (eps_targets h state) sd queue))
    (fst (closure_targets indexes_set (eps_targets h state) sd queue)).
Proof.
  intros [Iq Ik Is If Ic] Hstate.
  set (ts := eps_targets h state).
  rewrite closure_targets_queue. fold ts. split.
  - intros s [Hs|Hs]%elem_of_app.
    + destruct (Iq s) as [m0 H0]; [set_solver |].
      destruct (closure_targets_mono indexes_set ts s sd queue m0 H0) as (m1 & H1 & _).
      eauto.
    + destruct (closure_targets_covered indexes_set ts s sd queue Hs) as (m1 & H1 & _).
      eauto.
  - intros t Ht.
    destruct (closure_targets_keys _ _ _ _ _ Ht) as [H0|H0]; [now apply Ik |].
    destruct (Ik state) as (f & Hf & Hreach); [eauto |].
    exists f. split; [exact Hf |]. eapply rtc_r; [exact Hreach | exact H0].
  - intros t ms m Ht Hm.
    destruct (closure_targets_sound _ _ _ _ _ _ _ Ht Hm) as [(m0 & H0 & Hm0)|[Hin Hm0]].
    + eapply Is; eassumption.
    + destruct (Is _ _ _ Hstate Hm0) as (f & fs & Hf & Hmf & Hreach).
      exists f, fs. repeat split; try assumption.
      eapply rtc_r; [exact Hreach | exact Hin].
  - intros f fs Hf.
    destruct (If _ _ Hf) as (m0 & H0 & Hsub).
    destruct (closure_targets_mono indexes_set ts f sd queue m0 H0) as (m1 & H1 & Hsub1).
    exists m1. split; [exact H1 | set_solver].
  - intros s ms Hs Hq t Hedge.
    assert (Hsq : s ∉ queue) by set_solver.
    assert (Hst : s ∉ ts) by set_solver.
    rewrite closure_targets_other in Hs by exact Hst.
    destruct (decide (s = state)) as [->|Hne].
    + rewrite Hstate in Hs. injection Hs as <-.
      now apply closure_targets_covered.
    + destruct (Ic s ms Hs) with (t := t) as (mt & Hmt & Hsub);
        [set_solver | exact Hedge |].
      destruct (closure_targets_mono indexes_set ts t sd queue mt Hmt) as (m1 & H1 & Hsub1).
      exists m1. split; [exact H1 | set_solver].
Qed.

Lemma closure_loop_inv fuel : forall queue sd result h',
  closure_inv h frontier queue sd ->
  closure_loop fuel queue sd h = Ok (result, h') ->
  closure_inv h frontier [] result.
Proof.
  induction fuel as [|fuel IH]; intros queue sd result h' Hinv Hrun; [discriminate |].
  destruct queue as [|state queue].
  - injection Hrun as <- _. exact Hinv.
  - rewrite closure_loop_step in Hrun.
    destruct (dict_get sd state) as [indexes_set|] eqn:Hstate; [| discriminate].
    pose proof (closure_inv_step _ _ _ _ Hinv Hstate) as Hinv'.
    destruct (closure_targets _ _ _ _) as [sd' queue']. eapply IH; eassumption.
Qed.

(** With the queue empty the invariant is the specification. *)
Lemma closure_inv_done result : closure_inv h frontier [] result -> closure_of h frontier result.
Proof.
  intros [_ Ik Is If Ic].
  assert (Hpath : forall s t, eps_reach h s t -> forall ms, dict_get result s = Some ms ->
            exists mt, dict_get result t = Some mt /\ ms ⊆ mt).
  { intros s t Hreach. induction Hreach as [s|s u t Hedge _ IH]; intros ms Hs.
    - exists ms. split; [exact Hs | set_solver].
    - destruct (Ic s ms Hs) with (t := u) as (mu & Hu & Hsub); [set_solver | exact Hedge |].
      destruct (IH _ Hu) as (mt & Ht & Hsub'). exists mt. split; [exact Ht | set_solver]. }
  intros t. split; [split |].
  - apply Ik.
  - intros (f & [fs Hf] & Hreach).
    destruct (If _ _ Hf) as (m0 & H0 & _).
    destruct (Hpath _ _ Hreach _ H0) as (mt & Ht & _). eauto.
  - intros m. split.
    + intros (ms & Ht & Hm). eapply Is; eassumption.
    + intros (f & fs & Hf & Hm & Hreach).
      destruct (If _ _ Hf) as (m0 & H0 & Hsub).
      destruct (Hpath _ _ Hreach _ H0) as (mt & Ht & Hsub').
      exists mt. split; [exact Ht | set_solver].
Qed.

Lemma closure_loop_fuel_mono fuel : forall queue sd x fuel',
  closure_loop fuel queue sd h = Ok x -> (fuel <= fuel')%nat ->
  closure_loop fuel' queue sd h = Ok x.
Proof.
  induction fuel as [|fuel IH]; intros queue sd x fuel' Hrun Hle; [discriminate |].
  destruct fuel' as [|fuel']; [lia |].
  destruct queue as [|state queue]; [exact Hrun |].
  rewrite closure_loop_step in *.
  destruct (dict_get sd state); [| discriminate].
  destruct (closure_targets _ _ _ _). apply IH; [exact Hrun | lia].
Qed.

(** Each iteration lowers the number of paths that leave the queue by one. *)
Lemma closure_loop_terminates (W : ref -> nat) :
  (forall s, W s = S (sum_list_with W (eps_targets h s))) ->
  forall fuel queue sd,
    (forall s, s ∈ queue -> is_Some (dict_get sd s)) ->
    (sum_list_with W queue < fuel)%nat ->
    exists result, closure_loop fuel queue sd h = Ok (result, h).
Proof.
  intros HW. induction fuel as [|fuel IH]; intros queue sd Hq Hlt; [lia |].
  destruct queue as [|state queue]; [eexists; reflexivity |].
  rewrite closure_loop_step.
  destruct (Hq state) as [indexes_set Hstate]; [set_solver |].
  rewrite Hstate.
  pose proof (closure_targets_queue indexes_set (eps_targets h state) sd queue) as Hqueue.
  assert (Hkeys : forall s, s ∈ queue ++ eps_targets h state ->
            is_Some (dict_get
              (fst (closure_targets indexes_set (eps_targets h state) sd queue)) s)).
  { intros s [Hs|Hs]%elem_of_app.
    - destruct (Hq s) as [m0 H0]; [set_solver |].
      destruct (closure_targets_mono indexes_set (eps_targets h state) s sd queue m0 H0)
        as (m1 & H1 & _). eauto.
    - destruct (closure_targets_covered indexes_set (eps_targets h state) s sd queue Hs)
        as (m1 & H1 & _). eauto. }
  destruct (closure_targets _ _ _ _) as [sd' queue']. simpl in Hqueue, Hkeys. subst queue'.
  apply IH; [exact Hkeys |].
  rewrite sum_list_with_app. simpl in Hlt. rewrite (HW state) in Hlt. lia.
Qed.

End ClosureInvariant.

Section Acyclic.
Variable h : store.

Lemma eps_targets_dangling s : (length h <= s)%nat -> eps_targets h s = [].
Proof. intros Hs. unfold eps_targets. now rewrite state_at_dangling. Qed.

Lemma eps_edge_source s t : eps_edge h s t -> (s < length h)%nat.
Proof.
  intros Hedge. destruct (decide (s < length h)%nat) as [|Hge]; [assumption |].
  unfold eps_edge in Hedge. rewrite eps_targets_dangling in Hedge by lia. set_solver.
Qed.

(** The targets of all epsilon edges of the store. *)
Lemma eps_successors_finite s : pred_finite (tc (eps_edge h) s).
Proof.
  exists (concat (map (eps_targets h) (seq 0 (length h)))).
  intros t Htc. induction Htc as [s t Hedge|s u t _ _ IH]; [| exact IH].
  apply list_elem_of_In, in_concat. exists (eps_targets h s). split.
  - apply in_map, in_seq. pose proof (eps_edge_source _ _ Hedge). lia.
  - now apply list_elem_of_In.
Qed.

Lemma eps_acyclic_sn s : eps_acyclic h -> sn (eps_edge h) s.
Proof.
  intros Hacyclic. apply tc_finite_sn.
  - intros x. apply Hacyclic.
  - apply eps_successors_finite.
Qed.

Lemma paths_stable_le n n' s : paths_stable h n s -> (n <= n')%nat -> paths_stable h n' s.
Proof.
  intros Hst Hle m Hm. rewrite (Hst m) by lia. symmetry. now apply Hst.
Qed.

Lemma paths_stable_all (l : list ref) :
  (forall t, t ∈ l -> exists n, paths_stable h n t) ->
  exists n, forall t, t ∈ l -> paths_stable h n t.
Proof.
  induction l as [|x l IH]; intros Hl.
  - exists O. intros t Ht. set_solver.
  - destruct (Hl x) as [nx Hx]; [set_solver |].
    destruct IH as [nl Hnl]; [intros t Ht; apply Hl; set_solver |].
    exists (Nat.max nx nl). intros t [->|Ht]%elem_of_cons.
    + eapply paths_stable_le; [exact Hx | lia].
    + eapply paths_stable_le; [now apply Hnl | lia].
Qed.

Lemma sum_list_with_ext (f g : ref -> nat) (l : list ref) :
  (forall t, t ∈ l -> f t = g t) -> sum_list_with f l = sum_list_with g l.
Proof.
  induction l as [|x l IH]; intros Hfg; [reflexivity |].
  simpl. rewrite Hfg by set_solver. rewrite IH; [reflexivity |].
  intros t Ht. apply Hfg. set_solver.
Qed.

Lemma paths_stable_sn s : sn (eps_edge h) s -> exists n, paths_stable h n s.
Proof.
  induction 1 as [s _ IH].
  destruct (paths_stable_all (eps_targets h s)) as [n Hn].
  { intros t Ht. now apply IH. }
  exists (S n). intros m Hm. destruct m as [|m]; [lia |].
  simpl. f_equal. apply sum_list_with_ext. intros t Ht.
  apply Hn; [exact Ht | lia].
Qed.

Lemma paths_stable_store : eps_acyclic h -> exists n, forall s, paths_stable h n s.
Proof.
  intros Hacyclic.
  destruct (paths_stable_all (seq 0 (length h))) as [n Hn].
  { intros t _. apply paths_stable_sn, eps_acyclic_sn, Hacyclic. }
  exists (S n). intros s.
  destruct (decide (s < length h)%nat) as [Hlt|Hge].
  - eapply paths_stable_le; [apply Hn | lia].
    apply elem_of_seq. lia.
  - intros m Hm. destruct m as [|m]; [lia |].
    simpl. rewrite eps_targets_dangling by lia. reflexivity.
Qed.

(** In an acyclic store every state has a finite number of epsilon paths:
    one more than its targets have together. *)
Lemma eps_acyclic_weights :
  eps_acyclic h ->
  exists W : ref -> nat, forall s, W s = S (sum_list_with W (eps_targets h s)).
Proof.
  intros Hacyclic. destruct (paths_stable_store Hacyclic) as [n Hn].
  exists (paths h n). intros s.
  rewrite <- (Hn s (S n)) by lia. reflexivity.
Qed.

Lemma eps_ranked_acyclic (rank : list nat) : eps_ranked h rank = true -> eps_acyclic h.
Proof.
  intros Hrank.
  assert (Hedge : forall s t, eps_edge h s t -> (rank !!! t < rank !!! s)%nat).
  { intros s t Hst. unfold eps_ranked in Hrank.
    rewrite forallb_forall in Hrank.
    specialize (Hrank s). rewrite forallb_forall in Hrank.
    apply Nat.ltb_lt, Hrank.
    - apply in_seq. pose proof (eps_edge_source _ _ Hst). lia.
    - now apply list_elem_of_In. }
  assert (Htc : forall s t, tc (eps_edge h) s t -> (rank !!! t < rank !!! s)%nat).
  { intros s t Hst. induction Hst as [s t H1|s u t H1 _ IH].
    - now apply Hedge.
    - apply Hedge in H1. lia. }
  intros s Hs. apply Htc in Hs. lia.
Qed.

End Acyclic.

Lemma closure_returns (h : store) (frontier : Automaton.state_dict) :
  eps_acyclic h ->
  exists result,
    returns (fun fuel => Automaton.closure fuel frontier) h result /\
    closure_of h frontier result.
Proof.
  intros Hacyclic.
  destruct (eps_acyclic_weights h Hacyclic) as [W HW].
  pose proof (closure_inv_start h frontier) as Hinv.
  destruct (closure_loop_terminates h W HW
              (S (sum_list_with W (dict_keys frontier))) (dict_keys frontier) frontier)
    as [result Hrun].
  { apply Hinv. }
  { lia. }
  exists result. split.
  - exists (S (sum_list_with W (dict_keys frontier))).
    intros fuel' Hle. eapply closure_loop_fuel_mono; [exact Hrun | exact Hle].
  - apply closure_inv_done. eapply closure_loop_inv; [exact Hinv | exact Hrun].
Qed.

(** C7: on a store whose epsilon edges form no cycle, [__closure] returns for
    every frontier, with enough fuel; the store is unchanged, and the result
    holds exactly the states that are epsilon-reachable from a key of the
    frontier, each with the union of the sets of the keys that reach it. *)
Theorem closure_acyclic_union (h : store) (frontier : Automaton.state_dict) :
  eps_acyclic h ->
  exists fuel result,
    (forall fuel', (fuel <= fuel')%nat ->
       Automaton.closure fuel' frontier h = Ok (result, h)) /\
    closure_of h frontier result.
Proof.
  intros Hacyclic.
  destruct (closure_returns h frontier Hacyclic) as (result & [fuel Hrun] & Hspec).
  exists fuel, result. split; assumption.
Qed.

Lemma compile_abstara : compile "ab*a" = Ok (abstara, abstara_store).
Proof. vm_compute. reflexivity. Qed.

Lemma abstara_acyclic : eps_acyclic abstara_store.
Proof.
  apply (eps_ranked_acyclic abstara_store [0; 4; 2; 4; 3; 1; 0; 0]%nat).
  vm_compute. reflexivity.
Qed.

(** The store of the fragment of ["ab*a"], with two frontier states. *)
Lemma closure_acyclic_union_witness :
  eps_acyclic abstara_store /\
  exists fuel result,
    (forall fuel', (fuel <= fuel')%nat ->
       Automaton.closure fuel' [(1%nat, {[0]}); (3%nat, {[2]})] abstara_store =
         Ok (result, abstara_store)) /\
    closure_of abstara_store [(1%nat, {[0]}); (3%nat, {[2]})] result.
Proof.
  split; [exact abstara_acyclic |].
  exact (closure_acyclic_union abstara_store [(1%nat, {[0]}); (3%nat, {[2]})]
           abstara_acyclic).
Defined.

(** ** The simulation returns on an acyclic store *)

Section Returns.
Import Automaton.
Variable h : store.

Lemma returns_const {A} (m : M A) (a : A) : m h = Ok (a, h) -> returns (fun _ => m) h a.
Proof. intros Hm. exists O. intros _ _. exact Hm. Qed.

Lemma returns_bind {A B} (m : nat -> M A) (k : nat -> A -> M B) (a : A) (b : B) :
  returns m h a -> returns (fun fuel => k fuel a) h b ->
  returns (fun fuel => bind (m fuel) (k fuel)) h b.
Proof.
  intros [f1 H1] [f2 H2]. exists (Nat.max f1 f2). intros fuel' Hle.
  unfold bind. rewrite H1 by lia. apply H2. lia.
Qed.

Lemma returns_unique {A} (m : nat -> M A) (a a' : A) (fuel : nat) (h' : store) :
  returns m h a -> m fuel h = Ok (a', h') ->
  (forall f f' x, m f h = Ok x -> (f <= f')%nat -> m f' h = Ok x) ->
  a' = a /\ h' = h.
Proof.
  intros [f0 H0] Hrun Hmono.
  pose proof (Hmono fuel (Nat.max fuel f0) _ Hrun ltac:(lia)) as H1.
  rewrite H0 in H1 by lia. injection H1 as -> ->. split; reflexivity.
Qed.

Lemma trans_label_returns state letter :
  exists r, trans_label state letter h = Ok (r, h).
Proof. unfold trans_label, bind, StateOps.contains, ret. eexists. reflexivity. Qed.

Lemma nonempty_merge sd t ms :
  nonempty_sets sd -> ms ≠ ∅ -> nonempty_sets (merge sd t ms).
Proof.
  intros Hsd Hms u mu Hu.
  destruct (decide (t = u)) as [->|Hne].
  - rewrite merge_get_eq in Hu. injection Hu as <-.
    destruct (dict_get sd u); set_solver.
  - rewrite merge_get_ne in Hu by assumption. eapply Hsd; eassumption.
Qed.

Lemma nonempty_trans_targets ms ts : forall rd,
  nonempty_sets rd -> ms ≠ ∅ -> nonempty_sets (trans_targets ms ts rd).
Proof.
  induction ts as [|t ts IH]; intros rd Hrd Hms; [exact Hrd |].
  rewrite trans_targets_cons. apply IH; [| exact Hms]. now apply nonempty_merge.
Qed.

Lemma trans_loop_returns : forall states sd letter rd,
  (forall s, s ∈ states -> is_Some (dict_get sd s)) ->
  nonempty_sets sd -> nonempty_sets rd ->
  exists r, trans_loop states sd letter rd h = Ok (r, h) /\ nonempty_sets r.
Proof.
  induction states as [|state rest IH]; intros sd letter rd Hkeys Hsd Hrd.
  - exists rd. split; [reflexivity | exact Hrd].
  - destruct (Hkeys state) as [ms Hms]; [set_solver |].
    cbn [trans_loop]. unfold bind at 1, lift. rewrite Hms. cbn [of_option res_map res_bind].
    unfold bind at 1.
    destruct (trans_label_returns state letter) as [[alt letter'] ->].
    unfold bind at 1. rewrite contains_eq.
    destruct (dict_mem _ alt) eqn:Emem.
    + unfold bind at 1. rewrite getitem_present by exact Emem.
      apply IH; [intros s Hs; apply Hkeys; set_solver | exact Hsd |].
      apply nonempty_trans_targets; [exact Hrd | eapply Hsd; exact Hms].
    + apply IH; [intros s Hs; apply Hkeys; set_solver | exact Hsd | exact Hrd].
Qed.

Lemma nonempty_nil : nonempty_sets [].
Proof. intros s ms Hs. discriminate. Qed.

Lemma trans_returns sd letter :
  nonempty_sets sd ->
  exists r, trans sd letter h = Ok (r, h) /\ nonempty_sets r.
Proof.
  intros Hsd. apply trans_loop_returns; [| exact Hsd | exact nonempty_nil].
  intros s Hs. now apply dict_get_keys_elem.
Qed.

Lemma nonempty_closure_of frontier result :
  closure_of h frontier result -> nonempty_sets frontier -> nonempty_sets result.
Proof.
  intros Hspec Hfr t ms Ht Hempty.
  destruct (Hspec t) as [Hkeys Hsets].
  destruct (proj1 Hkeys) as (f & [fs Hf] & Hreach); [eauto |].
  pose proof (Hfr f fs Hf) as Hne.
  apply set_choose_L in Hne as [m Hm].
  destruct (proj2 (Hsets m)) as (ms' & Ht' & Hm'); [eauto 6 |].
  rewrite Ht in Ht'. injection Ht' as <-. set_solver.
Qed.

Lemma nonempty_singleton (s : ref) (i : Z) : nonempty_sets [(s, {[i]})].
Proof.
  intros u mu Hu. simpl in Hu. destruct (decide (s = u)); [| discriminate].
  injection Hu as <-. set_solver.
Qed.

Lemma nonempty_reseed sd s (i : Z) :
  nonempty_sets sd ->
  nonempty_sets
    match dict_get sd s with
    | Some old => dict_set sd s (old ∪ {[i]})
    | None => dict_set sd s {[i]}
    end.
Proof.
  intros Hsd. change (nonempty_sets (merge sd s {[i]})).
  apply nonempty_merge; [exact Hsd | set_solver].
Qed.

Lemma set_min_returns (ms : gset Z) : ms ≠ ∅ -> exists z, set_min ms = Ok z.
Proof.
  intros Hne. unfold set_min.
  destruct (elements ms) as [|x l] eqn:E; [| eauto].
  apply elements_empty_inv in E. apply leibniz_equiv in E. contradiction.
Qed.

Hypothesis Hacyclic : eps_acyclic h.

Lemma closure_returns_nonempty frontier :
  nonempty_sets frontier ->
  exists result,
    returns (fun fuel => closure fuel frontier) h result /\ nonempty_sets result.
Proof.
  intros Hfr. destruct (closure_returns h frontier Hacyclic) as (result & Hret & Hspec).
  exists result. split; [exact Hret |]. eapply nonempty_closure_of; eassumption.
Qed.

Lemma test_word_loop_returns : forall word sd,
  nonempty_sets sd ->
  exists r, returns (fun fuel => test_word_loop fuel word sd) h r.
Proof.
  induction word as [|letter rest IH]; intros sd Hsd.
  - exists sd. now apply returns_const.
  - destruct (trans_returns sd (Py.chr letter) Hsd) as (td & Htd & Hne).
    destruct (closure_returns_nonempty td Hne) as (sd' & Hsd' & Hne').
    destruct (IH sd' Hne') as [r Hr]. exists r.
    cbn [test_word_loop].
    apply (returns_bind (fun _ => trans sd (Py.chr letter))
             (fun fuel td => bind (closure fuel td) (fun sd => test_word_loop fuel rest sd))
             td r).
    + now apply returns_const.
    + apply (returns_bind (fun fuel => closure fuel td)
               (fun fuel sd => test_word_loop fuel rest sd) sd' r); assumption.
Qed.

Lemma test_word_returns self word :
  exists b, returns (fun fuel => test_word fuel self word) h b.
Proof.
  destruct (closure_returns_nonempty [(initial self, {[0]})]) as (sd & Hsd & Hne).
  { apply nonempty_singleton. }
  destruct (test_word_loop_returns (Py.chars word) sd Hne) as [sd' Hsd'].
  exists (dict_mem sd' (final self)). unfold test_word.
  apply (returns_bind (fun fuel => closure fuel [(initial self, {[0]})])
           (fun fuel sd =>
              bind (test_word_loop fuel (Py.chars word) sd)
                   (fun sd => ret (dict_mem sd (final self))))
           sd _ Hsd).
  apply (returns_bind (fun fuel => test_word_loop fuel (Py.chars word) sd)
           (fun _ sd => ret (dict_mem sd (final self))) sd' _ Hsd').
  now apply returns_const.
Qed.

End Returns.

(** ** The scan and the assignments it makes *)

Section Scan.
Import Automaton.
Variables (self : t) (text : string).

Lemma record_all_snoc d made start e :
  record_all d (made ++ [(start, e)]) = dict_set (record_all d made) start e.
Proof. unfold record_all. now rewrite fold_left_app. Qed.

Lemma res_map_bind {A B C} (f : B * store -> C) (m : M A) (k : A -> M B) h :
  res_map f (bind m k h) =
  match m h with
  | Ok (a, h') => res_map f (k a h')
  | Raise e => Raise e
  | OutOfFuel => OutOfFuel
  end.
Proof. unfold bind. now destruct (m h) as [[a h']| |]. Qed.

(** [matching_loop] is [recordings_loop] with the assignments applied. *)
Lemma matching_loop_recordings fuel d0 : forall todo sd made h,
  matching_loop fuel self text todo sd (record_all d0 made) h =
  res_map (fun '(rec, h') => (record_all d0 rec, h'))
    (recordings_loop fuel self text todo sd made h).
Proof.
  induction todo as [|[i letter] rest IH]; intros sd made h; [reflexivity |].
  cbn [matching_loop recordings_loop]. rewrite res_map_bind. unfold bind at 1.
  destruct (trans sd (Py.chr letter) h) as [[td h1]| |]; try reflexivity.
  rewrite res_map_bind. unfold bind at 1.
  destruct (closure fuel _ h1) as [[sd' h2]| |]; try reflexivity.
  destruct (dict_get sd' (final self)) as [at_final|]; [| apply IH].
  rewrite res_map_bind. unfold bind at 1.
  destruct (lift (set_min at_final) h2) as [[start_idx h3]| |]; try reflexivity.
  destruct (negb _); [| apply IH].
  rewrite res_map_bind. unfold bind at 1.
  destruct (test_word fuel self _ h3) as [[matched h4]| |]; try reflexivity.
  destruct matched; [| apply IH].
  rewrite <- record_all_snoc. apply IH.
Qed.

Lemma matching_dict_recordings fuel h :
  matching_dict fuel self text h =
  res_map (fun '(rec, h') => (record_all [] rec, h')) (recordings fuel self text h).
Proof.
  unfold matching_dict, recordings. rewrite res_map_bind. unfold bind at 1.
  destruct (closure fuel _ h) as [[sd h1]| |]; try reflexivity.
  apply (matching_loop_recordings fuel [] _ sd [] h1).
Qed.

(** Each assignment made at position [i] has end [i + 1]. *)
Lemma recordings_loop_trace fuel : forall todo sd made rec h h',
  recordings_loop fuel self text todo sd made h = Ok (rec, h') ->
  exists new,
    rec = made ++ new /\
    map snd new `sublist_of` map (fun p : Z * ascii => fst p + 1) todo.
Proof.
  induction todo as [|[i letter] rest IH]; intros sd made rec h h'.
  - intros [= <- _]. exists []. split; [now rewrite app_nil_r | constructor].
  - cbn [recordings_loop]. unfold bind at 1.
    destruct (trans sd (Py.chr letter) h) as [[td h1]| |]; try discriminate.
    unfold bind at 1.
    destruct (closure fuel _ h1) as [[sd' h2]| |]; try discriminate.
    assert (Hskip : forall h3,
      recordings_loop fuel self text rest sd' made h3 = Ok (rec, h') ->
      exists new,
        rec = made ++ new /\
        map snd new `sublist_of`
          map (fun p : Z * ascii => fst p + 1) ((i, letter) :: rest)).
    { intros h3 Hrun. destruct (IH _ _ _ _ _ Hrun) as (new & -> & Hsub).
      exists new. split; [reflexivity |]. now constructor. }
    destruct (dict_get sd' (final self)) as [at_final|]; [| apply Hskip].
    unfold bind at 1. unfold lift.
    destruct (set_min at_final) as [start_idx| |]; try discriminate.
    cbn [res_map res_bind].
    destruct (negb _); [| apply Hskip].
    unfold bind at 1.
    destruct (test_word fuel self _ h2) as [[matched h3]| |]; try discriminate.
    destruct matched; [| apply Hskip].
    intros Hrun. destruct (IH _ _ _ _ _ Hrun) as (new & -> & Hsub).
    exists ((start_idx + 1, i + 1) :: new). split.
    + now rewrite <- app_assoc.
    + simpl. now constructor.
Qed.

Lemma enumerate_ends_sorted : forall (s : string) (k : Z),
  StronglySorted Z.lt (map (fun p : Z * ascii => fst p + 1) (Py.enumerate_from k s)) /\
  Forall (fun e => k < e) (map (fun p : Z * ascii => fst p + 1) (Py.enumerate_from k s)).
Proof.
  induction s as [|c s IH]; intros k; simpl.
  - split; constructor.
  - destruct (IH (k + 1)) as [Hsorted Hall]. split.
    + constructor; [exact Hsorted |].
      eapply Forall_impl; [exact Hall |]. simpl. intros; lia.
    + constructor; [simpl; lia |].
      eapply Forall_impl; [exact Hall |]. simpl. intros; lia.
Qed.

Lemma sublist_sorted (l1 l2 : list Z) :
  l1 `sublist_of` l2 -> StronglySorted Z.lt l2 -> StronglySorted Z.lt l1.
Proof.
  induction 1 as [|x l1 l2 Hsub IH|x l1 l2 Hsub IH]; intros Hsorted.
  - constructor.
  - apply StronglySorted_inv in Hsorted as [Hs Hall]. constructor; [now apply IH |].
    rewrite Forall_forall in *. intros y Hy. apply Hall.
    eapply elem_of_sublist; eassumption.
  - apply StronglySorted_inv in Hsorted as [Hs _]. now apply IH.
Qed.

(** The scan makes its assignments with strictly increasing ends. *)
Lemma recordings_sorted fuel h rec h' :
  recordings fuel self text h = Ok (rec, h') ->
  StronglySorted Z.lt (map snd rec).
Proof.
  unfold recordings, bind.
  destruct (closure fuel _ h) as [[sd h1]| |]; try discriminate.
  intros Hrun. apply recordings_loop_trace in Hrun as (new & -> & Hsub).
  simpl. eapply sublist_sorted; [exact Hsub |]. apply enumerate_ends_sorted.
Qed.

Lemma reads_only_recordings_loop fuel : forall todo sd made,
  reads_only (recordings_loop fuel self text todo sd made).
Proof.
  induction todo as [|[i letter] rest IH]; intros sd made.
  - apply reads_only_ret.
  - cbn [recordings_loop].
    apply reads_only_bind; [apply reads_only_trans | intros td].
    apply reads_only_bind; [apply reads_only_closure | intros sd'].
    destruct (dict_get sd' (final self)); [| apply IH].
    apply reads_only_bind; [apply reads_only_lift | intros start_idx].
    destruct (negb _); [| apply IH].
    apply reads_only_bind; [apply reads_only_test_word | intros matched].
    destruct matched; apply IH.
Qed.

Lemma reads_only_recordings fuel : reads_only (recordings fuel self text).
Proof.
  unfold recordings.
  apply reads_only_bind; [apply reads_only_closure | intros sd].
  apply reads_only_recordings_loop.
Qed.

Variable h : store.
Hypothesis Hacyclic : eps_acyclic h.

Lemma recordings_loop_returns : forall todo sd made,
  nonempty_sets sd ->
  exists rec, returns (fun fuel => recordings_loop fuel self text todo sd made) h rec.
Proof.
  induction todo as [|[i letter] rest IH]; intros sd made Hsd.
  - exists made. now apply returns_const.
  - destruct (trans_returns h sd (Py.chr letter) Hsd) as (td & Htd & Hne).
    pose proof (nonempty_reseed td (initial self) i Hne) as Hne'.
    destruct (closure_returns_nonempty h Hacyclic _ Hne') as (sd' & [f1 H1] & Hsd').
    assert (Hskip : forall made',
      exists rec, exists f3, forall fuel', (f3 <= fuel')%nat ->
        recordings_loop fuel' self text rest sd' made' h = Ok (rec, h)).
    { intros made'. destruct (IH sd' made' Hsd') as [rec Hrec]. now exists rec. }
    destruct (dict_get sd' (final self)) as [at_final|] eqn:Hfinal.
    + destruct (set_min_returns at_final) as [start_idx Hmin]; [eapply Hsd'; eassumption |].
      destruct (test_word_returns h Hacyclic self
                  (Py.slice text (start_idx + 1) (i + 1))) as [matched [f2 H2]].
      destruct (Hskip (if negb (String.eqb (Py.slice text (start_idx + 1) (i + 1)) "") && matched
                       then made ++ [(start_idx + 1, i + 1)] else made))
        as (rec & f3 & H3).
      exists rec, (Nat.max f1 (Nat.max f2 f3)). intros fuel' Hle.
      cbn [recordings_loop]. unfold bind at 1. rewrite Htd.
      unfold bind at 1. rewrite H1 by lia. rewrite Hfinal.
      unfold bind at 1. unfold lift. rewrite Hmin. cbn [res_map res_bind].
      destruct (negb _); simpl in H3.
      * unfold bind at 1. rewrite H2 by lia.
        destruct matched; apply H3; lia.
      * apply H3. lia.
    + destruct (Hskip made) as (rec & f3 & H3).
      exists rec, (Nat.max f1 f3). intros fuel' Hle.
      cbn [recordings_loop]. unfold bind at 1. rewrite Htd.
      unfold bind at 1. rewrite H1 by lia. rewrite Hfinal. apply H3. lia.
Qed.

Lemma recordings_returns :
  exists rec, returns (fun fuel => recordings fuel self text) h rec.
Proof.
  destruct (closure_returns_nonempty h Hacyclic [(initial self, {[-1]})])
    as (sd & Hsd & Hne).
  { apply nonempty_singleton. }
  destruct (recordings_loop_returns (Py.enumerate text) sd [] Hne) as [rec Hrec].
  exists rec. unfold recordings.
  apply (returns_bind h (fun fuel => closure fuel [(initial self, {[-1]})])
           (fun fuel sd => recordings_loop fuel self text (Py.enumerate text) sd [])
           sd rec Hsd Hrec).
Qed.

Lemma matching_returns :
  exists l, returns (fun fuel => matching fuel self text) h l.
Proof.
  destruct recordings_returns as [rec [f Hrec]].
  eexists. exists f. intros fuel' Hle.
  unfold matching. unfold bind at 1.
  rewrite matching_dict_recordings, Hrec by exact Hle. reflexivity.
Qed.

End Scan.

(** ** The dictionary of occurrences *)

Section Occurrences.
Implicit Types (d made : list (Z * Z)) (start e : Z).

Lemma dict_keys_elem d start : start ∈ dict_keys d <-> is_Some (dict_get d start).
Proof. rewrite list_elem_of_In. symmetry. apply dict_get_keys. Qed.

Lemma dict_keys_set_nodup d start e :
  NoDup (dict_keys d) -> NoDup (dict_keys (dict_set d start e)).
Proof.
  intros Hd. rewrite dict_keys_set.
  destruct (dict_mem d start) eqn:Emem; [exact Hd |].
  apply NoDup_app. split; [exact Hd |]. split; [| apply NoDup_singleton].
  intros x Hx ->%list_elem_of_singleton.
  apply dict_keys_elem, dict_mem_get in Hx. congruence.
Qed.

Lemma record_all_cons d start e made :
  record_all d ((start, e) :: made) = record_all (dict_set d start e) made.
Proof. reflexivity. Qed.

Lemma record_all_nodup_keys made : forall d,
  NoDup (dict_keys d) -> NoDup (dict_keys (record_all d made)).
Proof.
  induction made as [|[start e] made IH]; intros d Hd; [exact Hd |].
  rewrite record_all_cons. apply IH. now apply dict_keys_set_nodup.
Qed.

(** The value of a start index is the end of its last assignment. *)
Lemma record_all_get d made start :
  dict_get (record_all d made) start =
  match dict_get (rev made) start with
  | Some e => Some e
  | None => dict_get d start
  end.
Proof.
  induction made as [|[start' e'] made IH] using rev_ind; [reflexivity |].
  rewrite record_all_snoc, rev_unit. simpl.
  destruct (decide (start' = start)) as [->|Hne].
  - apply dict_get_set_eq.
  - rewrite dict_get_set_ne by assumption. exact IH.
Qed.

(** With distinct keys the list of items is the association list itself. *)
Lemma items_nodup d :
  NoDup (dict_keys d) ->
  map (fun start => (start, match dict_get d start with Some e => e | None => 0 end))
      (dict_keys d) = d.
Proof.
  induction d as [|[k v] d IH]; intros Hd; [reflexivity |].
  apply NoDup_cons in Hd as [Hk Hd]. simpl.
  rewrite decide_True by reflexivity. f_equal.
  rewrite <- (IH Hd) at 2. apply map_ext_in. intros k' Hk'.
  apply list_elem_of_In in Hk'.
  rewrite decide_False; [reflexivity |]. intros ->. contradiction.
Qed.

Lemma dict_get_elem d start e :
  NoDup (dict_keys d) -> ((start, e) ∈ d <-> dict_get d start = Some e).
Proof.
  induction d as [|[k v] d IH]; intros Hd.
  - split; [intros H; inversion H | discriminate].
  - apply NoDup_cons in Hd as [Hk Hd]. simpl.
    rewrite elem_of_cons, (IH Hd).
    destruct (decide (k = start)) as [->|Hne].
    + split.
      * intros [[= -> ]|Hget]; [reflexivity |].
        exfalso. apply Hk, dict_keys_elem. eauto.
      * intros [= ->]. now left.
    + split; [intros [[= ? ?]|?]; [congruence | assumption] | now right].
Qed.

Lemma dict_get_rev_none made start :
  dict_get (rev made) start = None <-> forall e, (start, e) ∉ made.
Proof.
  induction made as [|[start' e'] made IH] using rev_ind.
  - split; [intros _ e H; inversion H | reflexivity].
  - rewrite rev_unit. simpl. destruct (decide (start' = start)) as [->|Hne].
    + split; [discriminate |]. intros H. exfalso. apply (H e'). set_solver.
    + rewrite IH. split; intros H e.
      * intros [Hin|Hin]%elem_of_app; [now apply (H e) |].
        apply list_elem_of_singleton in Hin. congruence.
      * intros Hin. apply (H e). set_solver.
Qed.

(** The ends grow along the scan, so the last assignment to a start index
    has the largest end assigned to it. *)
Lemma last_recording made start e :
  StronglySorted Z.lt (map snd made) ->
  dict_get (rev made) start = Some e <->
  (start, e) ∈ made /\ forall e', (start, e') ∈ made -> e' <= e.
Proof.
  induction made as [|[start' e0] made IH] using rev_ind; intros Hsorted.
  - split; [discriminate | intros [H _]; inversion H].
  - rewrite map_app in Hsorted. apply StronglySorted_app in Hsorted as (Hlt & Hs & _).
    assert (Hbelow : forall s' e', (s', e') ∈ made -> e' < e0).
    { intros s' e' Hin. apply (Hlt e' e0).
      - change e' with (snd (s', e')). now apply list_elem_of_fmap_2.
      - simpl. set_solver. }
    rewrite rev_unit. simpl. destruct (decide (start' = start)) as [->|Hne].
    + split.
      * intros [= <-]. split; [set_solver |].
        intros e' [Hin|Hin]%elem_of_app.
        -- apply Hbelow in Hin. lia.
        -- apply list_elem_of_singleton in Hin. injection Hin as ->. lia.
      * intros [Hin Hmax]. f_equal.
        assert (e0 <= e) by (apply Hmax; set_solver).
        apply elem_of_app in Hin as [Hin|Hin].
        -- apply Hbelow in Hin. lia.
        -- apply list_elem_of_singleton in Hin. now injection Hin.
    + rewrite (IH Hs). split; intros [Hin Hmax].
      * split; [set_solver |]. intros e' [Hin'|Hin']%elem_of_app; [now apply Hmax |].
        apply list_elem_of_singleton in Hin'. congruence.
      * apply elem_of_app in Hin as [Hin|Hin].
        -- split; [exact Hin |]. intros e' Hin'. apply Hmax. set_solver.
        -- apply list_elem_of_singleton in Hin. congruence.
Qed.

(** The keys keep the order in which the start indices were first assigned. *)
Lemma record_all_keys made : forall d,
  dict_keys (record_all d made) =
  dict_keys d ++ filter (fun y => y ∉ dict_keys d) (first_seen (map fst made)).
Proof.
  induction made as [|[start e] made IH]; intros d.
  - simpl. now rewrite app_nil_r.
  - rewrite record_all_cons, IH, dict_keys_set. simpl.
    destruct (dict_mem d start) eqn:Emem.
    + assert (Hin : start ∈ dict_keys d) by (apply dict_keys_elem, dict_mem_get, Emem).
      rewrite filter_cons_False by (intros H; now apply H).
      f_equal. rewrite list_filter_filter. apply list_filter_iff.
      intros y. split; [intros Hy; split; [exact Hy | congruence] | tauto].
    + assert (Hnin : start ∉ dict_keys d).
      { intros Hin. apply dict_keys_elem, dict_mem_get in Hin. congruence. }
      rewrite filter_cons_True by exact Hnin.
      rewrite <- app_assoc. simpl. do 2 f_equal.
      rewrite list_filter_filter. apply list_filter_iff.
      intros y. rewrite elem_of_app, list_elem_of_singleton. tauto.
Qed.

Lemma filter_all_true (l : list Z) : filter (fun y => y ∉ ([] : list Z)) l = l.
Proof.
  induction l as [|x l IH]; [reflexivity |].
  rewrite filter_cons_True by apply not_elem_of_nil. now rewrite IH.
Qed.

Lemma dict_set_fresh d start e : start ∉ dict_keys d -> dict_set d start e = d ++ [(start, e)].
Proof.
  induction d as [|[k v] d IH]; intros Hk; [reflexivity |].
  simpl in *. apply not_elem_of_cons in Hk as [Hne Hk].
  rewrite decide_False by congruence. now rewrite IH.
Qed.

(** Distinct start indices: the dictionary is the list of assignments. *)
Lemma record_all_fresh made : forall d,
  NoDup (dict_keys d ++ map fst made) -> record_all d made = d ++ made.
Proof.
  induction made as [|[start e] made IH]; intros d Hd.
  - simpl. now rewrite app_nil_r.
  - rewrite record_all_cons. simpl in Hd.
    assert (Hfresh : start ∉ dict_keys d).
    { apply NoDup_app in Hd as (_ & Hd & _). intros Hin. apply (Hd _ Hin). now left. }
    rewrite dict_set_fresh by exact Hfresh.
    rewrite IH.
    + now rewrite <- app_assoc.
    + unfold dict_keys in *. rewrite map_app. simpl.
      now rewrite <- app_assoc.
Qed.

End Occurrences.

(** ** What the search returns *)

(** The list that [matching] returns is the dictionary built from the
    assignments of the scan, whose ends grow strictly. *)
Lemma matching_spans fuel self text h l h' :
  Automaton.matching fuel self text h = Ok (l, h') ->
  exists made,
    recordings fuel self text h = Ok (made, h) /\
    h' = h /\
    l = record_all [] made /\
    StronglySorted Z.lt (map snd made).
Proof.
  unfold Automaton.matching. unfold bind at 1.
  rewrite matching_dict_recordings.
  destruct (recordings fuel self text h) as [[made h1]| |] eqn:Erec; try discriminate.
  simpl. unfold ret. intros [= <- <-].
  pose proof (reads_only_recordings self text fuel _ _ _ Erec) as ->.
  exists made. split; [reflexivity |]. split; [reflexivity |]. split.
  - apply items_nodup, record_all_nodup_keys. constructor.
  - eapply recordings_sorted. exact Erec.
Qed.

Lemma record_all_first_seen made :
  map fst (record_all [] made) = first_seen (map fst made).
Proof.
  change (map fst (record_all [] made)) with (dict_keys (record_all [] made)).
  rewrite record_all_keys. simpl. apply filter_all_true.
Qed.

(** The [defaultdict] of a state inserts the default when a missing label is
    read: an unguarded lookup changes the store. *)
Lemma getitem_missing_inserts :
  StateOps.getitem 0%nat "x" [State.empty] = Ok ([], [State.mk [("x", [])] None]).
Proof. reflexivity. Qed.

(** C9: [test_word] and [matching] return the store they were given: no
    state gains a label and no list of targets changes, since every lookup
    in a transition table is guarded by a membership test.  On a store
    without epsilon cycles both return. *)
Theorem matching_leaves_store (self : Automaton.t) (input : string) (h : store) :
  (forall fuel b h', Automaton.test_word fuel self input h = Ok (b, h') -> h' = h) /\
  (forall fuel l h', Automaton.matching fuel self input h = Ok (l, h') -> h' = h) /\
  (eps_acyclic h ->
   (exists b, returns (fun fuel => Automaton.test_word fuel self input) h b) /\
   (exists l, returns (fun fuel => Automaton.matching fuel self input) h l)).
Proof.
  split; [| split].
  - intros fuel b h'. apply reads_only_test_word.
  - intros fuel l h'. apply reads_only_matching.
  - intros Hacyclic. split.
    + now apply test_word_returns.
    + now apply matching_returns.
Qed.

Lemma matching_leaves_store_witness :
  Automaton.test_word gas abstara "aba" abstara_store = Ok (true, abstara_store) /\
  Automaton.matching gas abstara "xaabay" abstara_store =
    Ok ([(1, 3); (2, 5)], abstara_store) /\
  (exists b, returns (fun fuel => Automaton.test_word fuel abstara "aba") abstara_store b).
Proof.
  destruct (matching_leaves_store abstara "aba" abstara_store) as (Hword & _ & Hret).
  destruct (matching_leaves_store abstara "xaabay" abstara_store) as (_ & Hscan & _).
  destruct (Automaton.test_word gas abstara "aba" abstara_store)
    as [[b h1]| |] eqn:Eword; try (vm_compute in Eword; discriminate).
  destruct (Automaton.matching gas abstara "xaabay" abstara_store)
    as [[l h2]| |] eqn:Escan; try (vm_compute in Escan; discriminate).
  rewrite (Hword _ _ _ Eword) in *. rewrite (Hscan _ _ _ Escan) in *.
  split; [| split].
  - f_equal. f_equal. vm_compute in Eword. now injection Eword.
  - f_equal. f_equal. vm_compute in Escan. now injection Escan.
  - apply Hret, abstara_acyclic.
Defined.

(** C10: the list that [matching] returns has one span per start index; the
    span of a start index carries the largest end the scan assigned to it,
    the last one, and stands where the first assignment to that start index
    put it.  On a store without epsilon cycles [matching] returns. *)
Theorem matching_one_span_per_start (self : Automaton.t) (text : string) (h : store) :
  (eps_acyclic h ->
   exists l, returns (fun fuel => Automaton.matching fuel self text) h l) /\
  (forall fuel l h',
     Automaton.matching fuel self text h = Ok (l, h') ->
     exists made,
       recordings fuel self text h = Ok (made, h) /\
       NoDup (map fst l) /\
       (forall start e,
          (start, e) ∈ l <->
          (start, e) ∈ made /\ forall e', (start, e') ∈ made -> e' <= e) /\
       map fst l = first_seen (map fst made)).
Proof.
  split; [intros Hacyclic; now apply matching_returns |].
  intros fuel l h' Hrun.
  destruct (matching_spans _ _ _ _ _ _ Hrun) as (made & Hrec & _ & -> & Hsorted).
  assert (Hnodup : NoDup (dict_keys (record_all [] made))).
  { apply record_all_nodup_keys. constructor. }
  exists made. split; [exact Hrec |]. split; [exact Hnodup |]. split.
  - intros start e. rewrite (dict_get_elem _ _ _ Hnodup), record_all_get.
    rewrite <- (last_recording made start e Hsorted).
    destruct (dict_get (rev made) start); simpl; split; intros H; try exact H; discriminate.
  - apply record_all_first_seen.
Qed.

(** The fragment of ["[ab](bc)?"] and its store. *)
Lemma matching_one_span_per_start_witness :
  exists a h l,
    compile "[ab](bc)?" = Ok (a, h) /\
    Automaton.matching gas a "abc" h = Ok (l, h) /\
    l = [(0, 3); (1, 2)] /\
    exists made,
      recordings gas a "abc" h = Ok (made, h) /\
      NoDup (map fst l) /\
      (forall start e,
         (start, e) ∈ l <->
         (start, e) ∈ made /\ forall e', (start, e') ∈ made -> e' <= e) /\
      map fst l = first_seen (map fst made).
Proof.
  destruct (compile "[ab](bc)?") as [[a h]| |] eqn:Ecompile;
    try (vm_compute in Ecompile; discriminate).
  vm_compute in Ecompile. injection Ecompile as <- <-.
  eexists _, _, _. split; [reflexivity |].
  split; [vm_compute; reflexivity |]. split; [reflexivity |].
  eapply (proj2 (matching_one_span_per_start _ "abc" _) gas).
  vm_compute. reflexivity.
Defined.

(** C8, as stated: the ends of the returned spans would increase.  On
    ["abc"] the fragment of ["[ab](bc)?"] records (0, 1), (1, 2) and then
    (0, 3), which overwrites the first span in place. *)
Lemma find_occurrences_ends_not_increasing :
  ~ (forall l, find_occurrences "[ab](bc)?" "abc" = Ok l ->
               StronglySorted Z.le (map snd l)).
Proof.
  intros H. specialize (H [(0, 3); (1, 2)]).
  assert (Hrun : find_occurrences "[ab](bc)?" "abc" = Ok [(0, 3); (1, 2)])
    by (vm_compute; reflexivity).
  apply H in Hrun. simpl in Hrun.
  apply StronglySorted_inv in Hrun as [_ Hall].
  apply Forall_inv in Hall. lia.
Qed.

(** The last assignment to [start] is the one that no assignment to [start]
    follows. *)
Lemma last_end_split made start e :
  last_end made start = Some e <->
  exists before after,
    made = before ++ (start, e) :: after /\ forall e', (start, e') ∉ after.
Proof.
  unfold last_end.
  induction made as [|[start' e0] made IH] using rev_ind.
  - split; [discriminate |]. intros (before & after & Heq & _).
    destruct before; discriminate.
  - rewrite rev_unit. simpl. destruct (decide (start' = start)) as [-> | Hne].
    + split.
      * intros [= ->]. exists made, []. split; [reflexivity |].
        intros e' Hin. inversion Hin.
      * intros (before & after & Heq & Hlast).
        destruct after as [|x after _] using rev_ind.
        -- apply app_inj_tail in Heq as [_ [= ->]]. reflexivity.
        -- rewrite app_comm_cons, app_assoc in Heq.
           apply app_inj_tail in Heq as [_ <-].
           exfalso. apply (Hlast e0). set_solver.
    + rewrite IH. split.
      * intros (before & after & -> & Hlast).
        exists before, (after ++ [(start', e0)]). split.
        -- now rewrite <- app_assoc.
        -- intros e' [Hin|Hin]%elem_of_app; [now apply (Hlast e') |].
           apply list_elem_of_singleton in Hin. congruence.
      * intros (before & after & Heq & Hlast).
        destruct after as [|x after _] using rev_ind.
        -- apply app_inj_tail in Heq as [_ [= ? ?]]. congruence.
        -- rewrite app_comm_cons, app_assoc in Heq.
           apply app_inj_tail in Heq as [-> <-].
           exists before, after. split; [reflexivity |].
           intros e' Hin. apply (Hlast e'). set_solver.
Qed.

(** The dict built from the assignments, listed: the start indices in the
    order of their first assignment, each with the end of its last one. *)
Lemma record_all_closed made :
  record_all [] made =
  map (fun start => (start, default 0 (last_end made start))) (first_seen (map fst made)).
Proof.
  assert (Hnodup : NoDup (dict_keys (record_all [] made))).
  { apply record_all_nodup_keys. constructor. }
  rewrite <- (items_nodup _ Hnodup) at 1.
  change (dict_keys (record_all [] made)) with (map fst (record_all [] made)).
  rewrite record_all_first_seen. apply map_ext. intros start.
  rewrite record_all_get. unfold last_end.
  destruct (dict_get (rev made) start); reflexivity.
Qed.

(** C8, amended: the scan assigns ends in strictly increasing order, and the
    returned spans stand in the order in which their start indices were first
    assigned; when no start index is assigned twice the list is the list of
    assignments and its ends increase strictly.  An assignment to a start
    index that is already present overwrites its end in place: each start
    index keeps the position of its first assignment and carries the end of
    its last one, which fixes the whole list.  On a store without epsilon
    cycles [matching] returns. *)
Theorem matching_order_of_first_assignment (self : Automaton.t) (text : string)
    (h : store) :
  (eps_acyclic h ->
   exists l, returns (fun fuel => Automaton.matching fuel self text) h l) /\
  (forall fuel l h',
     Automaton.matching fuel self text h = Ok (l, h') ->
     exists made,
       recordings fuel self text h = Ok (made, h) /\
       StronglySorted Z.lt (map snd made) /\
       map fst l = first_seen (map fst made) /\
       (NoDup (map fst made) -> l = made /\ StronglySorted Z.lt (map snd l)) /\
       l = map (fun start => (start, default 0 (last_end made start)))
               (first_seen (map fst made)) /\
       (forall start e,
          (start, e) ∈ l <->
          exists before after,
            made = before ++ (start, e) :: after /\ forall e', (start, e') ∉ after)).
Proof.
  split; [intros Hacyclic; now apply matching_returns |].
  intros fuel l h' Hrun.
  destruct (matching_spans _ _ _ _ _ _ Hrun) as (made & Hrec & _ & -> & Hsorted).
  exists made. split; [exact Hrec |]. split; [exact Hsorted |]. split; [| split; [| split]].
  - apply record_all_first_seen.
  - intros Hnodup. rewrite record_all_fresh by exact Hnodup. split; [reflexivity | exact Hsorted].
  - apply record_all_closed.
  - intros start e. rewrite <- last_end_split.
    assert (Hnodup : NoDup (dict_keys (record_all [] made))).
    { apply record_all_nodup_keys. constructor. }
    rewrite (dict_get_elem _ _ _ Hnodup), record_all_get. unfold last_end.
    destruct (dict_get (rev made) start); simpl; split; intros H; try exact H; discriminate.
Qed.

(** The fragment of ["[ab](bc)?"] on ["abc"]: start 0 is assigned twice. *)
Lemma matching_order_of_first_assignment_witness :
  exists a h,
    compile "[ab](bc)?" = Ok (a, h) /\
    eps_acyclic h /\
    (exists l, returns (fun fuel => Automaton.matching fuel a "abc") h l) /\
    Automaton.matching gas a "abc" h = Ok ([(0, 3); (1, 2)], h) /\
    exists made,
      recordings gas a "abc" h = Ok (made, h) /\
      StronglySorted Z.lt (map snd made) /\
      map fst [(0, 3); (1, 2)] = first_seen (map fst made) /\
      (NoDup (map fst made) ->
       [(0, 3); (1, 2)] = made /\ StronglySorted Z.lt (map snd [(0, 3); (1, 2)])) /\
      [(0, 3); (1, 2)] =
        map (fun start => (start, default 0 (last_end made start)))
            (first_seen (map fst made)) /\
      (forall start e,
         (start, e) ∈ [(0, 3); (1, 2)] <->
         exists before after,
           made = before ++ (start, e) :: after /\ forall e', (start, e') ∉ after).
Proof.
  destruct (compile "[ab](bc)?") as [[a h]| |] eqn:Ecompile;
    try (vm_compute in Ecompile; discriminate).
  vm_compute in Ecompile. injection Ecompile as <- <-.
  eexists _, _. split; [reflexivity |].
  match goal with |- eps_acyclic ?h /\ _ => assert (Hacyclic : eps_acyclic h) end.
  { apply (eps_ranked_acyclic _ [0; 5; 0; 5; 1; 4; 0; 1; 0; 1; 2; 1; 3; 0]%nat).
    vm_compute. reflexivity. }
  split; [exact Hacyclic |].
  split; [exact (proj1 (matching_order_of_first_assignment _ "abc" _) Hacyclic) |].
  split; [vm_compute; reflexivity |].
  eapply (proj2 (matching_order_of_first_assignment _ "abc" _) gas).
  vm_compute. reflexivity.
Defined.

(** * Further properties of the code *)

(** ** The closure on any store *)

Section ClosureAnyStore.
Import Automaton.
Variable h : store.

Lemma closure_targets_keep_keys ms ts state queue sd :
  (forall s, s ∈ state :: queue -> is_Some (dict_get sd s)) ->
  forall s, s ∈ queue ++ ts ->
    is_Some (dict_get (fst (closure_targets ms ts sd queue)) s).
Proof.
  intros Hq s [Hs|Hs]%elem_of_app.
  - destruct (Hq s) as [m0 H0]; [set_solver |].
    destruct (closure_targets_mono ms ts s sd queue m0 H0) as (m1 & H1 & _). eauto.
  - destruct (closure_targets_covered ms ts s sd queue Hs) as (m1 & H1 & _). eauto.
Qed.

(** Whenever [__closure] returns, on any store, the store is unchanged and
    the result is the closure of the frontier. *)
Theorem closure_result_any_store (frontier result : state_dict) (fuel : nat) (h' : store) :
  closure fuel frontier h = Ok (result, h') ->
  h' = h /\ closure_of h frontier result.
Proof.
  intros Hrun. split.
  - eapply reads_only_closure. exact Hrun.
  - apply closure_inv_done. eapply closure_loop_inv; [apply closure_inv_start | exact Hrun].
Qed.

(** A state that reaches an epsilon cycle. *)
Lemma reaches_cycle_step x c :
  eps_reach h x c -> tc (eps_edge h) c c ->
  exists y c', eps_edge h x y /\ eps_reach h y c' /\ tc (eps_edge h) c' c'.
Proof.
  intros Hreach Hcycle. apply rtc_inv in Hreach as [->|(y & Hxy & Hyc)].
  - apply tc_rtc_l with (x := c) in Hcycle as Hcc; [| apply rtc_refl].
    inversion Hcycle as [? ? Hedge|? y ? Hedge Hrest]; subst.
    + exists c, c. repeat split; [exact Hedge | apply rtc_refl | exact Hcycle].
    + exists y, c. repeat split; [exact Hedge | now apply tc_rtc | exact Hcycle].
  - exists y, c. repeat split; assumption.
Qed.

Lemma closure_loop_diverges fuel : forall queue sd,
  (forall s, s ∈ queue -> is_Some (dict_get sd s)) ->
  (exists x c, x ∈ queue /\ eps_reach h x c /\ tc (eps_edge h) c c) ->
  closure_loop fuel queue sd h = OutOfFuel.
Proof.
  induction fuel as [|fuel IH]; intros queue sd Hkeys (x & c & Hx & Hreach & Hcycle);
    [reflexivity |].
  destruct queue as [|state queue]; [set_solver |].
  rewrite closure_loop_step.
  destruct (Hkeys state) as [ms Hms]; [set_solver |]. rewrite Hms.
  pose proof (closure_targets_queue ms (eps_targets h state) sd queue) as Hqueue.
  pose proof (closure_targets_keep_keys ms (eps_targets h state) state queue sd Hkeys)
    as Hkeys'.
  destruct (closure_targets _ _ _ _) as [sd' queue']. simpl in Hqueue, Hkeys'. subst queue'.
  apply IH; [exact Hkeys' |].
  apply elem_of_cons in Hx as [->|Hx].
  - destruct (reaches_cycle_step _ _ Hreach Hcycle) as (y & c' & Hedge & Hreach' & Hcycle').
    exists y, c'. split; [| split; assumption].
    apply elem_of_app. right. exact Hedge.
  - exists x, c. split; [| split; assumption]. apply elem_of_app. now left.
Qed.

(** When a state of the frontier reaches an epsilon cycle, [__closure] never
    returns: the loop runs out of every amount of fuel. *)
Theorem closure_diverges_on_cycle (frontier : state_dict) (f c : ref) :
  is_Some (dict_get frontier f) ->
  eps_reach h f c ->
  tc (eps_edge h) c c ->
  forall fuel, closure fuel frontier h = OutOfFuel.
Proof.
  intros Hf Hreach Hcycle fuel. apply closure_loop_diverges.
  - intros s Hs. now apply dict_get_keys_elem.
  - exists f, c. split; [| split; assumption]. now apply dict_get_keys_elem.
Qed.

End ClosureAnyStore.

Lemma closure_result_any_store_witness :
  let h := [State.mk [("", [1%nat])] None; State.empty; State.mk [("", [2%nat])] None] in
  exists result,
    Automaton.closure 5 [(0%nat, {[7]})] h = Ok (result, h) /\
    closure_of h [(0%nat, {[7]})] result.
Proof.
  intros h.
  destruct (Automaton.closure 5 [(0%nat, {[7]})] h) as [[result h']| |] eqn:Erun;
    try (vm_compute in Erun; discriminate).
  destruct (closure_result_any_store h _ _ _ _ Erun) as [-> Hspec].
  exists result. split; [reflexivity | exact Hspec].
Defined.

Lemma closure_diverges_on_cycle_witness :
  Automaton.closure 1000 [(0%nat, {[7]})]
    [State.mk [("", [1%nat])] None; State.mk [("", [0%nat])] None] = OutOfFuel.
Proof.
  apply (closure_diverges_on_cycle
           [State.mk [("", [1%nat])] None; State.mk [("", [0%nat])] None]
           [(0%nat, {[7]})] 0%nat 0%nat).
  - simpl. eauto.
  - apply rtc_refl.
  - apply tc_l with (y := 1%nat); [| apply tc_once];
      unfold eps_edge; vm_compute; set_solver.
Defined.

(** ** Transition tables *)

Section TransitionTables.
Implicit Types (h : store) (s : ref) (key : string).

(** [state[key] = value] appends [value] to the targets of [key] and touches
    nothing else: a following [state[key]] returns the old targets followed by
    [value] and leaves the store alone, the other labels of the state and the
    other states are as before. *)
Theorem setitem_then_getitem h s key (value : ref) :
  (s < length h)%nat ->
  let old := match dict_get (State.trans (state_at h s)) key with
             | Some l => l
             | None => []
             end in
  exists h1,
    StateOps.setitem s key value h = Ok (tt, h1) /\
    length h1 = length h /\
    StateOps.contains s key h1 = Ok (true, h1) /\
    StateOps.getitem s key h1 = Ok (old ++ [value], h1) /\
    (forall key', key' ≠ key ->
       dict_get (State.trans (state_at h1 s)) key' =
       dict_get (State.trans (state_at h s)) key') /\
    (forall s', s' ≠ s -> state_at h1 s' = state_at h s').
Proof.
  intros Hs old. unfold StateOps.setitem. eexists. split; [reflexivity |].
  split; [apply length_insert |].
  unfold StateOps.contains, StateOps.getitem, dict_mem.
  rewrite state_at_insert_eq by exact Hs. cbn [State.trans State.idx].
  rewrite dict_get_set_eq. repeat split.
  - intros key' Hne. now apply dict_get_set_ne.
  - intros s' Hne. now apply state_at_insert_ne.
Qed.

Lemma setitem_then_getitem_witness :
  exists h1,
    StateOps.setitem 0%nat "a" 1%nat [State.mk [("a", [0%nat])] None; State.empty] =
      Ok (tt, h1) /\
    StateOps.getitem 0%nat "a" h1 = Ok ([0%nat; 1%nat], h1).
Proof.
  destruct (setitem_then_getitem [State.mk [("a", [0%nat])] None; State.empty]
              0%nat "a" 1%nat) as (h1 & Hset & _ & _ & Hget & _).
  - simpl. lia.
  - exists h1. split; [exact Hset | exact Hget].
Defined.

(** Reading a label that a state does not have makes the [defaultdict] add
    it with no targets: the read returns the empty list, the label is a key
    afterwards, and reading it again changes nothing further. *)
Theorem getitem_missing_adds_key h s key :
  (s < length h)%nat ->
  dict_get (State.trans (state_at h s)) key = None ->
  exists h1,
    StateOps.getitem s key h = Ok ([], h1) /\
    h1 ≠ h /\
    StateOps.contains s key h = Ok (false, h) /\
    StateOps.contains s key h1 = Ok (true, h1) /\
    StateOps.getitem s key h1 = Ok ([], h1) /\
    (forall key', key' ≠ key ->
       dict_get (State.trans (state_at h1 s)) key' =
       dict_get (State.trans (state_at h s)) key').
Proof.
  intros Hs Hnone. unfold StateOps.getitem at 1. rewrite Hnone.
  eexists. split; [reflexivity |].
  unfold StateOps.contains, StateOps.getitem, dict_mem.
  rewrite state_at_insert_eq by exact Hs. cbn [State.trans State.idx].
  rewrite dict_get_set_eq, Hnone. repeat split.
  - intros Heq. apply (f_equal (fun x => state_at x s)) in Heq.
    rewrite state_at_insert_eq in Heq by exact Hs.
    apply (f_equal (fun st => dict_get (State.trans st) key)) in Heq.
    cbn [State.trans] in Heq. rewrite dict_get_set_eq, Hnone in Heq. discriminate.
  - intros key' Hne. now apply dict_get_set_ne.
Qed.

Lemma getitem_missing_adds_key_witness :
  exists h1,
    StateOps.getitem 0%nat "x" [State.mk [("a", [0%nat])] None] = Ok ([], h1) /\
    StateOps.contains 0%nat "x" h1 = Ok (true, h1).
Proof.
  destruct (getitem_missing_adds_key [State.mk [("a", [0%nat])] None] 0%nat "x")
    as (h1 & Hget & _ & _ & Hin & _).
  - simpl. lia.
  - reflexivity.
  - exists h1. split; [exact Hget | exact Hin].
Defined.

End TransitionTables.

(** ** The cursor over the canonical pattern *)

Section Cursor.
Import RegexIterator.

Lemma next_char_at_end (r : t) :
  idx r = Py.len (regex r) ->
  next_char r = mkIter (regex r) (idx r) (Some END_OF_STRING).
Proof. intros Hend. unfold next_char. now rewrite Hend, Z.eqb_refl. Qed.

Lemma get_in_range (s : string) : forall i : nat,
  (i < String.length s)%nat -> exists c, String.get i s = Some c.
Proof.
  induction s as [|c s IH]; intros i Hlt; simpl in *; [lia |].
  destruct i as [|i]; [eauto |]. apply IH. lia.
Qed.

Lemma index_nat (s : string) (i : nat) : Py.index s (Z.of_nat i) = String.get i s.
Proof.
  unfold Py.index.
  assert (Hpos : (Z.of_nat i <? 0) = false) by (apply Z.ltb_ge; lia).
  cbv zeta. rewrite !Hpos. now rewrite Nat2Z.id.
Qed.

Lemma index_in_range (s : string) (i : nat) :
  (i < String.length s)%nat -> exists c, Py.index s (Z.of_nat i) = Some c.
Proof. intros Hlt. rewrite index_nat. now apply get_in_range. Qed.

Lemma next_char_before_end (r : t) (i : nat) :
  idx r = Z.of_nat i -> (i < String.length (regex r))%nat ->
  exists c, next_char r = mkIter (regex r) (Z.of_nat (S i)) (Some c).
Proof.
  intros Hidx Hlt. unfold next_char, Py.len. rewrite Hidx.
  replace (Z.of_nat i =? Z.of_nat (String.length (regex r))) with false
    by (symmetry; apply Z.eqb_neq; lia).
  destruct (index_in_range (regex r) i Hlt) as [c ->].
  exists c. f_equal. lia.
Qed.

Lemma next_char_iter (pattern : string) : forall n,
  (n <= String.length pattern)%nat ->
  idx (Nat.iter n next_char (mkIter pattern 0 None)) = Z.of_nat n /\
  regex (Nat.iter n next_char (mkIter pattern 0 None)) = pattern.
Proof.
  induction n as [|n IH]; intros Hle; [split; reflexivity |].
  destruct IH as [Hidx Hre]; [lia |]. simpl.
  destruct (next_char_before_end _ n Hidx) as [c ->]; [rewrite Hre; lia |].
  simpl. split; [reflexivity | exact Hre].
Qed.

(** The cursor never moves back, and the end-of-input sentinel is not a
    symbol of the alphabet.  After one [next_char] per character of the
    pattern the next read yields the sentinel, and so does every read after
    it, with the position unchanged. *)
Theorem next_char_past_end (pattern : string) (extra : nat) :
  let r := Nat.iter (S (String.length pattern + extra)) next_char (mkIter pattern 0 None) in
  ended r = true /\
  idx r = Py.len pattern /\
  regex r = pattern /\
  ValidCharacters.ALL_SYMBOLS END_OF_STRING = false /\
  forall r' : t, idx r' <= idx (next_char r').
Proof.
  intros r. subst r.
  assert (Hiter : Nat.iter (S (String.length pattern + extra)) next_char
                    (mkIter pattern 0 None) =
                  mkIter pattern (Py.len pattern) (Some END_OF_STRING)).
  { induction extra as [|extra IH].
    - rewrite Nat.add_0_r. simpl.
      destruct (next_char_iter pattern (String.length pattern)) as [Hidx Hre]; [lia |].
      rewrite next_char_at_end by (rewrite Hre; exact Hidx).
      rewrite Hre, Hidx. reflexivity.
    - rewrite Nat.add_succ_r. simpl in *. rewrite IH.
      now rewrite next_char_at_end by reflexivity. }
  rewrite Hiter. repeat split.
  intros r'. unfold next_char.
  destruct (idx r' =? Py.len (regex r')); simpl; lia.
Qed.

End Cursor.

(** ** Concatenation and alternative *)

Section Combinators.
Import Automaton.

Ltac name_store i g name H :=
  match goal with
  | |- context [@insert ?K ?V ?M ?I i ?st g] =>
      remember (@insert K V M I i st g) as name eqn:H
  end.

Lemma setitem_run (h : store) (s : ref) (key : string) (value : ref) (st : State.t) :
  state_at h s = st ->
  StateOps.setitem s key value h =
  Ok (tt, <[s := State.mk
                   (dict_set (State.trans st) key
                      (match dict_get (State.trans st) key with
                       | Some l => l
                       | None => []
                       end ++ [value]))
                   (State.idx st)]> h).
Proof. intros <-. reflexivity. Qed.

(** Concatenation adds one epsilon edge, from the final state of the first
    operand to the initial state of the second, and creates no state; the
    result runs from the initial state of the first operand to the final
    state of the second. *)
Theorem perform_concatenation_edge (aut1 aut2 : t) (copy_fst copy_snd : bool)
    (h h1 h2 : store) (a1 a2 : t) :
  operand copy_fst aut1 h = Ok (a1, h1) ->
  operand copy_snd aut2 h1 = Ok (a2, h2) ->
  (final a1 < length h2)%nat ->
  let old_final := state_at h2 (final a1) in
  exists h',
    perform_concatenation aut1 aut2 copy_fst copy_snd h =
      Ok (mk (initial a1) (final a2) false, h') /\
    length h' = length h2 /\
    state_at h' (final a1) =
      State.mk
        (dict_set (State.trans old_final) State.EPSILON
           (eps_targets h2 (final a1) ++ [initial a2]))
        (State.idx old_final) /\
    (forall s, s ≠ final a1 -> state_at h' s = state_at h2 s).
Proof.
  intros Hop1 Hop2 Hfin old_final.
  unfold perform_concatenation. unfold bind at 1. rewrite Hop1.
  unfold bind at 1. rewrite Hop2.
  unfold bind at 1. rewrite (setitem_run h2 _ _ _ old_final eq_refl).
  unfold ret. eexists. split; [reflexivity |].
  split; [apply length_insert |]. split.
  - rewrite state_at_insert_eq by exact Hfin. reflexivity.
  - intros s Hne. apply state_at_insert_ne. congruence.
Qed.

Lemma perform_concatenation_edge_witness :
  let h := [State.mk [("a", [1%nat])] None; State.empty;
            State.mk [("b", [3%nat])] None; State.empty] in
  exists h',
    perform_concatenation (mk 0%nat 1%nat false) (mk 2%nat 3%nat false) false false h =
      Ok (mk 0%nat 3%nat false, h') /\
    eps_targets h' 1%nat = [2%nat].
Proof.
  intros h.
  destruct (perform_concatenation_edge (mk 0%nat 1%nat false) (mk 2%nat 3%nat false)
              false false h h h (mk 0%nat 1%nat false) (mk 2%nat 3%nat false))
    as (h' & Hrun & _ & Hf & _).
  - reflexivity.
  - reflexivity.
  - simpl. lia.
  - exists h'. split; [exact Hrun |].
    simpl in Hf. unfold eps_targets. rewrite Hf. reflexivity.
Defined.

(** The alternative appends two new states to the store, the initial and the
    final state of the result, and adds four epsilon edges: from the new
    initial state to the initial states of both operands, and from the final
    states of both operands to the new final state.  Every other state is as
    before. *)
Theorem perform_alternative_edges (aut1 aut2 : t) (copy_fst copy_snd : bool)
    (h h1 h2 : store) (a1 a2 : t) :
  operand copy_fst aut1 h = Ok (a1, h1) ->
  operand copy_snd aut2 h1 = Ok (a2, h2) ->
  (final a1 < length h2)%nat ->
  (final a2 < length h2)%nat ->
  final a1 ≠ final a2 ->
  let new_initial := length h2 in
  let new_final := S (length h2) in
  exists h',
    perform_alternative aut1 aut2 copy_fst copy_snd h =
      Ok (mk new_initial new_final false, h') /\
    length h' = S (S (length h2)) /\
    state_at h' new_initial =
      State.mk [(State.EPSILON, [initial a1; initial a2])] None /\
    state_at h' new_final = State.empty /\
    eps_targets h' (final a1) = eps_targets h2 (final a1) ++ [new_final] /\
    eps_targets h' (final a2) = eps_targets h2 (final a2) ++ [new_final] /\
    (forall s key, (s < length h2)%nat -> key ≠ State.EPSILON ->
       dict_get (State.trans (state_at h' s)) key =
       dict_get (State.trans (state_at h2 s)) key) /\
    (forall s, (s < length h2)%nat -> s ≠ final a1 -> s ≠ final a2 ->
       state_at h' s = state_at h2 s).
Proof.
  intros Hop1 Hop2 Hf1 Hf2 Hne new_initial new_final.
  unfold perform_alternative. unfold bind at 1. rewrite Hop1.
  unfold bind at 1. rewrite Hop2.
  unfold bind at 1. unfold StateOps.new at 1. cbv beta iota.
  unfold bind at 1. unfold StateOps.new at 1. cbv beta iota.
  rewrite length_app. cbn [length].
  replace (length h2 + 1)%nat with (S (length h2)) by lia.
  remember ((h2 ++ [State.empty]) ++ [State.empty]) as g0 eqn:Hg0.
  assert (Hlen0 : length g0 = S (S (length h2))).
  { subst g0. rewrite !length_app. simpl. lia. }
  assert (Hold0 : forall s, (s < length h2)%nat -> state_at g0 s = state_at h2 s).
  { intros s Hs. subst g0. rewrite <- app_assoc. now apply state_at_app_l. }
  assert (Hni0 : state_at g0 (length h2) = State.mk [] None).
  { subst g0. rewrite state_at_app_l by (rewrite length_app; simpl; lia).
    apply state_at_app_new. }
  assert (Hnf0 : state_at g0 (S (length h2)) = State.empty).
  { subst g0.
    replace (S (length h2)) with (length (h2 ++ [State.empty]))
      by (rewrite length_app; simpl; lia).
    apply state_at_app_new. }
  clear Hg0.
  unfold bind at 1. rewrite (setitem_run g0 _ _ _ _ Hni0).
  cbn [State.trans State.idx dict_get dict_set app].
  name_store (length h2) g0 g1 Hg1.
  assert (Hni1 : state_at g1 (length h2) =
                 State.mk [(State.EPSILON, [initial a1])] None).
  { subst g1. apply state_at_insert_eq. lia. }
  assert (Hlen1 : length g1 = S (S (length h2))).
  { subst g1. now rewrite length_insert. }
  assert (Hold1 : forall s, s ≠ length h2 -> state_at g1 s = state_at g0 s).
  { intros s Hs. subst g1. apply state_at_insert_ne. congruence. }
  clear Hg1.
  unfold bind at 1. rewrite (setitem_run g1 _ _ _ _ Hni1).
  cbn [State.trans State.idx dict_get dict_set app].
  rewrite !decide_True by reflexivity. cbn [app].
  name_store (length h2) g1 g2 Hg2.
  assert (Hni2 : state_at g2 (length h2) =
                 State.mk [(State.EPSILON, [initial a1; initial a2])] None).
  { subst g2. apply state_at_insert_eq. lia. }
  assert (Hlen2 : length g2 = S (S (length h2))).
  { subst g2. now rewrite length_insert. }
  assert (Hold2 : forall s, (s < length h2)%nat -> state_at g2 s = state_at h2 s).
  { intros s Hs. subst g2. rewrite state_at_insert_ne by lia.
    rewrite Hold1 by lia. now apply Hold0. }
  assert (Hnf2 : state_at g2 (S (length h2)) = State.empty).
  { subst g2. rewrite state_at_insert_ne by lia. rewrite Hold1 by lia. exact Hnf0. }
  clear Hg2 Hold1 Hni1 Hlen1 g1 Hold0 Hni0 Hnf0 Hlen0 g0.
  unfold bind at 1. rewrite (setitem_run g2 _ _ _ _ (Hold2 _ Hf1)).
  name_store (final a1) g2 g3 Hg3.
  assert (Hf3 : state_at g3 (final a2) = state_at h2 (final a2)).
  { subst g3. rewrite state_at_insert_ne by exact Hne. now apply Hold2. }
  unfold bind at 1. rewrite (setitem_run g3 _ _ _ _ Hf3).
  unfold ret. eexists. split; [reflexivity |].
  assert (Hlen3 : length g3 = S (S (length h2))).
  { subst g3. now rewrite length_insert. }
  split; [now rewrite length_insert |].
  split.
  { rewrite state_at_insert_ne by lia. subst g3.
    rewrite state_at_insert_ne by lia. exact Hni2. }
  split.
  { rewrite state_at_insert_ne by lia. subst g3.
    rewrite state_at_insert_ne by lia. exact Hnf2. }
  split.
  { unfold eps_targets at 1. rewrite state_at_insert_ne by congruence. subst g3.
    rewrite state_at_insert_eq by lia. cbn [State.trans]. now rewrite dict_get_set_eq. }
  split.
  { unfold eps_targets at 1. rewrite state_at_insert_eq by lia.
    cbn [State.trans]. now rewrite dict_get_set_eq. }
  split.
  { intros s key Hs Hkey.
    destruct (decide (s = final a2)) as [->|Hs2].
    - rewrite state_at_insert_eq by lia. cbn [State.trans].
      now rewrite dict_get_set_ne by congruence.
    - rewrite state_at_insert_ne by congruence. subst g3.
      destruct (decide (s = final a1)) as [->|Hs1].
      + rewrite state_at_insert_eq by lia. cbn [State.trans].
        now rewrite dict_get_set_ne by congruence.
      + rewrite state_at_insert_ne by congruence. now rewrite Hold2. }
  intros s Hs Hs1 Hs2.
  rewrite state_at_insert_ne by congruence. subst g3.
  rewrite state_at_insert_ne by congruence. now apply Hold2.
Qed.

Lemma perform_alternative_edges_witness :
  let h := [State.mk [("a", [1%nat])] None; State.empty;
            State.mk [("b", [3%nat])] None; State.empty] in
  exists h',
    perform_alternative (mk 0%nat 1%nat false) (mk 2%nat 3%nat false) false false h =
      Ok (mk 4%nat 5%nat false, h') /\
    eps_targets h' 4%nat = [0%nat; 2%nat] /\
    eps_targets h' 1%nat = [5%nat] /\
    eps_targets h' 3%nat = [5%nat].
Proof.
  intros h.
  destruct (perform_alternative_edges (mk 0%nat 1%nat false) (mk 2%nat 3%nat false)
              false false h h h (mk 0%nat 1%nat false) (mk 2%nat 3%nat false))
    as (h' & Hrun & _ & Hi & _ & Hf1 & Hf2 & _).
  - reflexivity.
  - reflexivity.
  - simpl. lia.
  - simpl. lia.
  - simpl. lia.
  - exists h'. split; [exact Hrun |].
    simpl in Hi. unfold eps_targets at 1. rewrite Hi.
    split; [reflexivity |]. split; [exact Hf1 | exact Hf2].
Defined.

End Combinators.

(** ** The step *)

Section Step.
Import Automaton ValidCharacters.

(** The chain of [if]s in [__trans] read as a priority: the alpha class
    beats the word class, which beats the digit class, which beats the
    literal symbol; the classes are tested on the symbol as the state sees
    it, which is ["."] once the state (or an earlier one) has a wildcard
    transition.  A state with a wildcard transition therefore looks up the
    symbol it was handed, never the wildcard. *)
Theorem trans_label_priority (h : store) (state : ref) (letter : string) :
  let has := dict_mem (State.trans (state_at h state)) in
  let seen := if has (Py.chr ANY_SYMBOL) then Py.chr ANY_SYMBOL else letter in
  let label :=
    if has ALPHA_CLASS && str_in ASCII_SET seen then ALPHA_CLASS
    else if has WORD_CLASS && (Py.str_contains DIGITS_CLASS seen || str_in ASCII_SET seen)
         then WORD_CLASS
    else if has DIGITS_CLASS && str_in DIGITS_SET seen then DIGITS_CLASS
    else letter in
  trans_label state letter h = Ok ((label, seen), h) /\
  (has (Py.chr ANY_SYMBOL) = true -> label = letter /\ seen = Py.chr ANY_SYMBOL).
Proof.
  intros has seen label. split.
  - unfold trans_label, bind, StateOps.contains, ret. subst label seen has. cbv beta.
    destruct (dict_mem _ ALPHA_CLASS), (dict_mem _ WORD_CLASS),
      (dict_mem _ DIGITS_CLASS), (dict_mem _ (Py.chr ANY_SYMBOL)); cbn [andb];
      repeat match goal with
             | |- context [if ?b then _ else _] => destruct b
             end; reflexivity.
  - intros Hany. subst label seen. rewrite Hany. split; [| reflexivity].
    change (str_in ASCII_SET (Py.chr ANY_SYMBOL)) with false.
    change (str_in DIGITS_SET (Py.chr ANY_SYMBOL)) with false.
    change (Py.str_contains DIGITS_CLASS (Py.chr ANY_SYMBOL)) with false.
    now rewrite !andb_false_r.
Qed.

Lemma trans_label_priority_witness :
  trans_label 0%nat "x" [State.mk [(".", [1%nat])] None; State.empty]
  = Ok (("x", "."), [State.mk [(".", [1%nat])] None; State.empty]).
Proof.
  destruct (trans_label_priority [State.mk [(".", [1%nat])] None; State.empty] 0%nat "x")
    as [Hrun Hany].
  rewrite Hrun. destruct Hany as [-> ->]; reflexivity.
Defined.

Lemma trans_targets_sound ms ts u : forall rd m1 x,
  dict_get (trans_targets ms ts rd) u = Some m1 -> x ∈ m1 ->
  (exists m0, dict_get rd u = Some m0 /\ x ∈ m0) \/ (u ∈ ts /\ x ∈ ms).
Proof.
  induction ts as [|t ts IH]; intros rd m1 x Hu Hx.
  - left. simpl in Hu. eauto.
  - rewrite trans_targets_cons in Hu.
    destruct (IH _ _ _ Hu Hx) as [(m0 & H0 & Hx0)|[Hin Hms]].
    + destruct (merge_sound _ _ _ _ _ _ H0 Hx0) as [?|[-> ?]]; [now left |].
      right. set_solver.
    + right. set_solver.
Qed.

Lemma trans_targets_keys ms ts u : forall rd,
  is_Some (dict_get (trans_targets ms ts rd) u) ->
  is_Some (dict_get rd u) \/ u ∈ ts.
Proof.
  induction ts as [|t ts IH]; intros rd Hu; [now left |].
  rewrite trans_targets_cons in Hu.
  destruct (IH _ Hu) as [H1|H1]; [| right; set_solver].
  destruct (merge_keys _ _ _ _ H1) as [? | ->]; [now left | right; set_solver].
Qed.

Lemma trans_loop_sound (h : store) : forall states sd letter rd result h',
  trans_loop states sd letter rd h = Ok (result, h') ->
  forall t,
    (is_Some (dict_get result t) ->
     is_Some (dict_get rd t) \/
     exists s label targets,
       s ∈ states /\ is_Some (dict_get sd s) /\
       dict_get (State.trans (state_at h s)) label = Some targets /\ t ∈ targets) /\
    (forall ms m, dict_get result t = Some ms -> m ∈ ms ->
       (exists m0, dict_get rd t = Some m0 /\ m ∈ m0) \/
       exists s ss label targets,
         s ∈ states /\ dict_get sd s = Some ss /\ m ∈ ss /\
         dict_get (State.trans (state_at h s)) label = Some targets /\ t ∈ targets).
Proof.
  induction states as [|state rest IH]; intros sd letter rd result h' Hrun t.
  - injection Hrun as <- _. split; [now left | intros ms m Ht Hm; left; eauto].
  - cbn [trans_loop] in Hrun. unfold bind at 1 in Hrun. unfold lift in Hrun.
    destruct (dict_get sd state) as [ss|] eqn:Hss; [| discriminate].
    cbn [of_option res_map res_bind] in Hrun. unfold bind at 1 in Hrun.
    destruct (trans_label_returns h state letter) as [[alt letter'] Hlabel].
    rewrite Hlabel in Hrun. unfold bind at 1 in Hrun. rewrite contains_eq in Hrun.
    destruct (dict_mem _ alt) eqn:Emem.
    + unfold bind at 1 in Hrun. rewrite getitem_present in Hrun by exact Emem.
      apply dict_mem_get in Emem as [targets Htargets]. rewrite Htargets in Hrun.
      destruct (IH _ _ _ _ _ Hrun t) as [Hkeys Hsets]. split.
      * intros Ht. destruct (Hkeys Ht) as [H0|(s & label & tg & Hs & Hsd & Hl & Hin)].
        -- destruct (trans_targets_keys _ _ _ _ H0) as [?|Hin]; [now left |].
           right. exists state, alt, targets. repeat split; eauto. set_solver.
        -- right. exists s, label, tg. repeat split; eauto. set_solver.
      * intros ms m Ht Hm.
        destruct (Hsets ms m Ht Hm)
          as [(m0 & H0 & Hm0)|(s & ss' & label & tg & Hs & Hsd & Hms & Hl & Hin)].
        -- destruct (trans_targets_sound _ _ _ _ _ _ H0 Hm0) as [?|[Hin Hmss]]; [now left |].
           right. exists state, ss, alt, targets. repeat split; eauto. set_solver.
        -- right. exists s, ss', label, tg. repeat split; eauto. set_solver.
    + destruct (IH _ _ _ _ _ Hrun t) as [Hkeys Hsets]. split.
      * intros Ht. destruct (Hkeys Ht) as [?|(s & label & tg & Hs & Hrest)]; [now left |].
        right. exists s, label, tg. split; [set_solver | exact Hrest].
      * intros ms m Ht Hm.
        destruct (Hsets ms m Ht Hm) as [?|(s & ss' & label & tg & Hs & Hrest)]; [now left |].
        right. exists s, ss', label, tg. split; [set_solver | exact Hrest].
Qed.

(** [__trans] invents nothing: every state of its result is the target of a
    transition of some state of the frontier, and every index it carries is
    an index of a frontier state with a transition to it.  The store is
    unchanged. *)
Theorem trans_sound (h : store) (sd : state_dict) (letter : string)
    (result : state_dict) (h' : store) :
  trans sd letter h = Ok (result, h') ->
  h' = h /\
  forall t ms,
    dict_get result t = Some ms ->
    (exists s label targets,
       is_Some (dict_get sd s) /\
       dict_get (State.trans (state_at h s)) label = Some targets /\ t ∈ targets) /\
    (forall m, m ∈ ms ->
       exists s ss label targets,
         dict_get sd s = Some ss /\ m ∈ ss /\
         dict_get (State.trans (state_at h s)) label = Some targets /\ t ∈ targets).
Proof.
  intros Hrun. split; [eapply reads_only_trans; exact Hrun |].
  intros t ms Ht.
  destruct (trans_loop_sound h _ _ _ _ _ _ Hrun t) as [Hkeys Hsets]. split.
  - assert (Hsome : is_Some (dict_get result t)) by eauto.
    destruct (Hkeys Hsome) as [[? H0]|(s & label & tg & _ & Hrest)]; [discriminate H0 |].
    exists s, label, tg. exact Hrest.
  - intros m Hm.
    destruct (Hsets ms m Ht Hm) as [(m0 & H0 & _)|(s & ss & label & tg & _ & Hrest)];
      [discriminate |].
    exists s, ss, label, tg. exact Hrest.
Qed.

Lemma trans_sound_witness :
  exists result,
    trans [(0%nat, {[4]})] "a" abstara_store = Ok (result, abstara_store) /\
    forall t ms, dict_get result t = Some ms -> forall m, m ∈ ms -> m = 4.
Proof.
  destruct (trans [(0%nat, {[4]})] "a" abstara_store) as [[result h']| |] eqn:Erun;
    try (vm_compute in Erun; discriminate).
  destruct (trans_sound _ _ _ _ _ Erun) as [-> Hsound].
  exists result. split; [reflexivity |].
  intros t ms Ht m Hm.
  destruct (proj2 (Hsound t ms Ht) m Hm) as (s & ss & _ & _ & Hs & Hin & _).
  simpl in Hs. case_decide; [| discriminate].
  injection Hs as <-. set_solver.
Defined.

End Step.

(** ** Whole-word test and search *)

Section Search.
Import Automaton.

(** The empty word is accepted exactly when the final state is reachable
    from the initial state through epsilon edges. *)
Theorem test_word_empty (h : store) (self : t) :
  eps_acyclic h ->
  exists b,
    returns (fun fuel => test_word fuel self "") h b /\
    (b = true <-> eps_reach h (initial self) (final self)).
Proof.
  intros Hacyclic.
  destruct (closure_returns h [(initial self, {[0]})] Hacyclic) as (sd & [fuel Hrun] & Hspec).
  exists (dict_mem sd (final self)). split.
  - exists fuel. intros fuel' Hle. unfold test_word, bind.
    rewrite (Hrun fuel' Hle). reflexivity.
  - rewrite dict_mem_get. rewrite (proj1 (Hspec (final self))). split.
    + intros (f & [fs Hf] & Hreach). simpl in Hf.
      case_decide; [subst f; exact Hreach | discriminate].
    + intros Hreach. exists (initial self). split; [| exact Hreach].
      simpl. rewrite decide_True by reflexivity. eauto.
Qed.

Lemma test_word_empty_witness :
  exists b,
    returns (fun fuel => test_word fuel abstara "") abstara_store b /\
    (b = true <-> eps_reach abstara_store 0%nat 7%nat).
Proof. exact (test_word_empty abstara_store abstara abstara_acyclic). Defined.

Lemma foldr_min_elem (x : Z) (l : list Z) : foldr Z.min x l ∈ x :: l.
Proof.
  induction l as [|y l IH]; simpl; [set_solver |].
  destruct (Z.min_spec y (foldr Z.min x l)) as [[_ ->]|[_ ->]]; set_solver.
Qed.

Lemma foldr_min_le (x : Z) (l : list Z) : forall m, m ∈ x :: l -> foldr Z.min x l <= m.
Proof.
  induction l as [|y l IH]; simpl; intros m Hm.
  - apply list_elem_of_singleton in Hm. lia.
  - assert (Hx : foldr Z.min x l <= x) by (apply IH; set_solver).
    apply elem_of_cons in Hm as [->|Hm]; [lia |].
    apply elem_of_cons in Hm as [->|Hm]; [lia |].
    assert (foldr Z.min x l <= m) by (apply IH; set_solver). lia.
Qed.

(** [min] of a set of indexes is an element of it and below the others. *)
Lemma set_min_spec (ms : gset Z) (z : Z) :
  set_min ms = Ok z -> z ∈ ms /\ forall m, m ∈ ms -> z <= m.
Proof.
  unfold set_min. destruct (elements ms) as [|x l] eqn:E; [discriminate |].
  intros [= <-]. split.
  - apply elem_of_elements. rewrite E. apply foldr_min_elem.
  - intros m Hm. apply foldr_min_le. rewrite <- E. now apply elem_of_elements.
Qed.

Lemma substring_zero (s : string) : forall n, String.substring n 0 s = "".
Proof.
  induction s as [|c s IH]; intros [|n]; simpl; try reflexivity. apply IH.
Qed.

Lemma slice_nonempty (s : string) (lo hi : Z) :
  0 <= lo -> 0 <= hi -> Py.slice s lo hi ≠ "" -> lo < hi.
Proof.
  intros Hlo Hhi Hne. destruct (Z.lt_ge_cases lo hi) as [|Hge]; [assumption |].
  exfalso. apply Hne. unfold Py.slice, Py.clamp.
  replace (lo <? 0) with false by (symmetry; apply Z.ltb_ge; lia).
  replace (hi <? 0) with false by (symmetry; apply Z.ltb_ge; lia).
  replace (Z.to_nat (Z.min hi (Py.len s)) - Z.to_nat (Z.min lo (Py.len s)))%nat
    with 0%nat by lia.
  apply substring_zero.
Qed.

Lemma indexes_from_trans (h : store) sd letter result h' lo :
  trans sd letter h = Ok (result, h') -> indexes_from lo sd -> indexes_from lo result.
Proof.
  intros Hrun Hsd t ms m Ht Hm.
  destruct (proj2 (trans_loop_sound h _ _ _ _ _ _ Hrun t) ms m Ht Hm)
    as [(m0 & H0 & _)|(s & ss & _ & _ & _ & Hs & Hin & _)]; [discriminate H0 |].
  eapply Hsd; eassumption.
Qed.

Lemma indexes_from_reseed sd s (i lo : Z) :
  lo <= i -> indexes_from lo sd ->
  indexes_from lo
    match dict_get sd s with
    | Some old => dict_set sd s (old ∪ {[i]})
    | None => dict_set sd s {[i]}
    end.
Proof.
  intros Hi Hsd. change (indexes_from lo (merge sd s {[i]})).
  intros t ms m Ht Hm.
  destruct (merge_sound _ _ _ _ _ _ Ht Hm) as [(m0 & H0 & Hm0)|[_ Hin]].
  - eapply Hsd; eassumption.
  - apply elem_of_singleton in Hin. lia.
Qed.

Lemma indexes_from_closure (h : store) fuel sd result h' lo :
  closure fuel sd h = Ok (result, h') -> indexes_from lo sd -> indexes_from lo result.
Proof.
  intros Hrun Hsd t ms m Ht Hm.
  pose proof (closure_loop_inv h sd fuel _ _ _ _ (closure_inv_start h sd) Hrun) as Hinv.
  destruct (inv_sound _ _ _ _ Hinv t ms m Ht Hm) as (f & fs & Hf & Hmf & _).
  eapply Hsd; eassumption.
Qed.

Lemma recordings_loop_verified fuel self text h : forall todo sd made rec h',
  (forall i c, (i, c) ∈ todo -> 0 <= i < Py.len text) ->
  indexes_from (-1) sd ->
  recordings_loop fuel self text todo sd made h = Ok (rec, h') ->
  forall span, span ∈ rec -> span ∈ made \/ verified_span fuel self text h span.
Proof.
  induction todo as [|[i letter] rest IH]; intros sd made rec h' Htodo Hsd.
  - intros [= <- _] span Hspan. now left.
  - cbn [recordings_loop]. unfold bind at 1.
    destruct (trans sd (Py.chr letter) h) as [[td h1]| |] eqn:Etrans; try discriminate.
    pose proof (reads_only_trans _ _ _ _ _ Etrans) as ->.
    pose proof (indexes_from_trans _ _ _ _ _ _ Etrans Hsd) as Htd.
    assert (Hi : 0 <= i < Py.len text) by (apply (Htodo i letter); set_solver).
    pose proof (indexes_from_reseed td (initial self) i (-1) ltac:(lia) Htd) as Htd'.
    unfold bind at 1.
    destruct (closure fuel _ h) as [[sd' h2]| |] eqn:Eclosure; try discriminate.
    pose proof (reads_only_closure _ _ _ _ _ Eclosure) as ->.
    pose proof (indexes_from_closure _ _ _ _ _ _ Eclosure Htd') as Hsd'.
    assert (Hrest : forall i' c, (i', c) ∈ rest -> 0 <= i' < Py.len text).
    { intros i' c Hin. apply (Htodo i' c). set_solver. }
    destruct (dict_get sd' (final self)) as [at_final|] eqn:Efinal;
      [| now apply IH].
    unfold bind at 1. unfold lift.
    destruct (set_min at_final) as [start_idx| |] eqn:Emin; try discriminate.
    cbn [res_map res_bind].
    destruct (negb _) eqn:Eword; [| now apply IH].
    unfold bind at 1.
    destruct (test_word fuel self _ h) as [[matched h3]| |] eqn:Etest; try discriminate.
    pose proof (reads_only_test_word _ _ _ _ _ _ Etest) as ->.
    destruct matched; [| now apply IH].
    intros Hrun span Hspan.
    destruct (IH _ _ _ _ Hrest Hsd' Hrun span Hspan) as [Hin|Hok]; [| now right].
    apply elem_of_app in Hin as [Hin|Hin]; [now left |].
    apply list_elem_of_singleton in Hin. subst span. right.
    apply set_min_spec in Emin as [Hmin _].
    pose proof (Hsd' _ _ _ Efinal Hmin) as Hlow.
    apply negb_true_iff, String.eqb_neq in Eword.
    apply slice_nonempty in Eword as Hlt; [| lia | lia].
    unfold verified_span. simpl. split; [lia |]. split; [lia | exact Etest].
Qed.

Lemma enumerate_from_range : forall (s : string) (k i : Z) (c : ascii),
  (i, c) ∈ Py.enumerate_from k s -> k <= i < k + Py.len s.
Proof.
  induction s as [|x s IH]; intros k i c Hin; simpl in Hin; [set_solver |].
  unfold Py.len in *. simpl String.length. rewrite Nat2Z.inj_succ.
  apply elem_of_cons in Hin as [[= -> ->]|Hin]; [lia |].
  apply IH in Hin. lia.
Qed.

(** Every span that [matching] returns lies within the text, is not empty,
    and its substring is accepted by [test_word]. *)
Theorem matching_spans_verified (fuel : nat) (self : t) (text : string)
    (h : store) (l : list (Z * Z)) (h' : store) :
  matching fuel self text h = Ok (l, h') ->
  forall span, span ∈ l -> verified_span fuel self text h span.
Proof.
  intros Hrun [start e] Hspan.
  destruct (matching_spans _ _ _ _ _ _ Hrun) as (made & Hrec & _ & -> & Hsorted).
  assert (Hmade : (start, e) ∈ made).
  { apply dict_get_elem in Hspan; [| apply record_all_nodup_keys; constructor].
    rewrite record_all_get in Hspan.
    destruct (dict_get (rev made) start) as [e'|] eqn:Erev; [| discriminate].
    injection Hspan as ->. now apply (last_recording made start e Hsorted). }
  unfold recordings, bind in Hrec.
  destruct (closure fuel _ h) as [[sd h1]| |] eqn:Eclosure; try discriminate.
  pose proof (reads_only_closure _ _ _ _ _ Eclosure) as ->.
  destruct (recordings_loop_verified fuel self text h _ _ _ _ _
              (fun i c Hin => enumerate_from_range text 0 i c Hin)
              (indexes_from_closure _ _ _ _ _ (-1) Eclosure ltac:(
                 intros t ms m Ht Hm; simpl in Ht; case_decide; [| discriminate];
                 injection Ht as <-; apply elem_of_singleton in Hm; lia))
              Hrec _ Hmade) as [Hin|Hok]; [set_solver | exact Hok].
Qed.

Lemma matching_spans_verified_witness :
  verified_span gas abstara "xaabay" abstara_store (1, 3) /\
  verified_span gas abstara "xaabay" abstara_store (2, 5).
Proof.
  assert (Hrun : matching gas abstara "xaabay" abstara_store =
                 Ok ([(1, 3); (2, 5)], abstara_store)) by (vm_compute; reflexivity).
  split; apply (matching_spans_verified _ _ _ _ _ _ Hrun); set_solver.
Defined.

End Search.

(** ** Validation *)

Section Validation.
Import RegexIterator ValidCharacters.

(** Every early [return] of the scan rejects. *)
Lemma regex_correct_step_rejects regex i letter st r :
  regex_correct_step regex i letter st = inl r -> fst r = false.
Proof.
  unfold regex_correct_step.
  repeat match goal with
         | |- context [if ?b then _ else _] => destruct b
         end;
    intros [= <-]; reflexivity.
Qed.

Lemma regex_correct_step_alphabet regex i letter st :
  ALL_SYMBOLS letter = false ->
  exists msg, regex_correct_step regex i letter st = inl (false, msg).
Proof.
  intros Hbad. unfold regex_correct_step. rewrite Hbad. cbn [negb].
  destruct (in_square st && negb (VALID_SYMBOLS letter) && negb (Ascii.eqb letter "]"));
    eauto.
Qed.

Lemma regex_correct_step_continues regex i letter st st' :
  0 <= i ->
  regex_correct_step regex i letter st = inr st' ->
  ALL_SYMBOLS letter = true /\
  (in_square st = true -> VALID_SYMBOLS letter = true \/ letter = "]"%char) /\
  (letter = BACK_SLASH ->
     char_in CLASS_SYMBOLS (Py.index regex (i + 1)) = true /\ Py.len regex ≠ i + 1) /\
  (META_SYMBOLS letter = true ->
     i ≠ 0 /\
     (Py.len regex = i + 1 \/ char_in META_SYMBOLS (Py.index regex (i + 1)) = false) /\
     (char_in VALID_SYMBOLS (Py.index regex (i - 1)) ||
      char_is ")"%char (Py.index regex (i - 1)) ||
      char_is "]"%char (Py.index regex (i - 1))) = true) /\
  parentheses_round st' =
    parentheses_round st + (if Ascii.eqb letter "(" then 1 else 0)
                         - (if Ascii.eqb letter ")" then 1 else 0) /\
  parentheses_square st' =
    parentheses_square st + (if Ascii.eqb letter "[" then 1 else 0)
                          - (if Ascii.eqb letter "]" then 1 else 0) /\
  in_square st' =
    (if Ascii.eqb letter "]" then false
     else if Ascii.eqb letter "[" then true else in_square st).
Proof.
  unfold regex_correct_step. intros Hi H.
  destruct (ALL_SYMBOLS letter) eqn:Hall;
    [| destruct (in_square st && _ && _); discriminate].
  destruct (in_square st) eqn:Hsq, (VALID_SYMBOLS letter) eqn:Hvalid,
    (Ascii.eqb_spec letter "]"), (Ascii.eqb_spec letter "("),
    (Ascii.eqb_spec letter ")"), (Ascii.eqb_spec letter "["),
    (Ascii.eqb_spec letter BACK_SLASH);
    subst; try discriminate; cbn in H;
    repeat match type of H with
           | context [if ?b then _ else _] => destruct b eqn:?
           end; try discriminate; injection H as <-; cbn.
  all: repeat match goal with
              | |- _ /\ _ => split
              end; try reflexivity; try lia; try (intros; congruence); try (intros; now left);
         try (intros; now right).
  all: try (intros _;
            match goal with
            | Hb : (_ =? _) || negb _ = false |- _ =>
                apply orb_false_iff in Hb as [Hlen Hcls];
                rewrite Hlen in Hcls; apply negb_false_iff in Hcls;
                apply Z.eqb_neq in Hlen; split; assumption
            end).
  all: intros Hmeta; rewrite Hmeta in *; cbn [andb] in *.
  all: match goal with
       | Hb : _ || (_ =? 0) = false |- _ =>
           apply orb_false_iff in Hb as [Hnext Hzero]; apply Z.eqb_neq in Hzero
       end.
  all: split; [exact Hzero |]; split.
  all: try (match goal with |- _ = _ \/ _ => idtac end;
            match type of Hnext with
            | context [negb (?a =? ?b)] =>
                destruct (a =? b) eqn:Hlen;
                [left; now apply Z.eqb_eq | right; exact Hnext]
            end).
  all: match goal with
       | Hb : (0 <? ?z) && _ = false |- _ =>
           replace (0 <? z) with true in Hb by (symmetry; apply Z.ltb_lt; lia);
           cbn [andb] in Hb
       end.
  all: destruct (char_in VALID_SYMBOLS _), (char_is ")" _), (char_is "]" _);
       try reflexivity; discriminate.
Qed.


Lemma enumerate_chars : forall (s : string) (k : Z),
  map snd (Py.enumerate_from k s) = Py.chars s.
Proof. induction s as [|c s IH]; intros k; simpl; [reflexivity | now rewrite IH]. Qed.

Lemma enumerate_from_nonneg : forall (s : string) (k i : Z) (c : ascii),
  0 <= k -> (i, c) ∈ Py.enumerate_from k s -> 0 <= i.
Proof.
  induction s as [|x s IH]; intros k i c Hk Hin; simpl in Hin; [set_solver |].
  apply elem_of_cons in Hin as [[= -> ->]|Hin]; [lia |].
  apply (IH (k + 1) i c); [lia | exact Hin].
Qed.

Lemma regex_correct_loop_rejects regex : forall todo st,
  (exists i c, (i, c) ∈ todo /\ ALL_SYMBOLS c = false) ->
  fst (regex_correct_loop regex todo st) = false.
Proof.
  induction todo as [|[j letter] rest IH]; intros st (i & c & Hin & Hbad); [set_solver |].
  simpl. destruct (regex_correct_step regex j letter st) as [r|st'] eqn:Estep.
  - eapply regex_correct_step_rejects. exact Estep.
  - apply elem_of_cons in Hin as [[= -> ->]|Hin].
    + destruct (regex_correct_step_alphabet regex j letter st Hbad) as [msg Hmsg].
      congruence.
    + apply IH. eauto.
Qed.

(** A pattern with a character outside [ALL_SYMBOLS] is rejected by the scan,
    and the constructor raises [ValueError]. *)
Theorem regex_correct_alphabet (regex : string) (c : ascii) (fuel : nat) :
  c ∈ Py.chars regex ->
  ALL_SYMBOLS c = false ->
  fst (regex_correct regex) = false /\
  exists msg, init fuel regex = Raise (ValueError msg).
Proof.
  intros Hin Hbad.
  assert (Hrej : fst (regex_correct regex) = false).
  { apply regex_correct_loop_rejects.
    rewrite <- (enumerate_chars regex 0) in Hin.
    apply list_elem_of_fmap in Hin as ([i c'] & -> & Hin). eauto. }
  split; [exact Hrej |].
  unfold init. destruct regex as [|x regex]; [inversion Hin |].
  simpl String.eqb. destruct (regex_correct (String x regex)) as [correct msg].
  simpl in Hrej. subst correct. simpl. eauto.
Qed.

Lemma regex_correct_alphabet_witness :
  fst (regex_correct "ab#c") = false /\
  exists msg, init gas "ab#c" = Raise (ValueError msg).
Proof.
  apply (regex_correct_alphabet "ab#c" "#"%char gas).
  - vm_compute. set_solver.
  - reflexivity.
Defined.

Lemma index_at_len (s : string) : Py.index s (Py.len s) = None.
Proof.
  unfold Py.len. rewrite index_nat.
  induction s as [|c s IH]; [reflexivity | exact IH].
Qed.

Lemma regex_correct_loop_accepted regex : forall todo st msg,
  (forall i c, (i, c) ∈ todo -> 0 <= i) ->
  regex_correct_loop regex todo st = (true, msg) ->
  (parentheses_round st
   + Z.of_nat (count_occ Ascii.ascii_dec (map snd todo) "("%char)
   - Z.of_nat (count_occ Ascii.ascii_dec (map snd todo) ")"%char) = 0 /\
   parentheses_square st
   + Z.of_nat (count_occ Ascii.ascii_dec (map snd todo) "["%char)
   - Z.of_nat (count_occ Ascii.ascii_dec (map snd todo) "]"%char) = 0) /\
  forall i c, (i, c) ∈ todo ->
    ALL_SYMBOLS c = true /\
    (c = BACK_SLASH -> char_in CLASS_SYMBOLS (Py.index regex (i + 1)) = true) /\
    (META_SYMBOLS c = true ->
       i ≠ 0 /\
       char_in META_SYMBOLS (Py.index regex (i + 1)) = false /\
       (char_in VALID_SYMBOLS (Py.index regex (i - 1)) ||
        char_is ")"%char (Py.index regex (i - 1)) ||
        char_is "]"%char (Py.index regex (i - 1))) = true).
Proof.
  induction todo as [|[j letter] rest IH]; intros st msg Hpos Hrun.
  - simpl in Hrun. injection Hrun as Hbal _.
    apply andb_true_iff in Hbal as [Hsq Hrd].
    apply Z.eqb_eq in Hsq, Hrd. simpl. split; [lia | set_solver].
  - simpl in Hrun.
    destruct (regex_correct_step regex j letter st) as [r|st'] eqn:Estep.
    { apply regex_correct_step_rejects in Estep. subst r. discriminate. }
    apply regex_correct_step_continues in Estep
      as (Hall & _ & Hbs & Hmeta & Hrd & Hsq & _); [| apply (Hpos j letter); set_solver].
    destruct (IH st' msg) as [[Hr Hs] Hrest];
      [intros i c Hin; apply (Hpos i c); set_solver | exact Hrun |].
    split.
    + simpl map. cbn [count_occ].
      rewrite Hrd, Hsq in *.
      destruct (Ascii.eqb_spec letter "("), (Ascii.eqb_spec letter ")"),
        (Ascii.eqb_spec letter "["), (Ascii.eqb_spec letter "]"); subst;
        try discriminate;
        repeat match goal with
               | |- context [Ascii.ascii_dec ?a ?b] =>
                   destruct (Ascii.ascii_dec a b); try congruence
               end; rewrite ?Nat2Z.inj_succ; lia.
    + intros i c [[= -> ->]|Hin]%elem_of_cons; [| now apply Hrest].
      split; [exact Hall |]. split.
      * intros Hc. now apply Hbs.
      * intros Hm. destruct (Hmeta Hm) as (Hz & Hnext & Hprev).
        split; [exact Hz |]. split; [| exact Hprev].
        destruct Hnext as [Hlen|Hnext]; [| exact Hnext].
        rewrite <- Hlen, index_at_len. reflexivity.
Qed.

(** A pattern that the scan accepts uses only the alphabet, has as many
    opening as closing round brackets and as many opening as closing square
    brackets, follows every backslash by a class symbol, and has every
    quantifier after the first position, directly after a literal symbol or a
    closing bracket, and not directly before another quantifier. *)
Theorem regex_correct_accepted (regex : string) :
  fst (regex_correct regex) = true ->
  count_occ Ascii.ascii_dec (Py.chars regex) "("%char =
    count_occ Ascii.ascii_dec (Py.chars regex) ")"%char /\
  count_occ Ascii.ascii_dec (Py.chars regex) "["%char =
    count_occ Ascii.ascii_dec (Py.chars regex) "]"%char /\
  forall i c, (i, c) ∈ Py.enumerate regex ->
    ALL_SYMBOLS c = true /\
    (c = BACK_SLASH -> char_in CLASS_SYMBOLS (Py.index regex (i + 1)) = true) /\
    (META_SYMBOLS c = true ->
       i ≠ 0 /\
       char_in META_SYMBOLS (Py.index regex (i + 1)) = false /\
       (char_in VALID_SYMBOLS (Py.index regex (i - 1)) ||
        char_is ")"%char (Py.index regex (i - 1)) ||
        char_is "]"%char (Py.index regex (i - 1))) = true).
Proof.
  intros Hok. unfold regex_correct in Hok.
  destruct (regex_correct_loop regex (Py.enumerate regex) scan0) as [b msg] eqn:Erun.
  simpl in Hok. subst b.
  apply regex_correct_loop_accepted in Erun as [[Hr Hs] Hrest].
  - unfold Py.enumerate in Hr, Hs. rewrite enumerate_chars in Hr, Hs. simpl in Hr, Hs.
    split; [lia |]. split; [lia | exact Hrest].
  - intros i c Hin. eapply enumerate_from_nonneg; [| exact Hin]. lia.
Qed.

Lemma regex_correct_accepted_witness :
  count_occ Ascii.ascii_dec (Py.chars "\d+(a[bc])?") "("%char =
    count_occ Ascii.ascii_dec (Py.chars "\d+(a[bc])?") ")"%char /\
  char_in CLASS_SYMBOLS (Py.index "\d+(a[bc])?" (0 + 1)) = true.
Proof.
  destruct (regex_correct_accepted "\d+(a[bc])?" eq_refl) as (Hround & _ & Hpos).
  split; [exact Hround |].
  apply (Hpos 0 BACK_SLASH); [vm_compute; set_solver | reflexivity].
Defined.

End Validation.

(** ** Canonicalization *)

Section Canonicalization.
Import RegexIterator ValidCharacters.

Lemma convert_loop_plain (text : string) (pb : list (Z * Z)) : forall fuel i,
  (forall j c, (i <= j)%nat -> String.get j text = Some c -> plain c) ->
  (i <= String.length text)%nat ->
  (String.length text - i < fuel)%nat ->
  convert_loop fuel text pb (Z.of_nat i) = Ok (text, pb).
Proof.
  induction fuel as [|fuel IH]; intros i Hplain Hle Hfuel; [lia |].
  cbn [convert_loop]. unfold Py.len.
  destruct (decide (i = String.length text)) as [->|Hne].
  - now rewrite Z.ltb_irrefl.
  - replace (Z.of_nat i <? Z.of_nat (String.length text)) with true
      by (symmetry; apply Z.ltb_lt; lia).
    cbn [negb]. rewrite index_nat.
    destruct (get_in_range text i) as [c Hc]; [lia |]. rewrite Hc.
    destruct (Hplain i c (Nat.le_refl i) Hc) as (H1 & H2 & H3 & H4).
    rewrite (proj2 (Ascii.eqb_neq c "[") H1), (proj2 (Ascii.eqb_neq c "(") H2),
      (proj2 (Ascii.eqb_neq c ONE_CLOSURE) H3), (proj2 (Ascii.eqb_neq c ONE_OR_NONE) H4).
    replace (Z.of_nat i + 1) with (Z.of_nat (S i)) by lia.
    apply IH; [| lia | lia].
    intros j c' Hj. apply Hplain. lia.
Qed.

Lemma get_chars (s : string) : forall (i : nat) (c : ascii),
  String.get i s = Some c -> c ∈ Py.chars s.
Proof.
  induction s as [|x s IH]; intros i c Hget; simpl in *; [discriminate |].
  destruct i as [|i]; [injection Hget as ->; set_solver |].
  apply IH in Hget. set_solver.
Qed.


Lemma str_app_cons (x : ascii) (a b : string) :
  String x a +:+ b = String x (a +:+ b).
Proof. reflexivity. Qed.

Lemma str_app_nil_l (b : string) : "" +:+ b = b.
Proof. reflexivity. Qed.

Lemma str_length_app (a b : string) :
  String.length (a +:+ b) = (String.length a + String.length b)%nat.
Proof.
  induction a as [|x a IH]; [reflexivity |].
  rewrite str_app_cons. simpl. now rewrite IH.
Qed.

Lemma str_app_assoc (a b c : string) : (a +:+ b) +:+ c = a +:+ (b +:+ c).
Proof.
  induction a as [|x a IH]; [reflexivity |].
  rewrite !str_app_cons. now rewrite IH.
Qed.

Lemma str_app_nil_r (a : string) : a +:+ "" = a.
Proof.
  induction a as [|x a IH]; [reflexivity |].
  rewrite str_app_cons. now rewrite IH.
Qed.

Lemma get_app_r (a b : string) (j : nat) :
  String.get (String.length a + j) (a +:+ b) = String.get j b.
Proof.
  induction a as [|x a IH]; [reflexivity |].
  rewrite str_app_cons. exact IH.
Qed.

Lemma get_app_l (a b : string) : forall j : nat,
  (j < String.length a)%nat -> String.get j (a +:+ b) = String.get j a.
Proof.
  induction a as [|x a IH]; intros j Hj; [simpl in Hj; lia |].
  rewrite str_app_cons. destruct j as [|j]; [reflexivity |].
  simpl in *. apply IH. lia.
Qed.

Lemma substring_skip (a s : string) (n m : nat) :
  String.substring (String.length a + n) m (a +:+ s) = String.substring n m s.
Proof.
  induction a as [|x a IH]; [reflexivity |].
  rewrite str_app_cons. exact IH.
Qed.

Lemma substring_prefix (b c : string) :
  String.substring 0 (String.length b) (b +:+ c) = b.
Proof.
  induction b as [|x b IH].
  - rewrite str_app_nil_l. now destruct c.
  - rewrite str_app_cons. simpl. now rewrite IH.
Qed.

Lemma substring_all (s : string) : String.substring 0 (String.length s) s = s.
Proof. rewrite <- (str_app_nil_r s) at 2. apply substring_prefix. Qed.

Lemma find_square_end_body (a body rest : string) : forall fuel k,
  (forall c, c ∈ Py.chars body -> c ≠ "]"%char) ->
  (k <= String.length body)%nat ->
  (String.length body - k < fuel)%nat ->
  find_square_end fuel (a +:+ body +:+ "]" +:+ rest)
    (Z.of_nat (String.length a + k)) =
  Ok (Z.of_nat (String.length a + String.length body)).
Proof.
  induction fuel as [|fuel IH]; intros k Hbody Hk Hfuel; [lia |].
  cbn [find_square_end]. rewrite index_nat, get_app_r.
  destruct (decide (k = String.length body)) as [->|Hne].
  - replace (String.length body) with (String.length body + 0)%nat at 1 by lia.
    rewrite get_app_r. reflexivity.
  - rewrite get_app_l by lia.
    destruct (get_in_range body k) as [c Hc]; [lia |]. rewrite Hc.
    rewrite (proj2 (Ascii.eqb_neq c "]")) by (eapply Hbody, get_chars; exact Hc).
    replace (Z.of_nat (String.length a + k) + 1)
      with (Z.of_nat (String.length a + S k)) by lia.
    apply IH; [exact Hbody | lia | lia].
Qed.

(** A bracket class becomes the parenthesized alternation of its characters;
    characters that need no rewriting follow it unchanged.  The position of
    the closing parenthesis is remembered with the position of the opening
    one. *)
Theorem canonicalize_bracket_class (body rest : string) (fuel : nat) :
  (forall c, c ∈ Py.chars body -> c ≠ "]"%char) ->
  (forall c, c ∈ Py.chars rest -> plain c) ->
  (String.length body + String.length rest + 2 < fuel)%nat ->
  let pattern := "(" +:+ Py.join "+" (Py.chars body) +:+ ")" in
  convert_to_standard_re_helper fuel ("[" +:+ body +:+ "]" +:+ rest) =
  Ok (pattern +:+ rest, [(Py.len pattern - 1, 0)]).
Proof.
  intros Hbody Hrest Hfuel pattern.
  destruct fuel as [|fuel]; [lia |].
  unfold convert_to_standard_re_helper. cbn [convert_loop].
  set (text := "[" +:+ body +:+ "]" +:+ rest).
  assert (Hlen : String.length text = S (String.length body + S (String.length rest))).
  { unfold text. rewrite !str_length_app. simpl. lia. }
  replace (0 <? Py.len text) with true
    by (symmetry; apply Z.ltb_lt; unfold Py.len; lia).
  cbn [negb]. change (Py.index text 0) with (Some "["%char).
  cbv beta iota. rewrite Ascii.eqb_refl.
  change (0 + 1) with (Z.of_nat (String.length "[" + 0)).
  unfold text at 1.
  rewrite (find_square_end_body "[" body rest fuel 0 Hbody) by lia.
  cbn [res_bind]. fold text.
  assert (Hslice : Py.slice text (Z.of_nat (String.length "[" + 0))
                     (Z.of_nat (String.length "[" + String.length body)) = body).
  { unfold Py.slice, Py.clamp, Py.len. rewrite Hlen. simpl String.length.
    replace (Z.of_nat (1 + 0) <? 0) with false by reflexivity.
    replace (Z.of_nat (1 + String.length body) <? 0) with false
      by (symmetry; apply Z.ltb_ge; lia).
    replace (Z.to_nat (Z.min (Z.of_nat (1 + 0)) _)) with 1%nat by lia.
    replace (Z.to_nat (Z.min (Z.of_nat (1 + String.length body)) _))
      with (1 + String.length body)%nat by lia.
    replace (1 + String.length body - 1)%nat with (String.length body) by lia.
    unfold text. change 1%nat with (String.length "[" + 0)%nat at 1.
    rewrite (substring_skip "[" _ 0). apply substring_prefix. }
  rewrite Hslice. fold pattern.
  assert (Hto : Py.slice_to text 0 = "").
  { exact (substring_zero text 0). }
  rewrite Hto.
  assert (Hfrom : Py.slice_from text
                    (Z.of_nat (String.length "[" + String.length body) + 1) = rest).
  { unfold Py.slice_from, Py.clamp, Py.len. rewrite Hlen. simpl String.length.
    replace (Z.of_nat (1 + String.length body) + 1 <? 0) with false
      by (symmetry; apply Z.ltb_ge; lia).
    replace (Z.to_nat (Z.min (Z.of_nat (1 + String.length body) + 1) _))
      with (String.length ("[" +:+ body +:+ "]") + 0)%nat
      by (rewrite !str_length_app; simpl; lia).
    replace (S (String.length body + S (String.length rest))
             - (String.length ("[" +:+ body +:+ "]") + 0))%nat
      with (String.length rest)
      by (rewrite !str_length_app; simpl; lia).
    unfold text.
    replace ("[" +:+ body +:+ "]" +:+ rest) with (("[" +:+ body +:+ "]") +:+ rest)
      by (now rewrite !str_app_assoc).
    rewrite substring_skip. apply substring_all. }
  rewrite Hfrom. cbn [String.append dict_set].
  change (String "(" (Py.join "+" (Py.chars body) +:+ ")")) with pattern.
  replace (0 - 1 + Py.len pattern + 1) with (Z.of_nat (String.length pattern))
    by (unfold Py.len; lia).
  replace (0 - 1 + Py.len pattern) with (Py.len pattern - 1) by lia.
  apply convert_loop_plain.
  - intros j c Hj Hget. apply Hrest.
    replace j with (String.length pattern + (j - String.length pattern))%nat in Hget by lia.
    rewrite get_app_r in Hget. eapply get_chars. exact Hget.
  - rewrite str_length_app. lia.
  - rewrite str_length_app. lia.
Qed.


Lemma canonicalize_bracket_class_witness :
  RegexIterator.convert_to_standard_re_helper gas "[abc]d*" =
  Ok ("(a+b+c)d*", [(6, 0)]).
Proof.
  apply (canonicalize_bracket_class "abc" "d*" gas).
  - intros c Hc. vm_compute in Hc. set_solver.
  - intros c Hc. vm_compute in Hc. unfold plain. set_solver.
  - vm_compute. lia.
Defined.

(** A pattern without bracket, parenthesis, [+] or [?] is its own canonical
    form: literals, escapes and the Kleene star pass through unchanged, and
    no parenthesis position is remembered. *)
Theorem canonicalize_plain (text : string) (fuel : nat) :
  (forall c, c ∈ Py.chars text -> plain c) ->
  (String.length text < fuel)%nat ->
  convert_to_standard_re_helper fuel text = Ok (text, []).
Proof.
  intros Hplain Hfuel. unfold convert_to_standard_re_helper.
  apply (convert_loop_plain text [] fuel 0%nat); [| lia | lia].
  intros j c _ Hget. eapply Hplain, get_chars. exact Hget.
Qed.

Lemma canonicalize_plain_witness :
  RegexIterator.convert_to_standard_re_helper gas "a\db*" = Ok ("a\db*", []).
Proof.
  apply (canonicalize_plain "a\db*" gas).
  - intros c Hc. vm_compute in Hc. unfold plain. set_solver.
  - vm_compute. lia.
Defined.

End Canonicalization.

(** ** Deep copies *)

Section DeepCopy.
Import Automaton.
Variable h : store.













Lemma position_first (r : ref) : forall (l : list ref) (k : nat),
  position r l = Some k -> forall j x, (j < k)%nat -> l !! j = Some x -> x ≠ r.
Proof.
  induction l as [|y l IH]; intros k Hpos j x Hj Hx; simpl in Hpos; [discriminate |].
  destruct (decide (y = r)) as [->|Hne]; [injection Hpos as <-; lia |].
  destruct (position r l) as [k'|] eqn:E; [| discriminate].
  injection Hpos as <-. destruct j as [|j]; simpl in Hx.
  - injection Hx as <-. exact Hne.
  - eapply IH; [reflexivity | | exact Hx]. lia.
Qed.





End DeepCopy.

Section Operators.
Import Automaton.







End Operators.

(** ** The epsilon-cycle check *)

Section AcyclicCheck.
Import Automaton.
Variable h : store.

Lemma sn_no_cycle (s : ref) : sn (eps_edge h) s -> ~ tc (eps_edge h) s s.
Proof.
  induction 1 as [s _ IH]. intros Hcycle.
  assert (exists t, eps_edge h s t /\ rtc (eps_edge h) t s) as (t & Hst & Hts).
  { inversion Hcycle as [? ? Hedge|? t ? Hedge Hback]; subst.
    - exists s. split; [exact Hedge | reflexivity].
    - exists t. split; [exact Hedge | now apply tc_rtc]. }
  apply (IH t Hst). eapply tc_rtc_l; [exact Hts |]. now apply tc_once.
Qed.

Lemma eps_edge_trans_edge s t : eps_edge h s t -> trans_edge h s t.
Proof.
  unfold eps_edge, eps_targets, trans_edge. intros Ht.
  destruct (dict_get _ State.EPSILON) as [l|] eqn:El; [eauto | set_solver].
Qed.

Lemma eps_reach_trans_reach s t : rtc (eps_edge h) s t -> rtc (trans_edge h) s t.
Proof.
  induction 1 as [|s u t Hsu _ IH]; [reflexivity |].
  eapply rtc_l; [apply eps_edge_trans_edge; exact Hsu | exact IH].
Qed.

Lemma trans_edge_universe init s t : trans_edge h s t -> t ∈ universe h init.
Proof.
  intros (label & l & Hl & Ht). unfold universe, state_at in *.
  destruct (h !! s) as [st|] eqn:Est; [| discriminate].
  apply elem_of_union_r, elem_of_list_to_set, list_elem_of_In, in_concat.
  exists (targets st). split.
  - apply in_map, list_elem_of_In. eapply list_elem_of_lookup_2; exact Est.
  - apply list_elem_of_In. unfold targets. apply list_elem_of_In, in_concat.
    exists l. split; [| now apply list_elem_of_In].
    clear Est. induction (State.trans st) as [|[k0 l0] d IH]; [discriminate |].
    simpl in *. destruct (decide (k0 = label)); [left; congruence | right; auto].
Qed.

Lemma has_epsilon_cycle_step f node v p :
  has_epsilon_cycle (S f) node v p h =
  each_neighbour (has_epsilon_cycle f) node (eps_targets h node) ({[node]} ∪ v) p h.
Proof.
  cbn [has_epsilon_cycle]. unfold bind at 1, StateOps.get, eps_targets.
  destruct (dict_get _ State.EPSILON); reflexivity.
Qed.

Section Depth.
Variable U : gset ref.
Hypothesis Hclosed : forall s t, s ∈ U -> eps_edge h s t -> t ∈ U.

(** A call on a state that was not visited returns when the fuel covers the
    states not visited yet.  A [True] comes with a cycle that the state
    reaches; after a [False] the state is processed, every processed state
    is free of cycles, and [visited] has grown by processed states only. *)
Lemma has_epsilon_cycle_run : forall fuel node v p,
  node ∈ U -> node ∉ v -> (size (U ∖ v) <= fuel)%nat ->
  (forall s, s ∈ p -> sn (eps_edge h) s) ->
  (forall s, s ∈ v -> s ∉ p -> rtc (eps_edge h) s node) ->
  exists r v' p',
    has_epsilon_cycle fuel node v p h = Ok ((r, v', p'), h) /\
    {[node]} ∪ v ⊆ v' /\
    if r then exists c, rtc (eps_edge h) node c /\ tc (eps_edge h) c c
    else p ⊆ p' /\ node ∈ p' /\ (forall s, s ∈ p' -> sn (eps_edge h) s) /\
         (forall s, s ∈ v' -> s ∉ p' -> s ∈ v /\ s ∉ p).
Proof.
  induction fuel as [|f IHf]; intros node v p HnodeU Hnew Hfuel Hsn Hstack.
  { assert (Hsize : size (U ∖ v) ≠ 0%nat).
    { apply size_non_empty_iff. intros Hempty. set_solver. }
    lia. }
  rewrite has_epsilon_cycle_step.
  assert (Hloop : forall nbhs vc pc,
    (forall t, t ∈ nbhs -> eps_edge h node t) ->
    (forall t, eps_edge h node t -> t ∈ pc \/ t ∈ nbhs) ->
    {[node]} ∪ v ⊆ vc -> p ⊆ pc ->
    (forall s, s ∈ pc -> sn (eps_edge h) s) ->
    (forall s, s ∈ vc -> s ∉ pc -> s = node \/ (s ∈ v /\ s ∉ p)) ->
    exists r v' p',
      each_neighbour (has_epsilon_cycle f) node nbhs vc pc h = Ok ((r, v', p'), h) /\
      vc ⊆ v' /\
      if r then exists c, rtc (eps_edge h) node c /\ tc (eps_edge h) c c
      else p ⊆ p' /\ node ∈ p' /\ (forall s, s ∈ p' -> sn (eps_edge h) s) /\
           (forall s, s ∈ v' -> s ∉ p' -> s ∈ v /\ s ∉ p)).
  { induction nbhs as [|nbh rest IHn]; intros vc pc Hedges Hdone Hvc Hpc Hsnc Hgrey.
    - exists false, vc, ({[node]} ∪ pc). split; [reflexivity |].
      split; [set_solver |]. split; [set_solver |]. split; [set_solver |]. split.
      + intros s [Hs|Hs]%elem_of_union; [| now apply Hsnc].
        apply elem_of_singleton in Hs. subst s. constructor. intros t Ht.
        destruct (Hdone t Ht) as [Hin|Hin]; [now apply Hsnc | set_solver].
      + intros s Hs Hnot. destruct (Hgrey s Hs) as [-> | Hold]; set_solver.
    - cbn [each_neighbour]. destruct (decide _) as [Hproc|Hproc].
      + apply IHn; try assumption.
        * intros t Ht. apply Hedges. set_solver.
        * intros t Ht. destruct (Hdone t Ht) as [Hin|Hin]; [now left |].
          apply elem_of_cons in Hin as [-> | Hin]; [now left | now right].
      + assert (Hnbh : eps_edge h node nbh) by (apply Hedges; set_solver).
        destruct (decide _) as [Hvis|Hvis].
        * exists true, vc, pc. split; [reflexivity |]. split; [set_solver |].
          exists node. split; [reflexivity |].
          destruct (Hgrey nbh Hvis Hproc) as [-> | [Hv Hp]]; [now apply tc_once |].
          eapply tc_rtc_r; [apply tc_once; exact Hnbh | now apply Hstack].
        * destruct (IHf nbh vc pc) as (r1 & v1 & p1 & Hrun & Hv1 & Hpost).
          { eapply Hclosed; eassumption. }
          { exact Hvis. }
          { assert (Hlt : (size (U ∖ vc) < size (U ∖ v))%nat).
            { apply subset_size. split; [set_solver |].
              intros Hsub. specialize (Hsub node). set_solver. }
            lia. }
          { exact Hsnc. }
          { intros s Hs Hnot. destruct (Hgrey s Hs Hnot) as [-> | [Hv Hp]].
            - now apply rtc_once.
            - eapply rtc_r; [now apply Hstack | exact Hnbh]. }
          unfold bind at 1. rewrite Hrun. destruct r1.
          -- exists true, v1, p1. split; [reflexivity |]. split; [set_solver |].
             destruct Hpost as (c & Hreach & Hcycle). exists c.
             split; [eapply rtc_l; eassumption | exact Hcycle].
          -- destruct Hpost as (Hp1 & Hin1 & Hsn1 & Hgrey1).
             destruct (IHn ({[nbh]} ∪ v1) p1) as (r & v' & p' & Hrun' & Hv' & Hpost').
             { intros t Ht. apply Hedges. set_solver. }
             { intros t Ht. destruct (Hdone t Ht) as [Hin|Hin]; [left; set_solver |].
               apply elem_of_cons in Hin as [-> | Hin]; [now left | now right]. }
             { set_solver. }
             { set_solver. }
             { exact Hsn1. }
             { intros s [Hs|Hs]%elem_of_union Hnot; [set_solver |].
               destruct (Hgrey1 s Hs Hnot) as [Hvc' Hpc']. now apply Hgrey. }
             exists r, v', p'. split; [exact Hrun' |]. split; [set_solver | exact Hpost']. }
  destruct (Hloop (eps_targets h node) ({[node]} ∪ v) p)
    as (r & v' & p' & Hrun & Hv' & Hpost).
  - intros t Ht. exact Ht.
  - intros t Ht. now right.
  - set_solver.
  - set_solver.
  - exact Hsn.
  - intros s [Hs|Hs]%elem_of_union Hnot; [left; set_solver | right; now split].
  - exists r, v', p'. split; [exact Hrun |]. split; [exact Hv' | exact Hpost].
Qed.

Lemma is_acyclic_loop_run fuel : (size U <= fuel)%nat ->
  forall nodes v p,
    (forall n, n ∈ nodes -> n ∈ U) -> v ⊆ p ->
    (forall s, s ∈ p -> sn (eps_edge h) s) ->
    exists b,
      is_acyclic_loop fuel nodes v p h = Ok (b, h) /\
      if b then forall n, n ∈ nodes -> sn (eps_edge h) n
      else exists n c, n ∈ nodes /\ rtc (eps_edge h) n c /\ tc (eps_edge h) c c.
Proof.
  intros Hfuel.
  induction nodes as [|node rest IH]; intros v p HU Hvp Hsn.
  - exists true. split; [reflexivity | intros n Hn; set_solver].
  - cbn [is_acyclic_loop]. destruct (decide _) as [Hproc|Hproc].
    + destruct (IH v p) as (b & Hrun & Hpost); [set_solver | exact Hvp | exact Hsn |].
      exists b. split; [exact Hrun |]. destruct b.
      * intros n [-> | Hn]%elem_of_cons; [now apply Hsn | now apply Hpost].
      * destruct Hpost as (n & c & Hn & Hpost). exists n, c. split; [set_solver | exact Hpost].
    + destruct (has_epsilon_cycle_run fuel node v p)
        as (r & v' & p' & Hrun & Hv' & Hpost).
      { apply HU. set_solver. }
      { set_solver. }
      { pose proof (subseteq_size (U ∖ v) U ltac:(set_solver)). lia. }
      { exact Hsn. }
      { intros s Hs Hnot. set_solver. }
      unfold bind at 1. rewrite Hrun. destruct r.
      * exists false. split; [reflexivity |].
        destruct Hpost as (c & Hreach & Hcycle). exists node, c.
        split; [set_solver | split; assumption].
      * destruct Hpost as (Hp' & Hin & Hsn' & Hgrey).
        destruct (IH v' p') as (b & Hrun' & Hpost'); [set_solver | | exact Hsn' |].
        { intros s Hs. destruct (decide (s ∈ p')) as [|Hnot]; [assumption |].
          destruct (Hgrey s Hs Hnot). set_solver. }
        exists b. split; [exact Hrun' |]. destruct b.
        -- intros n [-> | Hn]%elem_of_cons; [now apply Hsn' | now apply Hpost'].
        -- destruct Hpost' as (n & c & Hn & Hpost'). exists n, c.
           split; [set_solver | exact Hpost'].
Qed.

End Depth.

(** *** The traversal that feeds the check *)

Lemma bfs_visit_spec : forall l q v q' v',
  bfs_visit l q v = (q', v') ->
  (forall s, s ∈ v' <-> s ∈ v \/ s ∈ l) /\
  (forall s, s ∈ q' <-> s ∈ q \/ (s ∈ v' /\ s ∉ v)) /\
  (length q' + size v = length q + size v')%nat.
Proof.
  induction l as [|nbh l IH]; intros q v q' v'; cbn [bfs_visit].
  - intros [= <- <-]. split; [set_solver |]. split; [set_solver | lia].
  - destruct (decide _) as [Hin|Hnot]; intros Hrun; apply IH in Hrun.
    + destruct Hrun as (Hv & Hq & Hlen). split; [set_solver |]. split; assumption.
    + destruct Hrun as (Hv & Hq & Hlen).
      split; [set_solver |]. split.
      * intros s. rewrite Hq. rewrite elem_of_app, list_elem_of_singleton.
        split.
        -- intros [[Hs | ->]|[Hs Hn]]; [now left | right | right].
           ++ split; [apply Hv; set_solver | exact Hnot].
           ++ split; [exact Hs | set_solver].
        -- intros [Hs|[Hs Hn]]; [now left; left |].
           destruct (decide (s = nbh)) as [-> | Hne]; [left; now right |].
           right. split; [exact Hs | set_solver].
      * rewrite length_app in Hlen. simpl in Hlen.
        rewrite size_union in Hlen by set_solver.
        rewrite size_singleton in Hlen. lia.
Qed.

Lemma bfs_labels_run node : forall labels q v,
  (forall label, label ∈ labels ->
     is_Some (dict_get (State.trans (state_at h node)) label)) ->
  exists q' v',
    bfs_labels node labels q v h = Ok ((q', v'), h) /\
    (forall s, s ∈ v' <->
       s ∈ v \/
       exists label l, label ∈ labels /\
         dict_get (State.trans (state_at h node)) label = Some l /\ s ∈ l) /\
    (forall s, s ∈ q' <-> s ∈ q \/ (s ∈ v' /\ s ∉ v)) /\
    (length q' + size v = length q + size v')%nat.
Proof.
  induction labels as [|label rest IH]; intros q v Hkeys.
  - exists q, v. split; [reflexivity |]. split; [| split; [set_solver | lia]].
    intros s. split; [now left |]. intros [Hs|(label & l & Hl & _)]; [exact Hs | set_solver].
  - destruct (Hkeys label) as [l Hl]; [set_solver |].
    cbn [bfs_labels]. unfold bind at 1, StateOps.getitem. rewrite Hl.
    destruct (bfs_visit l q v) as [q1 v1] eqn:Evisit.
    apply bfs_visit_spec in Evisit as (Hv1 & Hq1 & Hlen1).
    destruct (IH q1 v1) as (q' & v' & Hrun & Hv' & Hq' & Hlen').
    { intros label' Hin. apply Hkeys. set_solver. }
    exists q', v'. split; [exact Hrun |]. split; [| split].
    + intros s. rewrite Hv', Hv1. split.
      * intros [[Hs|Hs]|(label' & l' & Hin & Hl' & Hs)].
        -- now left.
        -- right. exists label, l. split; [set_solver | now split].
        -- right. exists label', l'. split; [set_solver | now split].
      * intros [Hs|(label' & l' & Hin & Hl' & Hs)]; [now left; left |].
        apply elem_of_cons in Hin as [-> | Hin].
        -- rewrite Hl in Hl'. injection Hl' as <-. left. now right.
        -- right. exists label', l'. split; [exact Hin | now split].
    + intros s. rewrite Hq', Hq1. split.
      * intros [[Hs|[Hs Hn]]|[Hs Hn]]; [now left | right | right].
        -- split; [apply Hv'; now left | exact Hn].
        -- split; [exact Hs |]. intros Hv. apply Hn, Hv1. now left.
      * intros [Hs|[Hs Hn]]; [now left; left |].
        destruct (decide (s ∈ v1)) as [Hin|Hout].
        -- left. right. now split.
        -- right. now split.
    + lia.
Qed.

Section Breadth.
Variables (U : gset ref) (init : ref).
Hypothesis Hclosed : forall s t, s ∈ U -> trans_edge h s t -> t ∈ U.

(** The traversal ends when the fuel covers the queue and the states not
    met yet, and yields exactly the states that [init] reaches. *)
Lemma bfs_loop_run : forall fuel queue visited yielded,
  (length queue + size U < fuel + size visited)%nat ->
  visited ⊆ U ->
  (forall s, s ∈ visited <-> s ∈ queue \/ s ∈ yielded) ->
  (forall s t, s ∈ yielded -> trans_edge h s t -> t ∈ visited) ->
  (forall s, s ∈ visited -> rtc (trans_edge h) init s) ->
  init ∈ visited ->
  exists nodes,
    bfs_loop fuel queue visited yielded h = Ok (nodes, h) /\
    forall s, s ∈ nodes <-> rtc (trans_edge h) init s.
Proof.
  induction fuel as [|f IH]; intros queue visited yielded Hfuel HU Hsplit Hdone Hreach Hinit.
  { pose proof (subseteq_size visited U HU). lia. }
  destruct queue as [|node queue].
  - exists yielded. split; [reflexivity |]. intros s. split.
    + intros Hs. apply Hreach, Hsplit. now right.
    + revert s. apply (rtc_ind_r (fun s => s ∈ yielded) (init : ref)).
      * apply Hsplit in Hinit as [Hin|Hin]; [set_solver | exact Hin].
      * intros s t _ Hst IHs.
        specialize (Hdone _ _ IHs Hst). apply Hsplit in Hdone as [Hin|Hin];
          [set_solver | exact Hin].
  - cbn [bfs_loop]. unfold bind at 1, StateOps.keys.
    destruct (bfs_labels_run node (dict_keys (State.trans (state_at h node))) queue visited)
      as (q' & v' & Hrun & Hv' & Hq' & Hlen).
    { intros label Hin. apply dict_get_keys. now apply list_elem_of_In. }
    unfold bind at 1. rewrite Hrun.
    assert (Hnode : node ∈ visited) by (apply Hsplit; left; set_solver).
    assert (Htargets : forall s, s ∈ v' <-> s ∈ visited \/ trans_edge h node s).
    { intros s. rewrite Hv'. split.
      - intros [Hs|(label & l & _ & Hl & Hs)]; [now left | right].
        exists label, l. now split.
      - intros [Hs|(label & l & Hl & Hs)]; [now left | right].
        exists label, l. split; [| now split].
        apply list_elem_of_In, dict_get_keys. eauto. }
    apply IH.
    + simpl in Hfuel. lia.
    + intros s [Hs|Hs]%Htargets; [now apply HU |].
      eapply Hclosed; [apply HU; exact Hnode | exact Hs].
    + intros s. rewrite Hq', elem_of_app, list_elem_of_singleton. split.
      * intros Hs. destruct (decide (s ∈ visited)) as [Hin|Hout].
        -- apply Hsplit in Hin as [Hin|Hin]; [| now right; left].
           apply elem_of_cons in Hin as [-> | Hin]; [right; now right | left; now left].
        -- left. right. now split.
      * intros [[Hs|[Hs _]]|[Hs | ->]].
        -- apply Htargets. left. apply Hsplit. left. set_solver.
        -- exact Hs.
        -- apply Htargets. left. apply Hsplit. now right.
        -- apply Htargets. now left.
    + intros s t [Hs|Hs]%elem_of_app Hst.
      * apply Htargets. left. eapply Hdone; eassumption.
      * apply list_elem_of_singleton in Hs. subst s. apply Htargets. now right.
    + intros s [Hs|Hs]%Htargets; [now apply Hreach |].
      eapply rtc_r; [apply Hreach; exact Hnode | exact Hs].
    + apply Htargets. now left.
Qed.

End Breadth.

(** With fuel for every state of the universe, the check returns, and what
    it returns tells whether the initial state reaches a cycle. *)
Lemma is_acyclic_run (self : t) (fuel : nat) :
  (size (universe h (initial self)) < fuel)%nat ->
  exists b,
    is_acyclic fuel self h = Ok (b, h) /\
    if b then forall s, rtc (trans_edge h) (initial self) s -> sn (eps_edge h) s
    else exists c, rtc (trans_edge h) (initial self) c /\ tc (eps_edge h) c c.
Proof.
  intros Hfuel. set (U := universe h (initial self)) in *.
  assert (Hclosed : forall s t, s ∈ U -> trans_edge h s t -> t ∈ U).
  { intros s t _ Hst. eapply trans_edge_universe; exact Hst. }
  assert (Hinit : initial self ∈ U) by (unfold U, universe; set_solver).
  destruct (bfs_loop_run U (initial self) Hclosed fuel [initial self] {[initial self]} [])
    as (nodes & Hbfs & Hnodes).
  { rewrite size_singleton. simpl. lia. }
  { set_solver. }
  { intros s. set_solver. }
  { intros s t Hs. set_solver. }
  { intros s Hs. apply elem_of_singleton in Hs. subst s. reflexivity. }
  { set_solver. }
  destruct (is_acyclic_loop_run U) with (fuel := fuel) (nodes := nodes) (v := (∅ : gset ref))
    (p := (∅ : gset ref)) as (b & Hrun & Hpost).
  { intros s t Hs Hst. eapply Hclosed; [exact Hs | now apply eps_edge_trans_edge]. }
  { lia. }
  { intros n Hn. apply Hnodes in Hn. revert n Hn.
    apply (rtc_ind_r (fun s => s ∈ U) (initial self)); [exact Hinit |].
    intros s t _ Hst IHs. eapply Hclosed; eassumption. }
  { set_solver. }
  { intros s Hs. set_solver. }
  exists b. split.
  - unfold is_acyclic, bfs_generator. unfold bind at 1. rewrite Hbfs. exact Hrun.
  - destruct b.
    + intros s Hs. apply Hpost, Hnodes, Hs.
    + destruct Hpost as (n & c & Hn & Hreach & Hcycle). exists c. split; [| exact Hcycle].
      etransitivity; [apply Hnodes; exact Hn | now apply eps_reach_trans_reach].
Qed.

End AcyclicCheck.

(** [__is_acyclic] always returns, given fuel for its traversal and its
    recursion, and leaves the store as it was; it answers [True] exactly when
    no state that the initial state reaches, through transitions of any
    label, lies on a cycle of epsilon edges. *)
Theorem is_acyclic_decides (self : Automaton.t) (h : store) :
  exists b,
    returns (fun fuel => Automaton.is_acyclic fuel self) h b /\
    (b = true <->
     forall s, rtc (trans_edge h) (Automaton.initial self) s -> ~ tc (eps_edge h) s s).
Proof.
  set (N := S (size (universe h (Automaton.initial self)))).
  assert (Hiff : forall fuel b,
    Automaton.is_acyclic fuel self h = Ok (b, h) -> (N <= fuel)%nat ->
    (b = true <->
     forall s, rtc (trans_edge h) (Automaton.initial self) s -> ~ tc (eps_edge h) s s)).
  { intros fuel b Hrun Hle.
    destruct (is_acyclic_run h self fuel) as (b' & Hrun' & Hpost); [unfold N in Hle; lia |].
    rewrite Hrun in Hrun'. injection Hrun' as <-. destruct b.
    - split; [| reflexivity]. intros _ s Hs. apply sn_no_cycle. now apply Hpost.
    - split; [discriminate |]. intros Hfree.
      destruct Hpost as (c & Hreach & Hcycle). now destruct (Hfree c Hreach). }
  destruct (is_acyclic_run h self N) as (b & Hrun & _); [unfold N; lia |].
  exists b. split; [| eapply Hiff; [exact Hrun | lia]].
  exists N. intros fuel Hle.
  destruct (is_acyclic_run h self fuel) as (b' & Hrun' & _); [unfold N in Hle; lia |].
  rewrite Hrun'. do 2 f_equal.
  pose proof (Hiff N b Hrun ltac:(lia)) as H1.
  pose proof (Hiff fuel b' Hrun' Hle) as H2.
  destruct b, b'; try reflexivity.
  - destruct H2 as [_ H2]. apply H2, H1. reflexivity.
  - destruct H1 as [_ H1]. symmetry. apply H1, H2. reflexivity.
Qed.

(** ** The simulation on the states that passed the check *)

Section Checked.
Import Automaton.
Variable h : store.
Variable G : ref -> Prop.
Hypothesis Hclosed : forall s t, G s -> trans_edge h s t -> G t.
Variable W : ref -> nat.
Hypothesis HW : forall s, G s -> W s = S (sum_list_with W (eps_targets h s)).

Lemma eps_reach_closed s t : G s -> eps_reach h s t -> G t.
Proof.
  intros Hs Hreach. induction Hreach as [|s u t Hsu _ IH]; [exact Hs |].
  apply IH. eapply Hclosed; [exact Hs | now apply eps_edge_trans_edge].
Qed.

(** The queue of [__closure] stays within [G], where every state has a
    finite number of epsilon paths. *)
Lemma closure_loop_terminates_on : forall fuel queue sd,
  (forall s, s ∈ queue -> is_Some (dict_get sd s) /\ G s) ->
  (sum_list_with W queue < fuel)%nat ->
  exists result, closure_loop fuel queue sd h = Ok (result, h).
Proof.
  induction fuel as [|fuel IH]; intros queue sd Hq Hlt; [lia |].
  destruct queue as [|state queue]; [eexists; reflexivity |].
  rewrite closure_loop_step.
  destruct (Hq state) as [[indexes_set Hstate] HG]; [set_solver |].
  rewrite Hstate.
  pose proof (closure_targets_queue indexes_set (eps_targets h state) sd queue) as Hqueue.
  assert (Hkeys : forall s, s ∈ queue ++ eps_targets h state ->
            is_Some (dict_get
              (fst (closure_targets indexes_set (eps_targets h state) sd queue)) s) /\ G s).
  { intros s [Hs|Hs]%elem_of_app.
    - destruct (Hq s) as [[m0 H0] HGs]; [set_solver |]. split; [| exact HGs].
      destruct (closure_targets_mono indexes_set (eps_targets h state) s sd queue m0 H0)
        as (m1 & H1 & _). eauto.
    - split.
      + destruct (closure_targets_covered indexes_set (eps_targets h state) s sd queue Hs)
          as (m1 & H1 & _). eauto.
      + eapply Hclosed; [exact HG | apply eps_edge_trans_edge; exact Hs]. }
  destruct (closure_targets _ _ _ _) as [sd' queue']. simpl in Hqueue, Hkeys. subst queue'.
  apply IH; [exact Hkeys |].
  rewrite sum_list_with_app. simpl in Hlt. rewrite (HW state HG) in Hlt. lia.
Qed.

Lemma closure_returns_on (frontier : state_dict) :
  (forall s, is_Some (dict_get frontier s) -> G s) ->
  nonempty_sets frontier ->
  exists result,
    returns (fun fuel => closure fuel frontier) h result /\
    nonempty_sets result /\
    (forall s, is_Some (dict_get result s) -> G s).
Proof.
  intros HG Hne.
  pose proof (closure_inv_start h frontier) as Hinv.
  destruct (closure_loop_terminates_on
              (S (sum_list_with W (dict_keys frontier))) (dict_keys frontier) frontier)
    as [result Hrun].
  { intros s Hs. apply dict_get_keys_elem in Hs. split; [exact Hs | now apply HG]. }
  { lia. }
  assert (Hspec : closure_of h frontier result).
  { apply closure_inv_done. eapply closure_loop_inv; [exact Hinv | exact Hrun]. }
  exists result. split; [| split].
  - exists (S (sum_list_with W (dict_keys frontier))).
    intros fuel' Hle. eapply closure_loop_fuel_mono; [exact Hrun | exact Hle].
  - eapply nonempty_closure_of; eassumption.
  - intros t Ht. destruct (Hspec t) as [Hkeys _].
    destruct (proj1 Hkeys Ht) as (f & Hf & Hreach).
    eapply eps_reach_closed; [apply HG; exact Hf | exact Hreach].
Qed.

Lemma trans_returns_on sd letter :
  (forall s, is_Some (dict_get sd s) -> G s) ->
  nonempty_sets sd ->
  exists td,
    trans sd letter h = Ok (td, h) /\ nonempty_sets td /\
    (forall s, is_Some (dict_get td s) -> G s).
Proof.
  intros HG Hne.
  destruct (trans_returns h sd letter Hne) as (td & Htd & Hne').
  exists td. split; [exact Htd |]. split; [exact Hne' |].
  intros t [ms Ht].
  destruct (trans_loop_sound h _ _ _ _ _ _ Htd t) as [Hkeys _].
  assert (Hsome : is_Some (dict_get td t)) by eauto.
  destruct (Hkeys Hsome) as [[? H0] | (s & label & targets & _ & Hs & Hl & Hin)];
    [discriminate H0 |].
  eapply Hclosed; [apply HG; exact Hs |]. exists label, targets. now split.
Qed.

Lemma test_word_loop_returns_on : forall word sd,
  (forall s, is_Some (dict_get sd s) -> G s) ->
  nonempty_sets sd ->
  exists r, returns (fun fuel => test_word_loop fuel word sd) h r.
Proof.
  induction word as [|letter rest IH]; intros sd HG Hsd.
  - exists sd. now apply returns_const.
  - destruct (trans_returns_on sd (Py.chr letter) HG Hsd) as (td & Htd & Hne & HGtd).
    destruct (closure_returns_on td HGtd Hne) as (sd' & Hsd' & Hne' & HG').
    destruct (IH sd' HG' Hne') as [r Hr]. exists r.
    cbn [test_word_loop].
    apply (returns_bind h (fun _ => trans sd (Py.chr letter))
             (fun fuel td => bind (closure fuel td) (fun sd => test_word_loop fuel rest sd))
             td r).
    + now apply returns_const.
    + apply (returns_bind h (fun fuel => closure fuel td)
               (fun fuel sd => test_word_loop fuel rest sd) sd' r); assumption.
Qed.

Lemma singleton_key (s : ref) (i : Z) u :
  is_Some (dict_get [(s, ({[i]} : gset Z))] u) -> u = s.
Proof.
  simpl. destruct (decide (s = u)) as [-> | Hne]; [reflexivity | intros [? ?]; discriminate].
Qed.

Lemma test_word_returns_on self word :
  G (initial self) ->
  exists b, returns (fun fuel => test_word fuel self word) h b.
Proof.
  intros Hinit.
  destruct (closure_returns_on [(initial self, {[0]})]) as (sd & Hsd & Hne & HG).
  { intros u Hu. apply singleton_key in Hu. now subst u. }
  { apply nonempty_singleton. }
  destruct (test_word_loop_returns_on (Py.chars word) sd HG Hne) as [sd' Hsd'].
  exists (dict_mem sd' (final self)). unfold test_word.
  apply (returns_bind h (fun fuel => closure fuel [(initial self, {[0]})])
           (fun fuel sd =>
              bind (test_word_loop fuel (Py.chars word) sd)
                   (fun sd => ret (dict_mem sd (final self))))
           sd _ Hsd).
  apply (returns_bind h (fun fuel => test_word_loop fuel (Py.chars word) sd)
           (fun _ sd => ret (dict_mem sd (final self))) sd' _ Hsd').
  now apply returns_const.
Qed.

Lemma reseed_keys (sd : state_dict) s (i : Z) :
  (forall u, is_Some (dict_get sd u) -> G u) -> G s ->
  forall u,
    is_Some (dict_get
      match dict_get sd s with
      | Some old => dict_set sd s (old ∪ {[i]})
      | None => dict_set sd s {[i]}
      end u) -> G u.
Proof.
  intros HG Hs u Hu. destruct (decide (s = u)) as [<- | Hne]; [exact Hs |].
  apply HG. destruct (dict_get sd s); rewrite dict_get_set_ne in Hu by exact Hne; exact Hu.
Qed.

Variables (self : t) (text : string).
Hypothesis Hinit : G (initial self).

Lemma recordings_loop_returns_on : forall todo sd made,
  (forall s, is_Some (dict_get sd s) -> G s) ->
  nonempty_sets sd ->
  exists rec, returns (fun fuel => recordings_loop fuel self text todo sd made) h rec.
Proof.
  induction todo as [|[i letter] rest IH]; intros sd made HG Hsd.
  - exists made. now apply returns_const.
  - destruct (trans_returns_on sd (Py.chr letter) HG Hsd) as (td & Htd & Hne & HGtd).
    pose proof (nonempty_reseed td (initial self) i Hne) as Hne'.
    pose proof (reseed_keys td (initial self) i HGtd Hinit) as HGre.
    destruct (closure_returns_on _ HGre Hne') as (sd' & [f1 H1] & Hsd' & HG').
    assert (Hskip : forall made',
      exists rec, exists f3, forall fuel', (f3 <= fuel')%nat ->
        recordings_loop fuel' self text rest sd' made' h = Ok (rec, h)).
    { intros made'. destruct (IH sd' made' HG' Hsd') as [rec Hrec]. now exists rec. }
    destruct (dict_get sd' (final self)) as [at_final|] eqn:Hfinal.
    + destruct (set_min_returns at_final) as [start_idx Hmin]; [eapply Hsd'; eassumption |].
      destruct (test_word_returns_on self
                  (Py.slice text (start_idx + 1) (i + 1)) Hinit) as [matched [f2 H2]].
      destruct (Hskip (if negb (String.eqb (Py.slice text (start_idx + 1) (i + 1)) "") && matched
                       then made ++ [(start_idx + 1, i + 1)] else made))
        as (rec & f3 & H3).
      exists rec, (Nat.max f1 (Nat.max f2 f3)). intros fuel' Hle.
      cbn [recordings_loop]. unfold bind at 1. rewrite Htd.
      unfold bind at 1. rewrite H1 by lia. rewrite Hfinal.
      unfold bind at 1. unfold lift. rewrite Hmin. cbn [res_map res_bind].
      destruct (negb _); simpl in H3.
      * unfold bind at 1. rewrite H2 by lia.
        destruct matched; apply H3; lia.
      * apply H3. lia.
    + destruct (Hskip made) as (rec & f3 & H3).
      exists rec, (Nat.max f1 f3). intros fuel' Hle.
      cbn [recordings_loop]. unfold bind at 1. rewrite Htd.
      unfold bind at 1. rewrite H1 by lia. rewrite Hfinal. apply H3. lia.
Qed.

Lemma matching_returns_on :
  exists l, returns (fun fuel => matching fuel self text) h l.
Proof.
  destruct (closure_returns_on [(initial self, {[-1]})]) as (sd & Hsd & Hne & HG).
  { intros u Hu. apply singleton_key in Hu. now subst u. }
  { apply nonempty_singleton. }
  destruct (recordings_loop_returns_on (Py.enumerate text) sd [] HG Hne) as [rec Hrec].
  assert (Hret : returns (fun fuel => recordings fuel self text) h rec).
  { unfold recordings.
    apply (returns_bind h (fun fuel => closure fuel [(initial self, {[-1]})])
             (fun fuel sd => recordings_loop fuel self text (Py.enumerate text) sd [])
             sd rec Hsd Hrec). }
  destruct Hret as [f Hf].
  eexists. exists f. intros fuel' Hle.
  unfold matching. unfold bind at 1.
  rewrite matching_dict_recordings, Hf by exact Hle. reflexivity.
Qed.

End Checked.

(** The states that [init] reaches can be listed. *)
Lemma reachable_listed (h : store) (init : ref) :
  exists nodes : list ref, forall s, s ∈ nodes <-> rtc (trans_edge h) init s.
Proof.
  destruct (bfs_loop_run h (universe h init) init) with
    (fuel := S (size (universe h init))) (queue := [init])
    (visited := ({[init]} : gset ref)) (yielded := ([] : list ref))
    as (nodes & _ & Hnodes).
  - intros s t _ Hst. eapply trans_edge_universe; exact Hst.
  - rewrite size_singleton. simpl. lia.
  - unfold universe. set_solver.
  - intros s. set_solver.
  - intros s t Hs. set_solver.
  - intros s Hs. apply elem_of_singleton in Hs. subst s. reflexivity.
  - set_solver.
  - exists nodes. exact Hnodes.
Qed.

(** What the check of [build_from_regex] buys: when [__is_acyclic] answers
    [True] for an automaton, [test_word] and [matching] return on it for
    every text, with the store unchanged, also when states that the
    automaton does not reach lie on epsilon cycles. *)
Theorem checked_simulation_returns (self : Automaton.t) (h : store) :
  returns (fun fuel => Automaton.is_acyclic fuel self) h true ->
  forall text,
    (exists b, returns (fun fuel => Automaton.test_word fuel self text) h b) /\
    (exists l, returns (fun fuel => Automaton.matching fuel self text) h l).
Proof.
  intros [f0 Hcheck] text.
  set (fuel := Nat.max f0 (S (size (universe h (Automaton.initial self))))).
  destruct (is_acyclic_run h self fuel) as (b & Hrun & Hpost); [unfold fuel; lia |].
  rewrite Hcheck in Hrun by (unfold fuel; lia). injection Hrun as <-.
  destruct (reachable_listed h (Automaton.initial self)) as [nodes Hnodes].
  destruct (paths_stable_all h nodes) as [n Hn].
  { intros t Ht. apply paths_stable_sn, Hpost, Hnodes, Ht. }
  assert (Hclosed : forall s t, rtc (trans_edge h) (Automaton.initial self) s ->
            trans_edge h s t -> rtc (trans_edge h) (Automaton.initial self) t).
  { intros s t Hs Hst. eapply rtc_r; eassumption. }
  assert (HW : forall s, rtc (trans_edge h) (Automaton.initial self) s ->
            paths h n s = S (sum_list_with (paths h n) (eps_targets h s))).
  { intros s Hs. apply Hnodes in Hs.
    rewrite <- (Hn s Hs (S n)) by lia. reflexivity. }
  split.
  - apply (test_word_returns_on h _ Hclosed (paths h n) HW). reflexivity.
  - apply (matching_returns_on h _ Hclosed (paths h n) HW). reflexivity.
Qed.

(** The fragment of ["ab*a"] passes the check. *)
Lemma abstara_checked :
  returns (fun fuel => Automaton.is_acyclic fuel abstara) abstara_store true.
Proof.
  exists (S (size (universe abstara_store (Automaton.initial abstara)))).
  intros fuel Hle.
  destruct (is_acyclic_run abstara_store abstara fuel) as (b & Hrun & Hpost); [lia |].
  destruct b; [exact Hrun |].
  destruct Hpost as (c & _ & Hcycle). now destruct (abstara_acyclic c).
Qed.

Lemma checked_simulation_returns_witness :
  returns (fun fuel => Automaton.is_acyclic fuel abstara) abstara_store true /\
  (exists b, returns (fun fuel => Automaton.test_word fuel abstara "abba") abstara_store b) /\
  (exists l, returns (fun fuel => Automaton.matching fuel abstara "abba") abstara_store l).
Proof.
  split; [exact abstara_checked |].
  exact (checked_simulation_returns abstara abstara_store abstara_checked "abba").
Defined.
